(** * page-parser-tree: the selector compilers and the tag-tree orchestrator

    A shallow embedding of [src/index.js] (the orchestrator with its embedded
    selector compiler), of [src/makeLiveSetTransformerFromSelectors.js] (the
    standalone compiler) and of the child filter engine exercised by
    [src/createTransformer/watchFilteredChildren.test.js].

    JavaScript objects with identity (DOM elements, tag-tree nodes, the
    [parents] arrays) are numbered; a thrown exception is an [Outcome] that
    keeps the state reached so far. *)

From stdpp Require Import gmap strings list.

Set Default Proof Using "Type".

(** ** Identities *)

Abbreviation Element := nat (only parsing).
Abbreviation NodeId := nat (only parsing).
Abbreviation ArrayId := nat (only parsing).

(** ** Errors and outcomes *)

(** The calls into the code of a pipeline that live-set makes while it
    evaluates the pipeline: [matchesSelector(el, itemString)] (it raises on a
    selector string that it cannot parse), [$filter(el)] and [$map(ec.el)]
    (functions of the user). *)
Inductive PipelineCall : Type :=
  | CallMatchesSelector (itemString : string)
  | CallFilter
  | CallMap.

Inductive Error : Type :=
  | Err_missing_documentElement          (* 'missing documentElement' *)
  | Err_TODO                             (* 'TODO' *)
  | Err_invalid_selector_item            (* `Invalid selector item: ...` *)
  | Err_unknown_source (tag : string)    (* 'Unknown source: '+tag *)
  | Err_received_element_twice           (* 'received element twice' *)
  | Err_removal_of_unseen_element        (* 'Should not happen: received removal of unseen element' *)
  | Err_blank                            (* new Error() *)
  | Err_call_stack_exceeded              (* RangeError of an unbounded recursion *)
  | Err_raised_by (call : PipelineCall). (* the exception that such a call raised *)

Inductive Outcome (A : Type) : Type :=
  | Returned (a : A)
  | Thrown (e : Error).
Arguments Returned {A} a.
Arguments Thrown {A} e.

Definition is_thrown {A} (o : Outcome A) : bool :=
  match o with Thrown _ => true | Returned _ => false end.

Definition obind {A B} (o : Outcome A) (k : A → Outcome B) : Outcome B :=
  match o with
  | Returned a => k a
  | Thrown e => Thrown e
  end.

(** [Array.prototype.map] with a callback that may throw: elements are
    visited left to right and the first exception ends the traversal. *)
Definition mapO {A B} (f : A → Outcome B) : list A → Outcome (list B) :=
  fix go (l : list A) : Outcome (list B) :=
    match l with
    | [] => Returned []
    | x :: l' => obind (f x) (λ y, obind (go l') (λ ys, Returned (y :: ys)))
    end.

(** ** Data model of [src/index.js] *)

Inductive Cond : Type :=
  | CondCss (selector : string)
  | CondFn (fn : Element → bool).

#[local] Unset Elimination Schemes.
Inductive Selector : Type :=
  | SelString (css : string)
  | SelFilter (fn : Element → bool)
  | SelMap (fn : Element → option Element)
  | SelWatch (attributeFilter : list string) (cond : Cond)
  | SelOr (branches : list (list Selector))
  | SelLog (prefix : string)
  | SelOther.                     (* an object with none of the known keys *)
#[local] Set Elimination Schemes.

Record NodeTagPair : Type := mkPair {
  tag : option string;            (* null for the root *)
  node : NodeId;
}.

(** A JavaScript array of [NodeTagPair]. No code of the repository mutates
    such an array after creating it ([concat] allocates a new one), so the
    array is its identity together with its frozen contents. *)
Record ParentsArray : Type := mkArray {
  arrayId : ArrayId;
  items : list NodeTagPair;
}.

Record ElementContext : Type := mkEc {
  el : Element;
  parents : ParentsArray;
}.

Record Watcher : Type := mkWatcher {
  sources : list (option string);
  wtag : string;                  (* the field [tag] *)
  selectors : list Selector;
}.

Record TagOptions : Type := mkTagOptions {
  ownedBy : option (list string);
}.

Inductive Root : Type :=
  | RootDocument (documentElement : option Element)
  | RootElement (e : Element).

(** [logError] and [finders] are left out: the constructor stores the error
    sink in [this._logError], which no code calls, and never reads the
    finders. *)
Record PageParserTreeOptions : Type := mkOptions {
  tags : gmap string TagOptions;
  watchers : list Watcher;
}.

(** ** The page *)

(** What the pipelines read from the page: the element children of an element
    and [matches-selector-ng]. *)
Record Page : Type := mkPage {
  children : Element → list Element;
  matchesSelector : Element → string → bool;
}.

(** ** live-set *)

(** Modelled from the spec: the live-set library is a dependency and not part
    of the sources. A live set is represented by its current values, in
    order; [filter], [flatMap], [transduce] and [merge] are the derived sets
    of spec section 6(1), and [merge] keeps the entries of every input
    ("merge does not deduplicate", spec section 4.2). A list has one entry
    for every way a context is derived; which objects the set holds is
    modelled by [liveSetMergeObjects] below. *)
Abbreviation LiveSet A := (list A) (only parsing).

Definition liveSetFilter {A} (liveSet : LiveSet A) (filterFn : A → bool) : LiveSet A :=
  List.filter filterFn liveSet.

Definition liveSetFlatMap {A B} (liveSet : LiveSet A) (flatMapFn : A → LiveSet B) : LiveSet B :=
  List.flat_map flatMapFn liveSet.

Definition liveSetMerge {A} (liveSets : list (LiveSet A)) : LiveSet A :=
  List.concat liveSets.

Definition liveSetTransduce {A B} (liveSet : LiveSet A) (transducer : list A → list B) : LiveSet B :=
  transducer liveSet.

(** transducers.js: [t.filter], [t.map] and [t.compose] (the first transducer
    of a composition sees the values first). *)
Definition t_filter {A} (p : A → bool) : list A → list A := List.filter p.
Definition t_map {A B} (f : A → B) : list A → list B := List.map f.
Definition t_compose {A B C} (xf1 : list A → list B) (xf2 : list B → list C) : list A → list C :=
  λ l, xf2 (xf1 l).

(** A compiled selector list. The page is read when the set is evaluated, not
    when the list is compiled. *)
Definition LiveSetTransformer : Type := Page → LiveSet ElementContext → LiveSet ElementContext.

(** [transformers.reduce((combined, transformer) => liveSet =>
    transformer(combined(liveSet)), x => x)] *)
Definition reduceTransformers (transformers : list LiveSetTransformer) : LiveSetTransformer :=
  fold_left (λ combined transformer, λ page liveSet, transformer page (combined page liveSet))
            transformers (λ _ x, x).

(** The element context built by [$map] before its [el != null] filter. *)
Record MappedContext : Type := mkMapped {
  mel : option Element;
  mparents : ParentsArray;
}.

Definition mapTransducer (fn : Element → option Element)
  : list ElementContext → list ElementContext :=
  t_compose
    (t_compose
       (t_map (λ ec, mkMapped (fn (el ec)) (parents ec)))
       (t_filter (λ ec, bool_decide (mel ec ≠ None))))
    (* the survivors are element contexts again *)
    (omap (λ ec, (λ e, mkEc e (mparents ec)) <$> mel ec)).

(** The body that both compilers give to their function: [selectors.map] with
    the compilation of one item, then [transformers.reduce]. *)
Definition makeWith (compileItem : Selector → Outcome LiveSetTransformer)
    (selectors : list Selector) : Outcome LiveSetTransformer :=
  obind (mapO compileItem selectors) (λ ts, Returned (reduceTransformers ts)).

(** Modelled from the spec: [makeElementChildLiveSet] is not part of the
    sources. Spec section 4.3: the current direct children of the element
    that are elements. *)
Definition makeElementChildLiveSet (page : Page) (e : Element) : LiveSet Element :=
  children page e.

(** *** The compiler embedded in [src/index.js] *)

Module Embedded.

Fixpoint compileItem (item : Selector) : Outcome LiveSetTransformer :=
  match item with
  | SelString itemString =>
      let flatMapFn (page : Page) (ec : ElementContext) :=
        let transducer :=
          t_compose
            (t_filter (λ e, matchesSelector page e itemString))
            (t_map (λ e, mkEc e (parents ec))) in
        liveSetTransduce (makeElementChildLiveSet page (el ec)) transducer in
      Returned (λ page liveSet, liveSetFlatMap liveSet (flatMapFn page))
  | SelOr branches =>
      (* item.$or.map(makeLiveSetTransformer) *)
      obind (mapO (makeWith compileItem) branches)
        (λ transformers,
           Returned (λ page liveSet,
              liveSetMerge (List.map (λ transformer : LiveSetTransformer,
                                        transformer page liveSet) transformers)))
  | SelWatch _ _ => Thrown Err_TODO
  | SelLog prefix =>
      (* [item.$log] is falsy for the empty string *)
      if bool_decide (prefix = EmptyString) then Thrown Err_invalid_selector_item
      else
        (* console.log($log, value.el); return true *)
        let filterFn (value : ElementContext) := true in
        Returned (λ page liveSet, liveSetFilter liveSet filterFn)
  | SelFilter fn =>
      let filterFn (ec : ElementContext) := fn (el ec) in
      Returned (λ page liveSet, liveSetFilter liveSet filterFn)
  | SelMap fn =>
      Returned (λ page liveSet, liveSetTransduce liveSet (mapTransducer fn))
  | SelOther => Thrown Err_invalid_selector_item
  end.

Definition makeLiveSetTransformer (selectors : list Selector) : Outcome LiveSetTransformer :=
  makeWith compileItem selectors.

End Embedded.

(** *** The standalone compiler, [src/makeLiveSetTransformerFromSelectors.js] *)

(** Modelled from the spec: [makeFilteredEcChildLiveSet] is not part of the
    sources. Spec section 4.5: the direct children of the context's element
    that satisfy the selector string, wrapped as contexts inheriting the
    parent context's [parents]. *)
Definition makeFilteredEcChildLiveSet (page : Page) (ec : ElementContext) (selector : string)
  : LiveSet ElementContext :=
  List.map (λ e, mkEc e (parents ec))
           (List.filter (λ e, matchesSelector page e selector) (children page (el ec))).

Definition evalCond (page : Page) (cond : Cond) (e : Element) : bool :=
  match cond with
  | CondCss selector => matchesSelector page e selector
  | CondFn fn => fn e
  end.

(** Modelled from the spec: [makeMutationObserverLiveSet] is not part of the
    sources. Spec section 4.7: the set holds at most one entry, the element
    itself, exactly while the element satisfies the condition. *)
Definition makeMutationObserverLiveSet (page : Page) (ec : ElementContext)
    (attributeFilter : list string) (cond : Cond) : LiveSet ElementContext :=
  if evalCond page cond (el ec) then [ec] else [].

Module Standalone.

Fixpoint compileItem (item : Selector) : Outcome LiveSetTransformer :=
  match item with
  | SelString itemString =>
      let flatMapFn (page : Page) (ec : ElementContext) :=
        makeFilteredEcChildLiveSet page ec itemString in
      Returned (λ page liveSet, liveSetFlatMap liveSet (flatMapFn page))
  | SelOr branches =>
      (* item.$or.map(makeLiveSetTransformerFromSelectors) *)
      obind (mapO (makeWith compileItem) branches)
        (λ transformers,
           Returned (λ page liveSet,
              liveSetMerge (List.map (λ transformer : LiveSetTransformer,
                                        transformer page liveSet) transformers)))
  | SelWatch attributeFilter cond =>
      let flatMapFn (page : Page) (ec : ElementContext) :=
        makeMutationObserverLiveSet page ec attributeFilter cond in
      Returned (λ page liveSet, liveSetFlatMap liveSet (flatMapFn page))
  | SelLog prefix =>
      if bool_decide (prefix = EmptyString) then Thrown Err_invalid_selector_item
      else
        let filterFn (value : ElementContext) := true in
        Returned (λ page liveSet, liveSetFilter liveSet filterFn)
  | SelFilter fn =>
      let filterFn (ec : ElementContext) := fn (el ec) in
      Returned (λ page liveSet, liveSetFilter liveSet filterFn)
  | SelMap fn =>
      Returned (λ page liveSet, liveSetTransduce liveSet (mapTransducer fn))
  | SelOther => Thrown Err_invalid_selector_item
  end.

Definition makeLiveSetTransformerFromSelectors (selectors : list Selector)
  : Outcome LiveSetTransformer :=
  makeWith compileItem selectors.

End Standalone.

(** ** Context objects and the values of a live set *)

(** The values of a live set are a JavaScript [Set] of objects
    ([LiveSet.constant(new Set([...]))] at line 194 of [src/index.js],
    [liveSet.values().forEach] in the test): an object is a value once, by
    however many ways it got there. The lists above keep one entry for every
    way a context is derived; here a context is an object, that is its
    identity and its fields. An object literal [{el, parents}] makes an
    object with a new identity; a stage that hands on its input hands on the
    same object. *)
Abbreviation ObjectId := nat (only parsing).

Record ContextObject : Type := mkObject {
  objectId : ObjectId;
  context : ElementContext;
}.

(** [new Set(values)]: every object once, where it first occurs. *)
Fixpoint newSet (values : list ContextObject) : list ContextObject :=
  match values with
  | [] => []
  | o :: values' =>
      o :: List.filter (λ o', negb (objectId o' =? objectId o)) (newSet values')
  end.

(** Code that makes objects runs on the next free identity and returns the
    one that is free afterwards. *)
Definition Alloc (A : Type) : Type := ObjectId → A * ObjectId.

(** The object literal [{el, parents}]. *)
Definition newObject (ec : ElementContext) : Alloc ContextObject :=
  λ next, (mkObject next ec, S next).

(** [array.map] with a callback that makes objects. *)
Definition mapA {A B} (f : A → Alloc B) : list A → Alloc (list B) :=
  fix go (l : list A) : Alloc (list B) :=
    match l with
    | [] => λ next, ([], next)
    | x :: l' =>
        λ next, let '(y, n1) := f x next in
                let '(ys, n2) := go l' n1 in
                (y :: ys, n2)
    end.

(** A compiled selector list, on objects. *)
Definition ObjectTransformer : Type := Page → list ContextObject → Alloc (list ContextObject).

(** Modelled from the spec: live-set is not part of the sources. Spec section
    6(1) for the derived sets; their values are a [Set], as the sources show.
    [liveSetFilter] keeps the objects that pass; [liveSetFlatMap] and
    [liveSetMerge] hold the values of all the sets they unite, an object
    that several of them hold being one value. The entries are not compared
    by their fields ("merge does not deduplicate", spec section 4.2): two
    objects with equal fields are two values. *)
Definition liveSetFlatMapObjects (liveSet : list ContextObject)
    (flatMapFn : ContextObject → Alloc (list ContextObject)) : Alloc (list ContextObject) :=
  λ next, let '(sets, n1) := mapA flatMapFn liveSet next in (newSet (List.concat sets), n1).

Definition liveSetMergeObjects (liveSets : list (list ContextObject)) : list ContextObject :=
  newSet (List.concat liveSets).

(** [transformers.reduce((combined, transformer) => liveSet =>
    transformer(combined(liveSet)), x => x)] *)
Definition reduceObjectTransformers (transformers : list ObjectTransformer) : ObjectTransformer :=
  fold_left (λ (combined transformer : ObjectTransformer),
               λ page liveSet next,
                 let '(mid, n1) := combined page liveSet next in transformer page mid n1)
            transformers (λ _ x next, (x, next)).

Definition makeObjectsWith (compileItem : Selector → Outcome ObjectTransformer)
    (selectors : list Selector) : Outcome ObjectTransformer :=
  obind (mapO compileItem selectors) (λ ts, Returned (reduceObjectTransformers ts)).

(** [liveSet => liveSetMerge(transformers.map(transformer =>
    transformer(liveSet)))]: every branch runs on the same set. *)
Definition orObjects (transformers : list ObjectTransformer) : ObjectTransformer :=
  λ page liveSet next,
    let '(outputs, n1) :=
      mapA (λ transformer : ObjectTransformer, transformer page liveSet) transformers next in
    (liveSetMergeObjects outputs, n1).

(** [t.compose(filterXf, t.map(el => ({el, parents: ec.parents})))] on the
    children of the element of [o]: one new object for every child that
    matches. *)
Definition childObjects (page : Page) (itemString : string) (o : ContextObject)
  : Alloc (list ContextObject) :=
  mapA (λ e, newObject (mkEc e (parents (context o))))
       (List.filter (λ e, matchesSelector page e itemString)
                    (makeElementChildLiveSet page (el (context o)))).

(** [t.compose(t.map(ec => ({el: $map(ec.el), parents: ec.parents})),
    t.filter(ec => ec.el != null))]: one new object for every input, of which
    those with an element stay. *)
Definition mapObjects (fn : Element → option Element) (liveSet : list ContextObject)
  : Alloc (list ContextObject) :=
  λ next,
    let '(made, n1) :=
      mapA (λ o next', ((next', mkMapped (fn (el (context o))) (parents (context o))),
                        S next'))
           liveSet next in
    (* the survivors are element contexts again *)
    (omap (λ m : ObjectId * MappedContext,
             (λ e, mkObject m.1 (mkEc e (mparents m.2))) <$> mel m.2)
          (t_filter (λ m : ObjectId * MappedContext, bool_decide (mel m.2 ≠ None)) made), n1).

(** Modelled from the spec: [makeFilteredEcChildLiveSet] is not part of the
    sources. Spec section 4.5: the matching children, wrapped as contexts
    (new objects) that inherit the [parents] of the parent context. *)
Definition makeFilteredEcChildLiveSetObjects (page : Page) (o : ContextObject)
    (selector : string) : Alloc (list ContextObject) :=
  mapA (λ e, newObject (mkEc e (parents (context o))))
       (List.filter (λ e, matchesSelector page e selector) (children page (el (context o)))).

(** Modelled from the spec: [makeMutationObserverLiveSet] is not part of the
    sources. Spec section 4.7: the set holds the context it was made for
    while its element satisfies the condition. *)
Definition makeMutationObserverLiveSetObjects (page : Page) (o : ContextObject)
    (attributeFilter : list string) (cond : Cond) : Alloc (list ContextObject) :=
  λ next, (if evalCond page cond (el (context o)) then [o] else [], next).

(** *** The compiler embedded in [src/index.js], on objects *)

Module EmbeddedObjects.

Fixpoint compileItem (item : Selector) : Outcome ObjectTransformer :=
  match item with
  | SelString itemString =>
      Returned (λ page liveSet, liveSetFlatMapObjects liveSet (childObjects page itemString))
  | SelOr branches =>
      obind (mapO (makeObjectsWith compileItem) branches)
        (λ transformers, Returned (orObjects transformers))
  | SelWatch _ _ => Thrown Err_TODO
  | SelLog prefix =>
      if bool_decide (prefix = EmptyString) then Thrown Err_invalid_selector_item
      else
        let filterFn (value : ContextObject) := true in
        Returned (λ page liveSet next, (liveSetFilter liveSet filterFn, next))
  | SelFilter fn =>
      let filterFn (o : ContextObject) := fn (el (context o)) in
      Returned (λ page liveSet next, (liveSetFilter liveSet filterFn, next))
  | SelMap fn =>
      Returned (λ page liveSet, mapObjects fn liveSet)
  | SelOther => Thrown Err_invalid_selector_item
  end.

Definition makeLiveSetTransformer (selectors : list Selector) : Outcome ObjectTransformer :=
  makeObjectsWith compileItem selectors.

End EmbeddedObjects.

(** *** The standalone compiler, on objects *)

Module StandaloneObjects.

Fixpoint compileItem (item : Selector) : Outcome ObjectTransformer :=
  match item with
  | SelString itemString =>
      Returned (λ page liveSet,
                  liveSetFlatMapObjects liveSet
                    (λ o, makeFilteredEcChildLiveSetObjects page o itemString))
  | SelOr branches =>
      obind (mapO (makeObjectsWith compileItem) branches)
        (λ transformers, Returned (orObjects transformers))
  | SelWatch attributeFilter cond =>
      Returned (λ page liveSet,
                  liveSetFlatMapObjects liveSet
                    (λ o, makeMutationObserverLiveSetObjects page o attributeFilter cond))
  | SelLog prefix =>
      if bool_decide (prefix = EmptyString) then Thrown Err_invalid_selector_item
      else
        let filterFn (value : ContextObject) := true in
        Returned (λ page liveSet next, (liveSetFilter liveSet filterFn, next))
  | SelFilter fn =>
      let filterFn (o : ContextObject) := fn (el (context o)) in
      Returned (λ page liveSet next, (liveSetFilter liveSet filterFn, next))
  | SelMap fn =>
      Returned (λ page liveSet, mapObjects fn liveSet)
  | SelOther => Thrown Err_invalid_selector_item
  end.

Definition makeLiveSetTransformerFromSelectors (selectors : list Selector)
  : Outcome ObjectTransformer :=
  makeObjectsWith compileItem selectors.

End StandaloneObjects.

(** ** Occurrences of [$watch] *)

(** Does the selector list hold a [$watch] operator, at the top level or in
    a branch of an [$or] at any depth? *)
Fixpoint itemHasWatch (item : Selector) : bool :=
  match item with
  | SelWatch _ _ => true
  | SelOr branches => existsb (existsb itemHasWatch) branches
  | _ => false
  end.

Definition hasWatch (selectors : list Selector) : bool := existsb itemHasWatch selectors.

(** Induction on selectors that reaches into the branches of [$or]. *)
Section SelectorInd.
Variable P : Selector → Prop.
Hypothesis HString : ∀ s, P (SelString s).
Hypothesis HFilter : ∀ f, P (SelFilter f).
Hypothesis HMap : ∀ f, P (SelMap f).
Hypothesis HWatch : ∀ a c, P (SelWatch a c).
Hypothesis HOr : ∀ branches, Forall (Forall P) branches → P (SelOr branches).
Hypothesis HLog : ∀ s, P (SelLog s).
Hypothesis HOther : P SelOther.

Fixpoint Selector_ind (item : Selector) : P item :=
  match item with
  | SelString s => HString s
  | SelFilter f => HFilter f
  | SelMap f => HMap f
  | SelWatch a c => HWatch a c
  | SelOr branches =>
      HOr branches
        ((fix goBranches (bs : list (list Selector)) : Forall (Forall P) bs :=
            match bs with
            | [] => @Stdlib.Lists.List.Forall_nil _ _
            | b :: bs' =>
                @Stdlib.Lists.List.Forall_cons _ (Forall P) b bs'
                  ((fix goList (l : list Selector) : Forall P l :=
                      match l with
                      | [] => @Stdlib.Lists.List.Forall_nil _ _
                      | i :: l' => @Stdlib.Lists.List.Forall_cons _ P i l' (Selector_ind i) (goList l')
                      end) b)
                  (goBranches bs')
            end) branches)
  | SelLog s => HLog s
  | SelOther => HOther
  end.
End SelectorInd.

(** ** tag-tree *)

(** Modelled from the spec: the tag-tree library is a dependency and not part
    of the sources. Spec sections 3 and 6(2): a node wraps one element value
    and supports parent lookup and an ownership test; the controller attaches
    a tagged value under a parent, returning a new node, and detaches a
    tagged node, which cascades to the nodes it owns. The tree is a heap of
    numbered nodes; node 0 is the root (the [TagTree] itself). A node keeps
    the parent it was created under; what a detach changes is which nodes
    its parent and the nodes below own. *)
Record TagTreeNode : Type := mkNode {
  nodeValue : Element;
  nodeTag : option string;
  nodeParent : option NodeId;
  nodeOwned : list NodeId;
}.

(** The requests that reach the [TagTreeController]. *)
Inductive ControllerCall : Type :=
  | AddTaggedValue (parent : NodeId) (tag : string) (value : Element)
  | RemoveTaggedNode (parent : NodeId) (tag : string) (node : NodeId).

Record TagTree : Type := mkTree {
  treeNodes : gmap nat TagTreeNode;
  nextNodeId : NodeId;
  controllerCalls : list ControllerCall;   (* oldest first *)
}.

Definition ownedOf (nodes : gmap nat TagTreeNode) (n : NodeId) : list NodeId :=
  default [] (nodeOwned <$> nodes !! n).

Definition setOwned (owned : list NodeId) (n : TagTreeNode) : TagTreeNode :=
  mkNode (nodeValue n) (nodeTag n) (nodeParent n) owned.

Definition addOwnedNode (c : NodeId) (n : TagTreeNode) : TagTreeNode :=
  setOwned (nodeOwned n ++ [c]) n.

Definition removeOwnedNode (c : NodeId) (n : TagTreeNode) : TagTreeNode :=
  setOwned (List.filter (λ x, negb (x =? c)) (nodeOwned n)) n.

(** [parent.ownsNode(node)] *)
Definition ownsNode (t : TagTree) (parent node : NodeId) : bool :=
  bool_decide (node ∈ ownedOf (treeNodes t) parent).

(** [node.getParent()] *)
Definition getParent (t : TagTree) (n : NodeId) : option NodeId :=
  treeNodes t !! n ≫= nodeParent.

Definition newTagTree (rootValue : Element) : TagTree :=
  mkTree {[ 0 := mkNode rootValue None None [] ]} 1 [].

Definition tree_addTaggedValue (parent : NodeId) (tag : string) (value : Element) (t : TagTree)
  : NodeId * TagTree :=
  let n := nextNodeId t in
  (n, mkTree (<[n := mkNode value (Some tag) (Some parent) []]>
                (alter (addOwnedNode n) parent (treeNodes t)))
             (S n)
             (controllerCalls t ++ [AddTaggedValue parent tag value])).

(** Detaching [n] from [parent] first detaches from [n], in turn, every node
    that [n] owns. The recursion follows the ownership edges, so it is
    bounded by [fuel]; running out of it is the overflow of the call stack. *)
Definition detachOwned (detach : gmap nat TagTreeNode → NodeId → NodeId → option (gmap nat TagTreeNode))
    (n : NodeId) : list NodeId → gmap nat TagTreeNode → option (gmap nat TagTreeNode) :=
  fix go (owned : list NodeId) (acc : gmap nat TagTreeNode) :=
    match owned with
    | [] => Some acc
    | c :: owned' =>
        match detach acc n c with
        | Some acc' => go owned' acc'
        | None => None
        end
    end.

Fixpoint detachNode (fuel : nat) (nodes : gmap nat TagTreeNode) (parent n : NodeId)
  : option (gmap nat TagTreeNode) :=
  match fuel with
  | 0 => None
  | S fuel' =>
      match detachOwned (detachNode fuel') n (ownedOf nodes n) nodes with
      | Some acc => Some (alter (removeOwnedNode n) parent acc)
      | None => None
      end
  end.

Definition tree_removeTaggedNode (parent : NodeId) (tag : string) (n : NodeId) (t : TagTree)
  : Outcome unit * TagTree :=
  let calls := controllerCalls t ++ [RemoveTaggedNode parent tag n] in
  match detachNode (S (nextNodeId t)) (treeNodes t) parent n with
  | Some nodes' => (Returned (), mkTree nodes' (nextNodeId t) calls)
  | None => (Thrown Err_call_stack_exceeded, mkTree (treeNodes t) (nextNodeId t) calls)
  end.

(** ** The orchestrator, [PageParserTree] of [src/index.js] *)

Inductive SourceSet : Type :=
  | RootMatchedSet                       (* this._rootMatchedSet *)
  | EcSet (tag : string).                (* this._ecSources.get(tag).ecSet *)

Record Subscription : Type := mkSubscription {
  subWatcher : nat;                      (* index in options.watchers *)
  subSources : list SourceSet;
}.

Record PageParserTree : Type := mkInstance {
  tree : option TagTree;                 (* this.tree and this._treeController *)
  _rootMatchedSet : list ElementContext;
  nextArrayId : ArrayId;
  _tagOptions : gmap string TagOptions;
  _watcherLiveSetTransformers : list LiveSetTransformer;  (* by watcher *)
  _ecSources : gmap string (list nat);   (* the output sets added to each tag *)
  elementsToNodes : gmap nat (gmap nat nat);   (* one Map per watcher *)
  _subscriptions : list Subscription;
  loggedErrors : list (Error * option Element);   (* calls of this._logError *)
}.
(* No statement of the class calls [this._logError]: [loggedErrors] is there
   to say so. *)

Definition blankInstance : PageParserTree :=
  mkInstance None [] 0 ∅ [] ∅ ∅ [] [].

(** Statements of the class: they run on the instance and either return or
    throw, and what they did to the instance before throwing stays done. *)
Definition M (A : Type) : Type := PageParserTree → Outcome A * PageParserTree.

#[global] Instance M_ret : MRet M := λ A a st, (Returned a, st).
#[global] Instance M_bind : MBind M := λ A B k m st,
  match m st with
  | (Returned a, st') => k a st'
  | (Thrown e, st') => (Thrown e, st')
  end.

Definition throw {A} (e : Error) : M A := λ st, (Thrown e, st).
Definition gets {A} (f : PageParserTree → A) : M A := λ st, (Returned (f st), st).
Definition modify (f : PageParserTree → PageParserTree) : M unit := λ st, (Returned (), f st).
Definition liftO {A} (o : Outcome A) : M A := λ st, (o, st).

(** [array.forEach] with a callback that may throw. *)
Definition forEach {A} (f : A → M unit) : list A → M unit :=
  fix go (l : list A) : M unit :=
    match l with
    | [] => mret ()
    | x :: l' => f x ≫= λ _, go l'
    end.

(** [array.map] with a callback that runs on the instance. *)
Definition mapM {A B} (f : A → M B) : list A → M (list B) :=
  fix go (l : list A) : M (list B) :=
    match l with
    | [] => mret []
    | x :: l' => y ← f x; ys ← go l'; mret (y :: ys)
    end.

Definition setTree (t : TagTree) (st : PageParserTree) : PageParserTree :=
  mkInstance (Some t) (_rootMatchedSet st) (nextArrayId st) (_tagOptions st)
    (_watcherLiveSetTransformers st) (_ecSources st) (elementsToNodes st)
    (_subscriptions st) (loggedErrors st).

Definition setElementsToNodes (m : gmap nat (gmap nat nat)) (st : PageParserTree) : PageParserTree :=
  mkInstance (tree st) (_rootMatchedSet st) (nextArrayId st) (_tagOptions st)
    (_watcherLiveSetTransformers st) (_ecSources st) m
    (_subscriptions st) (loggedErrors st).

Definition setNextArrayId (n : ArrayId) (st : PageParserTree) : PageParserTree :=
  mkInstance (tree st) (_rootMatchedSet st) n (_tagOptions st)
    (_watcherLiveSetTransformers st) (_ecSources st) (elementsToNodes st)
    (_subscriptions st) (loggedErrors st).

(** The tree of an instance; before [new TagTree] there is none. *)
Definition theTree (st : PageParserTree) : TagTree :=
  default (mkTree ∅ 0 []) (tree st).

(** [this._treeController.addTaggedValue(parent, tag, value)] *)
Definition addTaggedValue (parent : NodeId) (tag : string) (value : Element) : M NodeId :=
  λ st, let '(n, t) := tree_addTaggedValue parent tag value (theTree st) in
        (Returned n, setTree t st).

(** [this._treeController.removeTaggedNode(parent, tag, node)] *)
Definition removeTaggedNode (parent : NodeId) (tag : string) (n : NodeId) : M unit :=
  λ st, let '(o, t) := tree_removeTaggedNode parent tag n (theTree st) in
        (o, setTree t st).

(** The [elementsToNodes] map of watcher [w]. *)
Definition e2n (st : PageParserTree) (w : nat) : gmap nat nat :=
  default ∅ (elementsToNodes st !! w).

(** [ec.parents.concat(more)]: a new array. *)
Definition concatParents (arr : ParentsArray) (more : list NodeTagPair) : M ParentsArray :=
  λ st, (Returned (mkArray (nextArrayId st) (items arr ++ more)),
         setNextArrayId (S (nextArrayId st)) st).

(** [findParentNode], the closure of a watcher over its [ownedBy] set. The
    loop runs [i] from [taggedParents.length-1] down to 0; [scanned] counts
    the indices still to visit. *)
Fixpoint findParentNode_loop (ownedBy : gset string) (taggedParents : list NodeTagPair)
    (scanned : nat) : option NodeId :=
  match scanned with
  | 0 => None
  | S i =>
      match taggedParents !! i with
      | Some p =>
          if match tag p with
             | None => true                               (* tag == null *)
             | Some t => bool_decide (t ∈ ownedBy)        (* ownedBy.has(tag) *)
             end
          then Some (node p)
          else findParentNode_loop ownedBy taggedParents i
      | None => findParentNode_loop ownedBy taggedParents i   (* not reached: i < length *)
      end
  end.

Definition findParentNode (ownedBy : gset string) (taggedParents : list NodeTagPair)
  : Outcome NodeId :=
  match findParentNode_loop ownedBy taggedParents (length taggedParents) with
  | Some parentNode => Returned parentNode
  | None => Thrown Err_blank
  end.

(** The callback given to [liveSetMap] for watcher [w] with destination
    [tag]. *)
Definition placeElement (w : nat) (tag : string) (ownedBy : gset string)
    (ec : ElementContext) : M ElementContext :=
  parentNode ← liftO (findParentNode ownedBy (items (parents ec)));
  n ← addTaggedValue parentNode tag (el ec);
  has ← gets (λ st, bool_decide (is_Some (e2n st w !! el ec)));
  if (has : bool) then throw Err_received_element_twice
  else
    modify (λ st, setElementsToNodes (<[w := <[el ec := n]> (e2n st w)]> (elementsToNodes st)) st) ;;
    newParents ← concatParents (parents ec) [mkPair (Some tag) n];
    mret (mkEc (el ec) newParents).

Inductive Change : Type :=
  | ChangeAdd (value : ElementContext)
  | ChangeRemove (value : ElementContext).

(** [change.value] *)
Definition changeValue (c : Change) : ElementContext :=
  match c with ChangeAdd v | ChangeRemove v => v end.

(** The body of [changes.forEach] in the callback given to
    [outputSet.subscribe]. *)
Definition onChange (w : nat) (tag : string) (change : Change) : M unit :=
  match change with
  | ChangeRemove value =>
      found ← gets (λ st, e2n st w !! el value);
      match found with
      | None => throw Err_removal_of_unseen_element
      | Some n =>
          modify (λ st, setElementsToNodes
                          (<[w := delete (el value) (e2n st w)]> (elementsToNodes st)) st) ;;
          nodeParent ← gets (λ st, getParent (theTree st) n);
          match nodeParent with
          | Some p =>
              owns ← gets (λ st, ownsNode (theTree st) p n);
              if (owns : bool) then removeTaggedNode p tag n else mret ()
          | None => mret ()
          end
      end
  | ChangeAdd _ => mret ()
  end.

Definition onChanges (w : nat) (tag : string) (changes : list Change) : M unit :=
  forEach (onChange w tag) changes.

(** *** The constructor *)

(** One call made by live-set into the callbacks of a watcher's output set:
    the [liveSetMap] callback on a newly matched context, or the subscriber
    with a batch of changes. *)
Inductive Delivery : Type :=
  | MapCall (ec : ElementContext)
  | SubscriberCall (changes : list Change).

(** The live-set library is not part of the sources, and the sources do not
    fix when it runs the callbacks nor when it evaluates the pipelines: the
    contexts it maps while the output set of watcher [i] is being
    subscribed, the calls it makes when the subscription of that watcher is
    flushed, and the call into the code of a pipeline that raises an
    exception while it does the one or the other, if there is one, are
    parameters. An exception ends the subscription or the flush, so it comes
    after the callbacks that were run. *)
Record LiveSetSchedule : Type := mkSchedule {
  atSubscribe : nat → list ElementContext;
  atPullChanges : nat → list Delivery;
  raisedAtSubscribe : nat → option PipelineCall;
  raisedAtPullChanges : nat → option PipelineCall;
}.

Definition setTagOptions (m : gmap string TagOptions) (st : PageParserTree) : PageParserTree :=
  mkInstance (tree st) (_rootMatchedSet st) (nextArrayId st) m
    (_watcherLiveSetTransformers st) (_ecSources st) (elementsToNodes st)
    (_subscriptions st) (loggedErrors st).

Definition setTransformers (ts : list LiveSetTransformer) (st : PageParserTree) : PageParserTree :=
  mkInstance (tree st) (_rootMatchedSet st) (nextArrayId st) (_tagOptions st)
    ts (_ecSources st) (elementsToNodes st)
    (_subscriptions st) (loggedErrors st).

Definition setRootMatchedSet (s : list ElementContext) (st : PageParserTree) : PageParserTree :=
  mkInstance (tree st) s (nextArrayId st) (_tagOptions st)
    (_watcherLiveSetTransformers st) (_ecSources st) (elementsToNodes st)
    (_subscriptions st) (loggedErrors st).

Definition setEcSources (m : gmap string (list nat)) (st : PageParserTree) : PageParserTree :=
  mkInstance (tree st) (_rootMatchedSet st) (nextArrayId st) (_tagOptions st)
    (_watcherLiveSetTransformers st) m (elementsToNodes st)
    (_subscriptions st) (loggedErrors st).

Definition setSubscriptions (l : list Subscription) (st : PageParserTree) : PageParserTree :=
  mkInstance (tree st) (_rootMatchedSet st) (nextArrayId st) (_tagOptions st)
    (_watcherLiveSetTransformers st) (_ecSources st) (elementsToNodes st)
    l (loggedErrors st).

(** The body of the loop over the watchers that completes
    [this._tagOptions] and the local [tags] array: a destination tag that is
    not known yet is added with empty options. *)
Definition collectStep (acc : gmap string TagOptions * list (string * option (list string)))
    (watcher : Watcher) : gmap string TagOptions * list (string * option (list string)) :=
  if bool_decide (is_Some (acc.1 !! wtag watcher)) then acc
  else (<[wtag watcher := mkTagOptions None]> acc.1, acc.2 ++ [(wtag watcher, None)]).

(** The two loops that fill [this._tagOptions] and [tags]: the declared tags
    first, then the destination tags of the watchers. *)
Definition collectTags (options : PageParserTreeOptions)
  : gmap string TagOptions * list (string * option (list string)) :=
  fold_left collectStep (watchers options)
    (tags options, (λ kv : string * TagOptions, (kv.1, ownedBy kv.2)) <$> map_to_list (tags options)).

(** [sources.map(tag => ...)]: a falsy source (null, or the empty string) is
    the root set. *)
Definition resolveSource (source : option string) : M SourceSet :=
  match source with
  | None => mret RootMatchedSet
  | Some tag =>
      if bool_decide (tag = EmptyString) then mret RootMatchedSet
      else
        entry ← gets (λ st, _ecSources st !! tag);
        match entry with
        | Some _ => mret (EcSet tag)
        | None => throw (Err_unknown_source tag)
        end
  end.

Definition runDelivery (w : nat) (tag : string) (ownedBy : gset string) (d : Delivery) : M unit :=
  match d with
  | MapCall ec => placeElement w tag ownedBy ec ≫= λ _, mret ()
  | SubscriberCall changes => onChanges w tag changes
  end.

(** An exception of the code of a pipeline leaves live-set and reaches the
    statement of the constructor that made live-set evaluate the pipeline. *)
Definition raised (call : option PipelineCall) : M unit :=
  match call with
  | Some c => throw (Err_raised_by c)
  | None => mret ()
  end.

Definition ownedBySet (tagOptions : TagOptions) : gset string :=
  list_to_set (default [] (ownedBy tagOptions)).

(** The body of [this._options.watchers.forEach] for the watcher at index
    [i]. The output set is [liveSetMap] of the compiled pipeline on the
    resolved sources, with [placeElement] as callback; subscribing to it is
    where live-set may first evaluate the pipeline and run that callback. *)
Definition wireWatcher (sched : LiveSetSchedule) (iw : nat * Watcher) : M unit :=
  let '(i, watcher) := iw in
  tagOptions ← gets (λ st, _tagOptions st !! wtag watcher);
  match tagOptions with
  | None => throw Err_blank
  | Some tagOptions =>
      sourceSets ← mapM resolveSource (sources watcher);
      transformer ← gets (λ st, _watcherLiveSetTransformers st !! i);
      match transformer with
      | None => throw Err_blank
      | Some _ =>
          (* elementsToNodes = new Map() *)
          modify (λ st, setElementsToNodes (<[i := ∅]> (elementsToNodes st)) st) ;;
          (* outputSet.subscribe(...) *)
          forEach (λ ec, placeElement i (wtag watcher) (ownedBySet tagOptions) ec ≫= λ _, mret ())
                  (atSubscribe sched i) ;;
          raised (raisedAtSubscribe sched i) ;;
          modify (λ st, setSubscriptions (_subscriptions st ++ [mkSubscription i sourceSets]) st) ;;
          ecEntry ← gets (λ st, _ecSources st !! wtag watcher);
          match ecEntry with
          | None => throw Err_blank
          | Some outputs =>
              modify (λ st, setEcSources (<[wtag watcher := outputs ++ [i]]> (_ecSources st)) st)
          end
      end
  end.

(** [sub.pullChanges()] for the subscription of watcher [subWatcher sub]. *)
Definition pullChanges (sched : LiveSetSchedule) (options : PageParserTreeOptions)
    (sub : Subscription) : M unit :=
  match watchers options !! subWatcher sub with
  | None => mret ()
  | Some watcher =>
      tagOptions ← gets (λ st, default (mkTagOptions None) (_tagOptions st !! wtag watcher));
      forEach (runDelivery (subWatcher sub) (wtag watcher) (ownedBySet tagOptions))
              (atPullChanges sched (subWatcher sub)) ;;
      raised (raisedAtPullChanges sched (subWatcher sub))
  end.

Definition indexed {A} (l : list A) : list (nat * A) := imap (λ i x, (i, x)) l.

(** The context of [this._rootMatchedSet]. *)
Definition rootContext (rootEl : Element) : ElementContext :=
  mkEc rootEl (mkArray 0 [mkPair None 0]).

(** [this._options.watchers.map(({selectors}) => [selectors,
    makeLiveSetTransformer(selectors)])]: the selector lists of all watchers,
    compiled in order; the result is looked up by watcher. *)
Definition compileWatchers (options : PageParserTreeOptions) : Outcome (list LiveSetTransformer) :=
  mapO (λ w, Embedded.makeLiveSetTransformer (selectors w)) (watchers options).

(** [new PageParserTree(root, options)]. The tree is given the tags of
    [collectTags]; its model has no use for them. *)
Definition construct (sched : LiveSetSchedule) (root : Root) (options : PageParserTreeOptions)
  : M unit :=
  rootEl ← match root with
           | RootDocument None => throw Err_missing_documentElement
           | RootDocument (Some e) => mret e
           | RootElement e => mret e
           end;
  let '(tagOptions, tagList) := collectTags options in
  modify (setTagOptions tagOptions) ;;
  modify (setTree (newTagTree rootEl)) ;;
  transformers ← liftO (compileWatchers options);
  modify (setTransformers transformers) ;;
  modify (λ st, setNextArrayId 1 (setRootMatchedSet [rootContext rootEl] st)) ;;
  modify (setEcSources (list_to_map ((λ t : string * option (list string), (t.1, [])) <$> tagList))) ;;
  forEach (wireWatcher sched) (indexed (watchers options)) ;;
  subs ← gets _subscriptions;
  forEach (pullChanges sched options) subs.

Definition newPageParserTree (sched : LiveSetSchedule) (root : Root)
    (options : PageParserTreeOptions) : Outcome unit * PageParserTree :=
  construct sched root options blankInstance.

(** ** The incremental child filter engine *)

(** Modelled from the spec: [watchFilteredChildren] is not part of the
    sources, only its test is. This is the algorithm of spec section 4.4 for
    one root context, driven as in the test: real changes of the child list
    ([appendChild]), synthetic mutation records ([emitMutation]) and the
    delivery of what is pending ([await delay(0)]). *)
Module WatchFilteredChildren.

Inductive NodeType : Type := ELEMENT_NODE | COMMENT_NODE.

Record DomNode : Type := mkDomNode {
  nodeType : NodeType;
  tagName : string;
  className : list string;
}.

Record MutationRecord : Type := mkRecord {
  addedNodes : list nat;
  removedNodes : list nat;
}.

Record Engine : Type := mkEngine {
  root : ElementContext;
  childNodes : list nat;               (* the actual children of the root *)
  members : list nat;                  (* the membership set, oldest first *)
  pending : list MutationRecord;       (* enqueued, not delivered yet *)
  calls : list (list Change);          (* the calls of the subscriber *)
}.

Section Engine.
Variable describe : nat → DomNode.   (* the nodes of the page *)
Variable cond : nat → bool.          (* the predicate on elements *)

Definition isElement (n : nat) : bool :=
  match nodeType (describe n) with ELEMENT_NODE => true | COMMENT_NODE => false end.

Definition contains (l : list nat) (n : nat) : bool := bool_decide (n ∈ l).

Definition wrap (e : Engine) (n : nat) : ElementContext := mkEc n (parents (root e)).

(** Subscription: the membership set is seeded from the actual children;
    the seed is the initial snapshot and produces no notification. *)
Definition subscribe (rootEc : ElementContext) (actual : list nat) : Engine :=
  mkEngine rootEc actual (List.filter (λ n, isElement n && cond n) actual) [] [].

Definition values (e : Engine) : list ElementContext := wrap e <$> members e.

Definition appendChild (n : nat) (e : Engine) : Engine :=
  mkEngine (root e) (List.filter (λ x, negb (x =? n)) (childNodes e) ++ [n])
           (members e) (pending e) (calls e).

Definition emitMutation (r : MutationRecord) (e : Engine) : Engine :=
  mkEngine (root e) (childNodes e) (members e) (pending e ++ [r]) (calls e).

(** The membership set and the notifications queued so far. *)
Definition Work : Type := list nat * list Change.

Definition processAdded (e : Engine) (w : Work) (n : nat) : Work :=
  if isElement n && cond n && negb (contains w.1 n)
  then (w.1 ++ [n], w.2 ++ [ChangeAdd (wrap e n)])
  else w.

Definition processRemoved (e : Engine) (w : Work) (n : nat) : Work :=
  if contains w.1 n then
    if contains (childNodes e) n then w          (* still attached: ignored *)
    else (List.filter (λ x, negb (x =? n)) w.1, w.2 ++ [ChangeRemove (wrap e n)])
  else w.

Definition processRecord (e : Engine) (w : Work) (r : MutationRecord) : Work :=
  fold_left (processRemoved e) (removedNodes r) (fold_left (processAdded e) (addedNodes r) w).

(** Delivery of the pending records: one pass in record order, and one
    call of the subscriber with everything queued. *)
Definition deliver (e : Engine) : Engine :=
  match pending e with
  | [] => e
  | _ =>
      let w := fold_left (processRecord e) (pending e) (members e, []) in
      mkEngine (root e) (childNodes e) w.1 []
               (match w.2 with [] => calls e | batch => calls e ++ [batch] end)
  end.
End Engine.

(** The page of the test 'do not reprocess nodes removed and re-added
    immediately': [div] is node 0 and [divA], [divB], [divC] are 1, 2, 3. *)
Definition testPage (n : nat) : DomNode :=
  match n with
  | 0 => mkDomNode ELEMENT_NODE "div" []
  | 1 => mkDomNode ELEMENT_NODE "div" ["a"]
  | 2 => mkDomNode ELEMENT_NODE "div" ["b"]
  | 3 => mkDomNode ELEMENT_NODE "div" ["c"]
  | _ => mkDomNode COMMENT_NODE EmptyString []
  end%string.

(** [createCssFn('div:not(.ignore)')] *)
Definition divNotIgnore (describe : nat → DomNode) (n : nat) : bool :=
  bool_decide (tagName (describe n) = "div"%string)
  && negb (bool_decide ("ignore"%string ∈ className (describe n))).

Definition testParents : ParentsArray := mkArray 0 [].

(** The steps of the test up to and including [await delay(0)]. *)
Definition reorderScenario : Engine :=
  let cond := divNotIgnore testPage in
  let e0 := subscribe testPage cond (mkEc 0 testParents) [1] in
  let e1 := appendChild 2 e0 in
  let e2 := emitMutation (mkRecord [2; 3] []) e1 in
  let e3 := emitMutation (mkRecord [] [1; 2; 3]) e2 in
  let e4 := emitMutation (mkRecord [1; 2] []) e3 in
  deliver testPage cond e4.

(** The page of the test 'listen': [div] is node 0, [divA] 1, [divIgnoreA] 2,
    [divB] 3, [divIgnoreB] 4 and the comment node 5. *)
Definition listenPage (n : nat) : DomNode :=
  match n with
  | 0 => mkDomNode ELEMENT_NODE "div" []
  | 1 => mkDomNode ELEMENT_NODE "div" ["a"]
  | 2 => mkDomNode ELEMENT_NODE "div" ["aa"; "ignore"]
  | 3 => mkDomNode ELEMENT_NODE "div" ["b"]
  | 4 => mkDomNode ELEMENT_NODE "div" ["bb"; "ignore"]
  | _ => mkDomNode COMMENT_NODE EmptyString []
  end%string.

(** The steps of the test 'listen' up to and including [await delay(0)]. *)
Definition listenScenario : Engine :=
  let cond := divNotIgnore listenPage in
  let e0 := subscribe listenPage cond (mkEc 0 testParents) [1; 2] in
  let e1 := appendChild 3 (appendChild 4 (appendChild 5 e0)) in
  let e2 := emitMutation (mkRecord [5; 4; 3] []) e1 in
  deliver listenPage cond e2.

(** The engines that a subscription followed by any sequence of real child
    insertions, injected records and deliveries can reach. *)
Inductive run (describe : nat → DomNode) (cond : nat → bool) (rootEc : ElementContext)
  : Engine → Prop :=
  | run_subscribe actual : run describe cond rootEc (subscribe describe cond rootEc actual)
  | run_appendChild n e : run describe cond rootEc e → run describe cond rootEc (appendChild n e)
  | run_emitMutation r e : run describe cond rootEc e → run describe cond rootEc (emitMutation r e)
  | run_deliver e : run describe cond rootEc e → run describe cond rootEc (deliver describe cond e).

(** Every queued notification carries the [parents] of the root context. *)
Definition queueShares (e : Engine) (w : Work) : Prop :=
  Forall (λ ch, parents (changeValue ch) = parents (root e)) w.2.

(** So does every notification of every call of the subscriber. *)
Definition callsShare (rootEc : ElementContext) (e : Engine) : Prop :=
  root e = rootEc ∧
  Forall (Forall (λ ch, parents (changeValue ch) = parents rootEc)) (calls e).

End WatchFilteredChildren.

(** ** Notions used in the statements *)

(** The errors of the embedded compiler. *)
Definition compileError (e : Error) : Prop := e = Err_TODO ∨ e = Err_invalid_selector_item.

(** The effective root element, when there is one. *)
Definition hasElement (root : Root) : option Element :=
  match root with
  | RootDocument documentElement => documentElement
  | RootElement e => Some e
  end.

(** The tag is the destination of some watcher. *)
Definition isDestination (options : PageParserTreeOptions) (t : string) : Prop :=
  ∃ w, w ∈ watchers options ∧ wtag w = t.

(** Declared in [options.tags], or the destination tag of a watcher. *)
Definition declared (options : PageParserTreeOptions) (t : string) : Prop :=
  is_Some (tags options !! t) ∨ isDestination options t.

(** A source that [resolveSource] accepts: null, the empty string, or a
    declared tag. *)
Definition resolvable (options : PageParserTreeOptions) (source : option string) : Prop :=
  match source with
  | None => True
  | Some t => t = EmptyString ∨ declared options t
  end.

(** No callback runs and no exception is raised while a watcher is
    subscribed or flushed. *)
Definition quiet (sched : LiveSetSchedule) : Prop :=
  (∀ i, atSubscribe sched i = []) ∧ (∀ i, atPullChanges sched i = []) ∧
  (∀ i, raisedAtSubscribe sched i = None) ∧ (∀ i, raisedAtPullChanges sched i = None).

(** The schedule in which live-set calls nothing back. *)
Definition quietSchedule : LiveSetSchedule :=
  mkSchedule (λ _, []) (λ _, []) (λ _, None) (λ _, None).

(** What the constructor fixes before it wires the watchers. *)
Definition wiringInv (options : PageParserTreeOptions) (ts : list LiveSetTransformer)
    (st : PageParserTree) : Prop :=
  _tagOptions st = (collectTags options).1 ∧
  _watcherLiveSetTransformers st = ts ∧
  (∀ t, is_Some (_ecSources st !! t) ↔ declared options t).

(** The callbacks of a watcher touch the tree, the element maps and the
    array counter only. *)
Definition sameWiring (st st' : PageParserTree) : Prop :=
  _tagOptions st' = _tagOptions st ∧
  _watcherLiveSetTransformers st' = _watcherLiveSetTransformers st ∧
  _ecSources st' = _ecSources st ∧
  _subscriptions st' = _subscriptions st ∧
  loggedErrors st' = loggedErrors st.

(** The watchers with their indices, counted from [k]. *)
Definition indexedFrom {A} (k : nat) (l : list A) : list (nat * A) :=
  imap (λ i x, (k + i, x)) l.

(** The instance when the constructor starts to wire the watchers. *)
Definition setupState (rootEl : Element) (options : PageParserTreeOptions)
    (ts : list LiveSetTransformer) : PageParserTree :=
  setEcSources
    (list_to_map ((λ t : string * option (list string), (t.1, [])) <$> (collectTags options).2))
    (setNextArrayId 1
       (setRootMatchedSet [rootContext rootEl]
          (setTransformers ts
             (setTree (newTagTree rootEl)
                (setTagOptions (collectTags options).1 blankInstance))))).

(** The wiring of the watchers before index [i]. *)
Definition wireEarlier (sched : LiveSetSchedule) (options : PageParserTreeOptions) (i : nat)
  : M unit :=
  forEach (wireWatcher sched) (indexed (take i (watchers options))).

(** An instance on which the constructor stopped before wiring any watcher:
    the tree holds at most its root, and the controller was never called. *)
Definition nothingWired (st : PageParserTree) : Prop :=
  _subscriptions st = [] ∧ elementsToNodes st = ∅ ∧ loggedErrors st = [] ∧
  controllerCalls (theTree st) = [] ∧ nextNodeId (theTree st) ≤ 1.

(** The ownership test of [findParentNode] on one entry of [parents]. *)
Definition qualifies (ownedBy : gset string) (p : NodeTagPair) : bool :=
  match tag p with
  | None => true
  | Some t => bool_decide (t ∈ ownedBy)
  end.

(** The scan as the description has it: the first qualifying entry, going
    from the innermost (last) entry outwards. *)
Definition nearestQualifying (ownedBy : gset string) (taggedParents : list NodeTagPair)
  : option NodeTagPair :=
  List.find (qualifies ownedBy) (reverse taggedParents).

(** [a] owns [m] through a chain of ownership edges (of any length). *)
Inductive ownsTransitively (nodes : gmap nat TagTreeNode) (a : NodeId) : NodeId → Prop :=
  | owns_here : ownsTransitively nodes a a
  | owns_below (m c : NodeId) :
      ownsTransitively nodes a m → c ∈ ownedOf nodes m → ownsTransitively nodes a c.

(** Ownership only shrinks from [ns] to [ns']. *)
Definition shrinks (ns ns' : gmap nat TagTreeNode) : Prop :=
  ∀ m c, c ∈ ownedOf ns' m → c ∈ ownedOf ns m.

(** Every edge of [ns0] that is gone in [ns] leads to a node that owns
    nothing in [ns]. *)
Definition released (ns0 ns : gmap nat TagTreeNode) : Prop :=
  ∀ m c, c ∈ ownedOf ns0 m → c ∉ ownedOf ns m → ownedOf ns c = [].

(** What one call of [detachNode] guarantees, [ns0] being the tree before
    the outermost call. *)
Definition detachPost (ns0 ns : gmap nat TagTreeNode) (p n : NodeId)
    (ns' : gmap nat TagTreeNode) : Prop :=
  shrinks ns0 ns' ∧ released ns0 ns' ∧ shrinks ns ns' ∧
  ownedOf ns' n = [] ∧ n ∉ ownedOf ns' p.

(** Detaching changes ownership only: the nodes of the heap, their values,
    tags and parents stay. *)
Definition sameFrame (ns ns' : gmap nat TagTreeNode) : Prop :=
  ∀ m, setOwned [] <$> ns' !! m = setOwned [] <$> ns !! m.

(** The tree as the controller builds it: nodes are numbered as they are
    created, and a node is created after the node that owns it. *)
Definition wfTree (t : TagTree) : Prop :=
  (∀ m, is_Some (treeNodes t !! m) → m < nextNodeId t) ∧
  (∀ m c, c ∈ ownedOf (treeNodes t) m → m < c ∧ c < nextNodeId t).

(** [elementsToNodes.delete(el)] in the map of watcher [w]. *)
Definition forget (w : nat) (e : Element) (st : PageParserTree) : PageParserTree :=
  setElementsToNodes (<[w := delete e (e2n st w)]> (elementsToNodes st)) st.

(** Every context that the transformer puts out carries the [parents] array
    (the same array, with the same identity) of a context of its input. *)
Definition sharesParents (t : LiveSetTransformer) : Prop :=
  ∀ page input out, out ∈ t page input → ∃ ec, ec ∈ input ∧ parents out = parents ec.

(** The contexts of the source sets of a watcher: the root context, and the
    contexts that [placeElement] returned for a context that the compiled
    pipeline of some watcher put out on source contexts. *)
Inductive sourceContext (rootEl : Element) : ElementContext → Prop :=
  | source_root : sourceContext rootEl (rootContext rootEl)
  | source_placed selectors t page input ec w tg ownedBy st ec' st' :
      Embedded.makeLiveSetTransformer selectors = Returned t →
      (∀ x, x ∈ input → sourceContext rootEl x) →
      ec ∈ t page input →
      placeElement w tg ownedBy ec st = (Returned ec', st') →
      sourceContext rootEl ec'.

(** The contexts that reach the node-placement step. *)
Definition reachesPlacement (rootEl : Element) (ec : ElementContext) : Prop :=
  ∃ selectors t page input,
    Embedded.makeLiveSetTransformer selectors = Returned t ∧
    (∀ x, x ∈ input → sourceContext rootEl x) ∧
    ec ∈ t page input.

(** The [parents] of the context start with the root pair. *)
Definition rooted (ec : ElementContext) : Prop :=
  ∃ rest, items (parents ec) = mkPair None 0 :: rest.

(** ** A small page and a small tree *)

(** A page whose root element 0 has the children 1 and 2, all matching any
    selector string. *)
Definition demoPage : Page :=
  mkPage (λ e, match e with 0 => [1; 2] | _ => [] end) (λ _ _, true).

(** The instance after [new TagTree] and the seeding of the root set. *)
Definition demoState0 : PageParserTree :=
  setNextArrayId 1 (setTree (newTagTree 0) blankInstance).

(** Watcher 0, with destination "a", has placed element 1 below the root. *)
Definition demoState1 : PageParserTree :=
  (placeElement 0 "a" ∅ (mkEc 1 (parents (rootContext 0))) demoState0).2.

Definition demoParents1 : ParentsArray :=
  mkArray 1 [mkPair None 0; mkPair (Some "a"%string) 1].

(** Watcher 1, with destination "b" owned by "a", has placed element 2 below
    the node of element 1. *)
Definition demoState2 : PageParserTree :=
  (placeElement 1 "b" {["a"%string]} (mkEc 2 demoParents1) demoState1).2.

Definition demoWatchSelectors : list Selector :=
  [SelString "div"; SelOr [[SelFilter (λ _, true)]; [SelOr [[SelWatch ["x"%string] (CondCss "y")]]]]].

Definition demoWatchOptions : PageParserTreeOptions :=
  mkOptions ∅ [mkWatcher [None] "a" demoWatchSelectors].

Definition demoUnknownOptions : PageParserTreeOptions :=
  mkOptions ∅ [mkWatcher [None] "a" [SelString "div"];
               mkWatcher [Some "a"%string; Some "nope"%string] "b" []].

(** A schedule in which live-set maps element 1, found below the root, while
    watcher 0 is subscribed. *)
Definition mappingSchedule : LiveSetSchedule :=
  mkSchedule (λ i, match i with 0 => [mkEc 1 (parents (rootContext 0))] | _ => [] end)
             (λ _, []) (λ _, None) (λ _, None).

(** Schedules in which the matcher raises on the selector string ["["] while
    the output set of watcher 0 is subscribed, or while its subscription is
    flushed. *)
Definition raisingAtSubscribe : LiveSetSchedule :=
  mkSchedule (λ _, []) (λ _, [])
             (λ i, match i with 0 => Some (CallMatchesSelector "[") | _ => None end)
             (λ _, None).

Definition raisingAtPullChanges : LiveSetSchedule :=
  mkSchedule (λ _, []) (λ _, []) (λ _, None)
             (λ i, match i with 0 => Some (CallMatchesSelector "[") | _ => None end).

Definition demoBadCssOptions : PageParserTreeOptions :=
  mkOptions ∅ [mkWatcher [None] "a" [SelString "["]].

(** ** Notions used in the further properties *)

(** An item that neither compiler accepts: [{$log: ''}], whose key is falsy,
    or an object with none of the known keys; at the top level or in a
    branch of an [$or] at any depth. *)
Fixpoint itemIsInvalid (item : Selector) : bool :=
  match item with
  | SelLog prefix => bool_decide (prefix = EmptyString)
  | SelOther => true
  | SelOr branches => existsb (existsb itemIsInvalid) branches
  | _ => false
  end.

Definition hasInvalid (selectors : list Selector) : bool := existsb itemIsInvalid selectors.

(** The items compiled to [liveSetFilter]: [$filter], and [$log] with a
    prefix that is not empty. *)
Definition isFilterItem (item : Selector) : bool :=
  match item with
  | SelFilter _ => true
  | SelLog prefix => negb (bool_decide (prefix = EmptyString))
  | _ => false
  end.

(** The test that such an item applies to a context: the predicate of
    [$filter] on the element; [$log] returns true. *)
Definition filterTest (item : Selector) (ec : ElementContext) : bool :=
  match item with
  | SelFilter fn => fn (el ec)
  | _ => true
  end.

(** Does the selector list hold a [$map] operator, at any depth? *)
Fixpoint itemHasMap (item : Selector) : bool :=
  match item with
  | SelMap _ => true
  | SelOr branches => existsb (existsb itemHasMap) branches
  | _ => false
  end.

Definition hasMap (selectors : list Selector) : bool := existsb itemHasMap selectors.

(** [d] is [a] itself or an element below it in the page. *)
Inductive descendsFrom (page : Page) (a : Element) : Element → Prop :=
  | descends_self : descendsFrom page a a
  | descends_child (d c : Element) :
      descendsFrom page a d → c ∈ children page d → descendsFrom page a c.

(** Every context that the transformer puts out holds an element at or below
    the element of a context of its input, with the [parents] of that
    context. *)
Definition staysBelow (t : LiveSetTransformer) : Prop :=
  ∀ page input out, out ∈ t page input →
    ∃ ec, ec ∈ input ∧ descendsFrom page (el ec) (el out) ∧ parents out = parents ec.

(** A transformer that puts out nothing when its input is empty. *)
Definition emptyOnEmpty (t : LiveSetTransformer) : Prop := ∀ page, t page [] = [].

(** A selector list with an empty [$or] between a child step and a filter. *)
Definition demoEmptyOr : list Selector :=
  [SelString "div"] ++ SelOr [] :: [SelFilter (λ _, true)].

(** A selector list with an [$or] of one branch. *)
Definition demoSingleOr : list Selector :=
  [SelString "div"] ++ SelOr [[SelFilter (λ e, e =? 1)]] :: [SelLog "seen"].

(** No watcher draws on its own destination, directly or through other
    watchers: the tags can be ranked so that every source tag of a watcher
    ranks below its destination. What live-set does with a set that is fed
    from itself is not modelled; a statement that the constructor returns is
    made for such options only. *)
Definition acyclic (options : PageParserTreeOptions) : Prop :=
  ∃ rank : string → nat,
    ∀ w t, w ∈ watchers options → Some t ∈ sources w → t ≠ EmptyString →
           rank t < rank (wtag w).

(** The set that a source of a watcher names: a falsy source (null, or the
    empty string) names the root set. *)
Definition sourceSetOf (source : option string) : SourceSet :=
  match source with
  | None => RootMatchedSet
  | Some t => if bool_decide (t = EmptyString) then RootMatchedSet else EcSet t
  end.

(** The subscription that the constructor keeps for a watcher. *)
Definition subscriptionOf (iw : nat * Watcher) : Subscription :=
  mkSubscription iw.1 (sourceSetOf <$> sources iw.2).

(** The indices of the watchers whose destination is [t]. *)
Definition outputsOf (ws : list (nat * Watcher)) (t : string) : list nat :=
  fst <$> List.filter (λ iw : nat * Watcher, bool_decide (wtag iw.2 = t)) ws.

(** The instance after the body of the loop over the watchers ran for the
    watcher at index [i] without a callback of live-set. *)
Definition wiredState (i : nat) (w : Watcher) (outputs : list nat) (st : PageParserTree)
  : PageParserTree :=
  setEcSources (<[wtag w := outputs ++ [i]]> (_ecSources st))
    (setSubscriptions (_subscriptions st ++ [subscriptionOf (i, w)])
       (setElementsToNodes (<[i := ∅]> (elementsToNodes st)) st)).

(** The instance on which the constructor stops when a selector list does
    not compile: the tag options are stored and the tree is created. *)
Definition compileFailedState (rootEl : Element) (options : PageParserTreeOptions)
  : PageParserTree :=
  setTree (newTagTree rootEl) (setTagOptions (collectTags options).1 blankInstance).

(** The element maps agree with the tree: the tree is numbered by creation,
    and every element that a watcher tracks is mapped to a node of the tree
    that holds this element and was created under a parent. *)
Definition tracked (st : PageParserTree) : Prop :=
  wfTree (theTree st) ∧
  ∀ w e n, e2n st w !! e = Some n →
    ∃ nd, treeNodes (theTree st) !! n = Some nd ∧ nodeValue nd = e ∧ is_Some (nodeParent nd).

(** The [parents] of the context are the root pair followed by pairs that
    all carry a tag. *)
Definition taggedBelowRoot (ec : ElementContext) : Prop :=
  ∃ rest, items (parents ec) = mkPair None 0 :: rest ∧ Forall (λ p, is_Some (tag p)) rest.

Definition isAdd (c : Change) : bool :=
  match c with ChangeAdd _ => true | ChangeRemove _ => false end.

(** Two watchers in a chain: "a" on the children of the root, "b" on the
    elements of "a" and, through an empty-string source, on the root. *)
Definition demoChainOptions : PageParserTreeOptions :=
  mkOptions {[ "b"%string := mkTagOptions (Some ["a"%string]) ]}
    [mkWatcher [None] "a" [SelString "div"];
     mkWatcher [Some "a"%string; Some EmptyString] "b" []].

(** The transformer treats every context of its input on its own: what it
    puts out for a set is, up to the order, what it puts out for each of the
    contexts alone. *)
Definition contextwise (t : LiveSetTransformer) : Prop :=
  ∀ page input, t page input ≡ₚ List.flat_map (λ ec, t page [ec]) input.

(** Live-set hands the context to a map callback at some point of the
    construction. *)
Definition delivers (sched : LiveSetSchedule) (ec : ElementContext) : Prop :=
  ∃ i, ec ∈ atSubscribe sched i ∨ MapCall ec ∈ atPullChanges sched i.

(** Live-set meets an exception of this call into the code of a pipeline at
    some point of the construction. *)
Definition raises (sched : LiveSetSchedule) (call : PipelineCall) : Prop :=
  ∃ i, raisedAtSubscribe sched i = Some call ∨ raisedAtPullChanges sched i = Some call.

(** The errors that the constructor can throw. *)
Definition constructorError (sched : LiveSetSchedule) (options : PageParserTreeOptions)
    (e : Error) : Prop :=
  e = Err_missing_documentElement ∨
  compileError e ∨
  (∃ w t, w ∈ watchers options ∧ Some t ∈ sources w ∧ t ≠ EmptyString ∧
          ¬ declared options t ∧ e = Err_unknown_source t) ∨
  e = Err_received_element_twice ∨
  e = Err_removal_of_unseen_element ∨
  (e = Err_blank ∧ ∃ ec, delivers sched ec ∧ ¬ rooted ec) ∨
  (∃ call, e = Err_raised_by call ∧ raises sched call).

(** The parent that [findParentNode] returns for a context whose [parents]
    start with the root pair. *)
Definition parentOf (ownedBy : gset string) (ec : ElementContext) : NodeId :=
  default 0 (node <$> nearestQualifying ownedBy (items (parents ec))).

(** The steps of the reorder test for any page, predicate, root context and
    nodes: the root has the children [actual] at subscription, [B] is
    appended for real, the records added [B, C], removed [A, B, C] and added
    [A, B] are injected, and what is pending is delivered. *)
Definition reorderRun (describe : nat → WatchFilteredChildren.DomNode) (cond : nat → bool)
    (rootEc : ElementContext) (actual : list nat) (A B C : nat)
  : WatchFilteredChildren.Engine :=
  let e0 := WatchFilteredChildren.subscribe describe cond rootEc actual in
  let e1 := WatchFilteredChildren.appendChild B e0 in
  let e2 := WatchFilteredChildren.emitMutation (WatchFilteredChildren.mkRecord [B; C] []) e1 in
  let e3 := WatchFilteredChildren.emitMutation (WatchFilteredChildren.mkRecord [] [A; B; C]) e2 in
  let e4 := WatchFilteredChildren.emitMutation (WatchFilteredChildren.mkRecord [A; B] []) e3 in
  WatchFilteredChildren.deliver describe cond e4.

(** An element that satisfies the predicate. *)
Definition matched (describe : nat → WatchFilteredChildren.DomNode) (cond : nat → bool)
    (n : nat) : bool :=
  WatchFilteredChildren.isElement describe n && cond n.

(** A [Set] of objects: every identity once. *)
Definition isSet (l : list ContextObject) : Prop := NoDup (objectId <$> l).

(** The objects were made before [next] was the next free identity. *)
Definition madeBefore (next : ObjectId) (l : list ContextObject) : Prop :=
  ∀ o, o ∈ l → objectId o < next.

(** The pipeline on objects and the pipeline on contexts go together: on a
    set of objects made before, the one on objects makes new objects only,
    puts out a set whose objects are objects of its input or new, and the
    contexts of these objects are the contexts that the other puts out. *)
Definition realises (T : ObjectTransformer) (t : LiveSetTransformer) : Prop :=
  contextwise t ∧
  ∀ page l n, isSet l → madeBefore n l →
    let r := T page l n in
    n ≤ r.2 ∧ isSet r.1 ∧ madeBefore r.2 r.1 ∧
    (∀ o, o ∈ r.1 → o ∈ l ∨ n ≤ objectId o) ∧
    (∀ c, c ∈ context <$> r.1 ↔ c ∈ t page (context <$> l)).

(** No two objects of the list have the same identity. *)
Definition oneById (l : list ContextObject) : Prop :=
  ∀ o1 o2, o1 ∈ l → o2 ∈ l → objectId o1 = objectId o2 → o1 = o2.

(** What a [flatMap] callback on objects has to do with one on contexts. *)
Definition realisesEach (F : Page → ContextObject → Alloc (list ContextObject))
    (f : Page → ElementContext → list ElementContext) : Prop :=
  ∀ page o n,
    let r := F page o n in
    n ≤ r.2 ∧ isSet r.1 ∧
    (∀ o', o' ∈ r.1 → o' = o ∨ n ≤ objectId o' < r.2) ∧
    context <$> r.1 = f page (context o).

(** Two compilations go together: both throw the same error, or what they
    return does. *)
Definition together {A B} (R : A → B → Prop) (a : Outcome A) (b : Outcome B) : Prop :=
  match a, b with
  | Returned x, Returned y => R x y
  | Thrown e, Thrown e' => e = e'
  | _, _ => False
  end.

(** One object whose element passes both filters of an [$or]. *)
Definition demoPassTwice : list Selector :=
  [SelOr [[SelFilter (λ e, e =? 1)]; [SelFilter (λ e, 0 <? e)]]].

Definition demoObject : ContextObject := mkObject 0 (mkEc 1 (mkArray 0 [mkPair None 0])).

(** Two branches that each descend to the children. *)
Definition demoChildrenTwice : list Selector :=
  [SelOr [[SelString "div"]; [SelString "div"]]].

(** * Properties *)

Ltac msimpl := unfold mbind, M_bind, mret, M_ret, gets, modify, throw, liftO; simpl.

(** ** Traversals that may throw *)

Lemma mapO_thrown_inv {A B} (f : A → Outcome B) (l : list A) (e : Error) :
  mapO f l = Thrown e → ∃ x, x ∈ l ∧ f x = Thrown e.
Proof.
  induction l as [|x l IH]; simpl; [discriminate|].
  destruct (f x) as [y|e'] eqn:Hx; simpl.
  - destruct (mapO f l) as [ys|e''] eqn:Hl; simpl; [discriminate|].
    intros [= ->]. destruct IH as (x' & Hin & Hx'); [done|].
    exists x'. split; [by right|done].
  - intros [= ->]. exists x. split; [by left|done].
Qed.

Lemma mapO_thrown_elem {A B} (f : A → Outcome B) (l : list A) (x : A) :
  x ∈ l → is_thrown (f x) = true → is_thrown (mapO f l) = true.
Proof.
  induction 1 as [x l|x y l Hin IH]; simpl; intros Hx.
  - destruct (f x); [discriminate|done].
  - destruct (f y); simpl; [|done].
    specialize (IH Hx). destruct (mapO f l); [discriminate|done].
Qed.

Lemma mapO_returned_Forall2 {A B} (f : A → Outcome B) (l : list A) (ys : list B) :
  mapO f l = Returned ys → Forall2 (λ x y, f x = Returned y) l ys.
Proof.
  revert ys. induction l as [|x l IH]; simpl; intros ys.
  - intros [= <-]. constructor.
  - destruct (f x) as [y|] eqn:Hx; simpl; [|discriminate].
    destruct (mapO f l) as [ys'|]; simpl; [|discriminate].
    intros [= <-]. constructor; [done|by apply IH].
Qed.

Lemma is_thrown_true {A} (o : Outcome A) : is_thrown o = true → ∃ e, o = Thrown e.
Proof. destruct o; [discriminate|eauto]. Qed.

(** ** The embedded compiler and [$watch] *)

Lemma Embedded_compileItem_error (item : Selector) (e : Error) :
  Embedded.compileItem item = Thrown e → compileError e.
Proof.
  revert e. induction item as [s|f|f|a c|branches IH|s|] using Selector_ind;
    simpl; intros e; try discriminate.
  - intros [= <-]. by left.
  - destruct (mapO _ branches) as [ts|e'] eqn:Hb; simpl; [discriminate|].
    intros [= ->]. apply mapO_thrown_inv in Hb as (b & Hin & Hb).
    rewrite Forall_forall in IH. specialize (IH b Hin). unfold makeWith in Hb.
    destruct (mapO Embedded.compileItem b) as [ts|e'] eqn:Hl; simpl in Hb; [discriminate|].
    injection Hb as ->. apply mapO_thrown_inv in Hl as (i & Hi & Hl).
    rewrite Forall_forall in IH. by apply (IH i Hi).
  - case_bool_decide; [|discriminate]. intros [= <-]. by right.
  - intros [= <-]. by right.
Qed.

Lemma Embedded_compileItem_watch (item : Selector) :
  itemHasWatch item = true → is_thrown (Embedded.compileItem item) = true.
Proof.
  induction item as [s|f|f|a c|branches IH|s|] using Selector_ind;
    simpl; try discriminate; [done|].
  intros Hex. apply existsb_exists in Hex as (b & Hin & Hex).
  apply existsb_exists in Hex as (i & Hi & Hw).
  apply list_elem_of_In in Hin, Hi.
  rewrite Forall_forall in IH. specialize (IH b Hin).
  rewrite Forall_forall in IH. specialize (IH i Hi Hw).
  assert (Hb : is_thrown (mapO Embedded.compileItem b) = true)
    by (by eapply mapO_thrown_elem).
  match goal with |- is_thrown (obind (mapO ?f branches) _) = true =>
    assert (Hbs : is_thrown (mapO f branches) = true) end.
  { eapply mapO_thrown_elem; [exact Hin|]. unfold makeWith.
    destruct (mapO Embedded.compileItem b); [discriminate|done]. }
  destruct (mapO _ branches); [discriminate|done].
Qed.

Lemma Embedded_makeLiveSetTransformer_watch (selectors : list Selector) :
  hasWatch selectors = true →
  ∃ e, Embedded.makeLiveSetTransformer selectors = Thrown e ∧ compileError e.
Proof.
  intros Hex. apply existsb_exists in Hex as (i & Hi & Hw).
  apply list_elem_of_In in Hi.
  pose proof (mapO_thrown_elem Embedded.compileItem selectors i Hi
                (Embedded_compileItem_watch i Hw)) as Ht.
  apply is_thrown_true in Ht as [e He].
  exists e. unfold Embedded.makeLiveSetTransformer, makeWith. rewrite He. split; [done|].
  apply mapO_thrown_inv in He as (x & _ & Hx). by eapply Embedded_compileItem_error.
Qed.

(** C1. A watcher whose selector list holds a [$watch] operator, at the top
    level or inside an [$or] branch at any depth, makes the constructor
    throw: the embedded compiler throws 'TODO' on every [$watch] item, every
    watcher's list goes through it before any watcher is wired, and the only
    errors that can come earlier are the missing document element and an
    invalid selector item. The standalone compiler compiles the same
    operator. *)
Theorem C1_watch_makes_construction_throw
    (sched : LiveSetSchedule) (root : Root) (options : PageParserTreeOptions)
    (watcher : Watcher) :
  watcher ∈ watchers options →
  hasWatch (selectors watcher) = true →
  (∀ a c, Embedded.compileItem (SelWatch a c) = Thrown Err_TODO) ∧
  (∃ e, Embedded.makeLiveSetTransformer (selectors watcher) = Thrown e ∧ compileError e) ∧
  (∃ e st, newPageParserTree sched root options = (Thrown e, st) ∧
           (e = Err_missing_documentElement ∨ compileError e) ∧ nothingWired st) ∧
  (∀ a c, is_thrown (Standalone.makeLiveSetTransformerFromSelectors [SelWatch a c]) = false).
Proof.
  intros Hin Hw.
  destruct (Embedded_makeLiveSetTransformer_watch _ Hw) as (e & He & Hce).
  split; [done|]. split; [by exists e|]. split; [|done].
  assert (Hall : ∃ e', mapO (λ w, Embedded.makeLiveSetTransformer (selectors w))
                            (watchers options) = Thrown e' ∧ compileError e').
  { pose proof (mapO_thrown_elem (λ w, Embedded.makeLiveSetTransformer (selectors w))
                  (watchers options) watcher Hin) as Ht.
    simpl in Ht. rewrite He in Ht. specialize (Ht eq_refl).
    apply is_thrown_true in Ht as [e' He']. exists e'. split; [done|].
    apply mapO_thrown_inv in He' as (w' & _ & Hw').
    unfold Embedded.makeLiveSetTransformer, makeWith in Hw'.
    destruct (mapO Embedded.compileItem (selectors w')) eqn:Hl; simpl in Hw'; [discriminate|].
    injection Hw' as ->. apply mapO_thrown_inv in Hl as (x & _ & Hx).
    by eapply Embedded_compileItem_error. }
  destruct Hall as (e' & He' & Hce').
  unfold newPageParserTree, construct, compileWatchers.
  destruct root as [[rootEl|]|rootEl]; simpl.
  2: { eexists _, _. split; [reflexivity|]. split; [by left|].
       repeat split; simpl; lia. }
  all: destruct (collectTags options) as [tagOptions tagList]; simpl;
    unfold mbind, M_bind, modify, liftO; simpl; rewrite He'; simpl;
    eexists _, _; (split; [reflexivity|]); (split; [by right|]);
    repeat split; simpl; lia.
Qed.

(** ** Placing a newly matched element *)

Lemma findParentNode_loop_find (ownedBy : gset string) (ps : list NodeTagPair) (k : nat) :
  k ≤ length ps →
  findParentNode_loop ownedBy ps k = node <$> List.find (qualifies ownedBy) (reverse (take k ps)).
Proof.
  induction k as [|i IH]; intros Hk; simpl; [done|].
  destruct (lookup_lt_is_Some_2 ps i) as [p Hp]; [lia|].
  rewrite Hp, (take_S_r _ _ _ Hp), reverse_snoc. simpl.
  unfold qualifies at 1.
  destruct (match tag p with None => true | Some t => bool_decide (t ∈ ownedBy) end);
    [done|]. apply IH. lia.
Qed.

Lemma findParentNode_nearest (ownedBy : gset string) (ps : list NodeTagPair) :
  findParentNode ownedBy ps =
  match nearestQualifying ownedBy ps with
  | Some p => Returned (node p)
  | None => Thrown Err_blank
  end.
Proof.
  unfold findParentNode, nearestQualifying.
  rewrite findParentNode_loop_find, firstn_all by done.
  by destruct (List.find _ _).
Qed.

Lemma findParentNode_error ownedBy ps e :
  findParentNode ownedBy ps = Thrown e → e = Err_blank.
Proof. unfold findParentNode. destruct (findParentNode_loop _ _ _); congruence. Qed.

(** What [placeElement] does once the parent node is found. *)
Lemma placeElement_found (w : nat) (tg : string) (ownedBy : gset string)
    (ec : ElementContext) (st : PageParserTree) (p : NodeId) :
  findParentNode ownedBy (items (parents ec)) = Returned p →
  let n := nextNodeId (theTree st) in
  let t' := (tree_addTaggedValue p tg (el ec) (theTree st)).2 in
  placeElement w tg ownedBy ec st =
  if bool_decide (is_Some (e2n st w !! el ec))
  then (Thrown Err_received_element_twice, setTree t' st)
  else (Returned (mkEc (el ec) (mkArray (nextArrayId st)
                                   (items (parents ec) ++ [mkPair (Some tg) n]))),
        setNextArrayId (S (nextArrayId st))
          (setElementsToNodes (<[w := <[el ec := n]> (e2n st w)]> (elementsToNodes st))
             (setTree t' st))).
Proof.
  intros Hp n t'. unfold placeElement, mbind, M_bind, liftO. rewrite Hp.
  unfold addTaggedValue, gets, throw, modify, concatParents, mret, M_ret. simpl.
  replace (e2n (setTree _ st) w) with (e2n st w) by done.
  by case_bool_decide.
Qed.

Lemma placeElement_not_found (w : nat) (tg : string) (ownedBy : gset string)
    (ec : ElementContext) (st : PageParserTree) :
  findParentNode ownedBy (items (parents ec)) = Thrown Err_blank →
  placeElement w tg ownedBy ec st = (Thrown Err_blank, st).
Proof. intros Hp. unfold placeElement, mbind, M_bind, liftO. by rewrite Hp. Qed.


Lemma mapM_cons {A B} (f : A → M B) x l :
  mapM f (x :: l) = (f x ≫= λ y, mapM f l ≫= λ ys, mret (y :: ys)).
Proof. done. Qed.

Lemma forEach_cons {A} (f : A → M unit) x l :
  forEach f (x :: l) = (f x ≫= λ _, forEach f l).
Proof. done. Qed.

(** What the duplicate check of [placeElement] leaves behind. *)
Lemma placeElement_duplicate (w : nat) (tg : string) (ownedBy : gset string)
    (ec : ElementContext) (st : PageParserTree) (n0 p : NodeId) :
  e2n st w !! el ec = Some n0 →
  findParentNode ownedBy (items (parents ec)) = Returned p →
  placeElement w tg ownedBy ec st =
  (Thrown Err_received_element_twice,
   setTree (tree_addTaggedValue p tg (el ec) (theTree st)).2 st).
Proof.
  intros He Hp. rewrite (placeElement_found _ _ _ _ _ _ Hp).
  rewrite bool_decide_true; [done|]. by rewrite He.
Qed.

(** [placeElement] throws 'received element twice' exactly when a parent node
    is found and the watcher's own map already holds the element. *)
Lemma placeElement_twice_inv (w : nat) (tg : string) (ownedBy : gset string)
    (ec : ElementContext) (st st' : PageParserTree) :
  placeElement w tg ownedBy ec st = (Thrown Err_received_element_twice, st') →
  ∃ p n0, findParentNode ownedBy (items (parents ec)) = Returned p ∧
          e2n st w !! el ec = Some n0.
Proof.
  intros Hp. destruct (findParentNode ownedBy (items (parents ec))) as [p|e] eqn:Hf.
  - rewrite (placeElement_found _ _ _ _ _ _ Hf) in Hp.
    case_bool_decide as Hd; [|discriminate]. destruct Hd as [n0 Hn0]. by exists p, n0.
  - unfold placeElement, mbind, M_bind, liftO in Hp. rewrite Hf in Hp.
    injection Hp as -> _. by apply findParentNode_error in Hf.
Qed.

(** C9. The duplicate check runs after [addTaggedValue]: when 'received
    element twice' is thrown, the controller has been called and the tree
    holds a new node for the element under the tag, while the watcher's
    element-to-node map is as before and still holds the first node. *)
Theorem C9_duplicate_error_after_tree_mutation
    (w : nat) (tg : string) (ownedBy : gset string) (ec : ElementContext)
    (st st' : PageParserTree) :
  placeElement w tg ownedBy ec st = (Thrown Err_received_element_twice, st') →
  let n := nextNodeId (theTree st) in
  ∃ p n0,
    findParentNode ownedBy (items (parents ec)) = Returned p ∧
    e2n st w !! el ec = Some n0 ∧
    controllerCalls (theTree st') =
      controllerCalls (theTree st) ++ [AddTaggedValue p tg (el ec)] ∧
    treeNodes (theTree st') !! n = Some (mkNode (el ec) (Some tg) (Some p) []) ∧
    nextNodeId (theTree st') = S n ∧
    theTree st' ≠ theTree st ∧
    elementsToNodes st' = elementsToNodes st ∧
    e2n st' w !! el ec = Some n0.
Proof.
  intros Hthrown n.
  destruct (placeElement_twice_inv _ _ _ _ _ _ Hthrown) as (p & n0 & Hp & He).
  exists p, n0. split; [done|]. split; [done|].
  rewrite (placeElement_duplicate _ _ _ _ _ _ _ He Hp) in Hthrown.
  injection Hthrown as <-.
  simpl. split; [done|]. split; [by rewrite lookup_insert_eq|]. split; [done|].
  split; [|done]. intros Heq. apply (f_equal nextNodeId) in Heq. simpl in Heq.
  fold n in Heq. lia.
Qed.

(** ** Cascading removal in the tag tree *)

Lemma shrinks_refl ns : shrinks ns ns.
Proof. by intros m c. Qed.

Lemma shrinks_trans ns1 ns2 ns3 : shrinks ns1 ns2 → shrinks ns2 ns3 → shrinks ns1 ns3.
Proof. intros H12 H23 m c Hc. by apply H12, H23. Qed.

Lemma shrinks_nil ns ns' m : shrinks ns ns' → ownedOf ns m = [] → ownedOf ns' m = [].
Proof.
  intros Hs Hm. destruct (ownedOf ns' m) as [|c l] eqn:Ho; [done|].
  specialize (Hs m c). rewrite Ho, Hm in Hs.
  exfalso. eapply not_elem_of_nil, Hs. by left.
Qed.

Lemma ownedOf_alter_remove ns p n m :
  ownedOf (alter (removeOwnedNode n) p ns) m =
  if decide (p = m) then List.filter (λ x, negb (x =? n)) (ownedOf ns m) else ownedOf ns m.
Proof.
  unfold ownedOf. rewrite lookup_alter. case_decide as Hpm; [|done].
  subst m. by destruct (ns !! p).
Qed.

Lemma elem_of_filter_neq (l : list nat) (n c : nat) :
  c ∈ List.filter (λ x, negb (x =? n)) l ↔ c ∈ l ∧ c ≠ n.
Proof.
  rewrite !list_elem_of_In, filter_In, negb_true_iff, Nat.eqb_neq. tauto.
Qed.

Lemma shrinks_alter_remove ns p n : shrinks ns (alter (removeOwnedNode n) p ns).
Proof.
  intros m c. rewrite ownedOf_alter_remove. case_decide; [|done].
  rewrite elem_of_filter_neq. tauto.
Qed.

Section Detach.
Variable ns0 : gmap nat TagTreeNode.

Lemma detachOwned_spec detach n :
  (∀ ns c ns', shrinks ns0 ns → released ns0 ns →
               detach ns n c = Some ns' → detachPost ns0 ns n c ns') →
  ∀ l acc0 acc, shrinks ns0 acc0 → released ns0 acc0 →
    detachOwned detach n l acc0 = Some acc →
    shrinks ns0 acc ∧ released ns0 acc ∧ shrinks acc0 acc ∧
    ∀ c, c ∈ l → c ∉ ownedOf acc n.
Proof.
  intros Hdetach. induction l as [|c l IH]; simpl; intros acc0 acc Hs Hr.
  - intros [= <-]. split; [done|]. split; [done|]. split; [apply shrinks_refl|].
    intros c Hc. by apply elem_of_nil in Hc.
  - destruct (detach acc0 n c) as [acc1|] eqn:Hd; [|discriminate]. intros Hl.
    destruct (Hdetach _ _ _ Hs Hr Hd) as (Hs1 & Hr1 & Hs01 & _ & Hc1).
    destruct (IH _ _ Hs1 Hr1 Hl) as (Hs2 & Hr2 & Hs12 & Hl2).
    split; [done|]. split; [done|]. split; [by eapply shrinks_trans|].
    intros c' Hc'. apply elem_of_cons in Hc' as [->|Hc']; [|by apply Hl2].
    intros Hin. by apply Hc1, Hs12.
Qed.

Lemma detachNode_spec fuel :
  ∀ ns p n ns', shrinks ns0 ns → released ns0 ns →
    detachNode fuel ns p n = Some ns' → detachPost ns0 ns p n ns'.
Proof.
  induction fuel as [|fuel IH]; simpl; intros ns p n ns' Hs Hr; [discriminate|].
  destruct (detachOwned _ n (ownedOf ns n) ns) as [acc|] eqn:Hl; [|discriminate].
  intros [= <-].
  destruct (detachOwned_spec _ n (λ ns c ns', IH ns n c ns') _ _ _ Hs Hr Hl)
    as (Hs1 & Hr1 & Hs01 & Hkids).
  assert (Hn : ownedOf acc n = []).
  { destruct (ownedOf acc n) as [|c l] eqn:Ho; [done|]. exfalso.
    assert (Hc : c ∈ ownedOf acc n) by (rewrite Ho; by left).
    apply (Hkids c (Hs01 _ _ Hc)). by left. }
  pose proof (shrinks_alter_remove acc p n) as Hsa.
  split; [by eapply shrinks_trans|]. split; [|split; [by eapply shrinks_trans|]].
  - intros m c Hc0 Hc. destruct (decide (c ∈ ownedOf acc m)) as [Hin|Hnin].
    + rewrite ownedOf_alter_remove in Hc. case_decide as Hpm; [|done].
      rewrite elem_of_filter_neq in Hc.
      assert (c = n) as -> by (destruct (decide (c = n)); [done|tauto]).
      by eapply shrinks_nil.
    + eapply shrinks_nil; [exact Hsa|]. by eapply Hr1.
  - split; [by eapply shrinks_nil|].
    rewrite ownedOf_alter_remove. case_decide; [|].
    + rewrite elem_of_filter_neq. tauto.
    + done.
Qed.
End Detach.

Lemma released_refl ns : released ns ns.
Proof. by intros m c Hin Hnin. Qed.

Lemma sameFrame_alter_remove ns p n : sameFrame ns (alter (removeOwnedNode n) p ns).
Proof.
  intros m. rewrite lookup_alter. case_decide as Hpm; [|done].
  subst m. by destruct (ns !! p).
Qed.

Lemma detachOwned_frame detach n :
  (∀ ns c ns', detach ns n c = Some ns' → sameFrame ns ns') →
  ∀ l acc0 acc, detachOwned detach n l acc0 = Some acc → sameFrame acc0 acc.
Proof.
  intros Hdetach. induction l as [|c l IH]; simpl; intros acc0 acc.
  - by intros [= <-] m.
  - destruct (detach acc0 n c) as [acc1|] eqn:Hd; [|discriminate]. intros Hl m.
    by rewrite (IH _ _ Hl m), (Hdetach _ _ _ Hd m).
Qed.

Lemma detachNode_frame fuel :
  ∀ ns p n ns', detachNode fuel ns p n = Some ns' → sameFrame ns ns'.
Proof.
  induction fuel as [|fuel IH]; simpl; intros ns p n ns'; [discriminate|].
  destruct (detachOwned _ n (ownedOf ns n) ns) as [acc|] eqn:Hl; [|discriminate].
  intros [= <-] m. rewrite (sameFrame_alter_remove acc p n m).
  eapply detachOwned_frame; [|exact Hl]. intros ns1 c ns1'. apply IH.
Qed.

Lemma sameFrame_parent ns ns' m :
  sameFrame ns ns' → ns' !! m ≫= nodeParent = ns !! m ≫= nodeParent.
Proof.
  intros Hf. specialize (Hf m).
  destruct (ns' !! m) as [x'|], (ns !! m) as [x|]; simpl in *; try done.
  by injection Hf as _ _ ->.
Qed.

Lemma sameFrame_is_Some ns ns' m : sameFrame ns ns' → is_Some (ns' !! m) → is_Some (ns !! m).
Proof.
  intros Hf [x Hx]. specialize (Hf m). rewrite Hx in Hf.
  destruct (ns !! m); [by eexists|done].
Qed.

(** The recursion of [detachNode] ends when every owned node has a larger
    number than its owner, as the numbering by creation gives. *)
Lemma detachNode_total (bound : nat) (fuel : nat) :
  ∀ ns p n,
    (∀ m c, c ∈ ownedOf ns m → m < c ∧ c < bound) →
    bound ≤ fuel + n → 0 < fuel →
    is_Some (detachNode fuel ns p n).
Proof.
  induction fuel as [|fuel IH]; intros ns p n Hedges Hb Hpos; [lia|]. simpl.
  assert (Hloop : ∀ l acc0,
            (∀ c, c ∈ l → n < c ∧ c < bound) →
            (∀ m c, c ∈ ownedOf acc0 m → m < c ∧ c < bound) →
            is_Some (detachOwned (detachNode fuel) n l acc0)).
  { induction l as [|c l IHl]; simpl; intros acc0 Hl Hacc; [by eexists|].
    destruct (Hl c) as [Hnc Hcb]; [by left|].
    destruct (IH acc0 n c Hacc) as [acc1 Hd]; [lia|lia|]. rewrite Hd.
    apply IHl; [intros c' Hc'; apply Hl; by right|].
    intros m c' Hc'. apply Hacc.
    by apply (detachNode_spec acc0 fuel acc0 n c acc1 (shrinks_refl _) (released_refl _) Hd). }
  destruct (Hloop (ownedOf ns n) ns) as [acc Hacc]; [intros c; apply Hedges|done|].
  rewrite Hacc. by eexists.
Qed.

Lemma wfTree_new rootValue : wfTree (newTagTree rootValue).
Proof.
  split; simpl.
  - intros m [x Hx]. apply lookup_singleton_Some in Hx as [<- _]. lia.
  - intros m c. unfold ownedOf.
    destruct (decide (m = 0)) as [->|Hm].
    + rewrite lookup_singleton_eq. simpl. by intros ?%elem_of_nil.
    + rewrite lookup_singleton_ne by done. simpl. by intros ?%elem_of_nil.
Qed.

Lemma wfTree_add parent tg value t :
  wfTree t → wfTree (tree_addTaggedValue parent tg value t).2.
Proof.
  intros [Hkeys Hedges]. split; simpl.
  - intros m. rewrite lookup_insert. case_decide as Hm; [lia|].
    rewrite lookup_alter. case_decide.
    + subst m. intros [x Hx]. apply fmap_Some in Hx as (y & Hy & _).
      assert (parent < nextNodeId t) by (apply Hkeys; by eexists). lia.
    + intros Hs. specialize (Hkeys m Hs). lia.
  - intros m c. unfold ownedOf. rewrite lookup_insert. case_decide as Hm.
    { simpl. by intros ?%elem_of_nil. }
    rewrite lookup_alter. case_decide as Hp.
    + subst m. destruct (treeNodes t !! parent) as [x|] eqn:Hx; simpl.
      * intros [Hc| ->%list_elem_of_singleton]%elem_of_app.
        -- destruct (Hedges parent c) as [? ?]; [|lia]. unfold ownedOf. by rewrite Hx.
        -- assert (parent < nextNodeId t) by (apply Hkeys; by eexists). lia.
      * by intros ?%elem_of_nil.
    + intros Hc. destruct (Hedges m c Hc). lia.
Qed.

Lemma tree_removeTaggedNode_returns parent tg n t :
  wfTree t →
  ∃ nodes',
    tree_removeTaggedNode parent tg n t =
      (Returned (), mkTree nodes' (nextNodeId t)
                      (controllerCalls t ++ [RemoveTaggedNode parent tg n])) ∧
    detachNode (S (nextNodeId t)) (treeNodes t) parent n = Some nodes'.
Proof.
  intros [_ Hedges]. unfold tree_removeTaggedNode.
  destruct (detachNode_total (nextNodeId t) (S (nextNodeId t)) (treeNodes t) parent n)
    as [nodes' Hd]; [done|lia|lia|].
  rewrite Hd. by exists nodes'.
Qed.

Lemma wfTree_remove parent tg n t :
  wfTree t → wfTree (tree_removeTaggedNode parent tg n t).2.
Proof.
  intros Hwf. destruct (tree_removeTaggedNode_returns parent tg n t Hwf) as (nodes' & -> & Hd).
  destruct Hwf as [Hkeys Hedges]. split; simpl.
  - intros m Hm. apply Hkeys. eapply sameFrame_is_Some; [|done]. by eapply detachNode_frame.
  - intros m c Hc. apply Hedges.
    by apply (detachNode_spec _ _ _ _ _ _ (shrinks_refl _) (released_refl _) Hd).
Qed.

Lemma ownsTransitively_le nodes bound a m :
  (∀ m c, c ∈ ownedOf nodes m → m < c ∧ c < bound) →
  ownsTransitively nodes a m → a ≤ m.
Proof.
  intros Hedges. induction 1 as [|m c _ IH Hc]; [done|].
  destruct (Hedges m c Hc). lia.
Qed.

(** After [a] is detached, neither [a] nor any node it owned, directly or
    through other nodes, owns anything. *)
Lemma detachNode_releases fuel ns p a ns' m :
  detachNode fuel ns p a = Some ns' →
  ownsTransitively ns a m → ownedOf ns' m = [].
Proof.
  intros Hd.
  destruct (detachNode_spec ns fuel ns p a ns' (shrinks_refl _) (released_refl _) Hd)
    as (_ & Hr & _ & Ha & _).
  induction 1 as [|m c _ IH Hc]; [done|].
  apply (Hr m c Hc). rewrite IH. apply not_elem_of_nil.
Qed.

(** ** Removal notifications *)

Lemma e2n_forget_same w e st : e2n (forget w e st) w = delete e (e2n st w).
Proof. unfold e2n at 1, forget. simpl. by rewrite lookup_insert_eq. Qed.

Lemma e2n_forget_ne w w' e st : w ≠ w' → e2n (forget w e st) w' = e2n st w'.
Proof. intros Hw. unfold e2n, forget. simpl. by rewrite lookup_insert_ne. Qed.

Lemma onChange_remove_eval (w : nat) (tg : string) (value : ElementContext)
    (st : PageParserTree) (n : NodeId) :
  e2n st w !! el value = Some n →
  onChange w tg (ChangeRemove value) st =
  match getParent (theTree st) n with
  | Some p =>
      if ownsNode (theTree st) p n
      then removeTaggedNode p tg n (forget w (el value) st)
      else (Returned (), forget w (el value) st)
  | None => (Returned (), forget w (el value) st)
  end.
Proof.
  intros He. unfold onChange, mbind, M_bind, gets, modify. rewrite He. simpl.
  fold (forget w (el value) st).
  change (theTree (forget w (el value) st)) with (theTree st).
  destruct (getParent (theTree st) n) as [p|]; [|reflexivity].
  change (theTree (forget w (el value) st)) with (theTree st).
  destruct (ownsNode (theTree st) p n); reflexivity.
Qed.

Lemma removeTaggedNode_returns parent tg n st :
  wfTree (theTree st) →
  ∃ nodes',
    removeTaggedNode parent tg n st =
      (Returned (), setTree (mkTree nodes' (nextNodeId (theTree st))
                               (controllerCalls (theTree st) ++ [RemoveTaggedNode parent tg n]))
                            st) ∧
    detachNode (S (nextNodeId (theTree st))) (treeNodes (theTree st)) parent n = Some nodes'.
Proof.
  intros Hwf. destruct (tree_removeTaggedNode_returns parent tg n _ Hwf) as (nodes' & Hr & Hd).
  exists nodes'. split; [|done]. unfold removeTaggedNode. by rewrite Hr.
Qed.

(** C5. A removal notification for a tracked element drops the element's
    association and asks the controller to detach the node exactly when the
    node has a parent that still owns it. Hence, when the notification for an
    ancestor node [a] has made the controller detach [a], the notification
    for a node [d] that [a] owned, directly or through other nodes, reaches
    the controller with no further request. *)
Theorem C5_removal_detaches_only_owned_nodes (st : PageParserTree) :
  wfTree (theTree st) →
  (∀ w tg value n,
     e2n st w !! el value = Some n →
     ∃ st',
       onChange w tg (ChangeRemove value) st = (Returned (), st') ∧
       e2n st' w = delete (el value) (e2n st w) ∧
       controllerCalls (theTree st') =
         controllerCalls (theTree st) ++
         match getParent (theTree st) n with
         | Some p => if ownsNode (theTree st) p n then [RemoveTaggedNode p tg n] else []
         | None => []
         end) ∧
  (∀ wa tga va a pa w tg vd d q,
     e2n st wa !! el va = Some a →
     getParent (theTree st) a = Some pa →
     ownsNode (theTree st) pa a = true →
     e2n st w !! el vd = Some d →
     getParent (theTree st) d = Some q →
     d ∈ ownedOf (treeNodes (theTree st)) q →
     ownsTransitively (treeNodes (theTree st)) a q →
     ∃ st1 st2,
       onChange wa tga (ChangeRemove va) st = (Returned (), st1) ∧
       onChange w tg (ChangeRemove vd) st1 = (Returned (), st2) ∧
       theTree st2 = theTree st1 ∧
       controllerCalls (theTree st2) =
         controllerCalls (theTree st) ++ [RemoveTaggedNode pa tga a] ∧
       e2n st2 w !! el vd = None).
Proof.
  intros Hwf. split.
  - intros w tg value n He. rewrite (onChange_remove_eval _ _ _ _ _ He).
    destruct (getParent (theTree st) n) as [p|].
    2: { eexists. split; [done|]. split; [apply e2n_forget_same|]. by rewrite app_nil_r. }
    destruct (ownsNode (theTree st) p n).
    2: { eexists. split; [done|]. split; [apply e2n_forget_same|]. by rewrite app_nil_r. }
    destruct (removeTaggedNode_returns p tg n (forget w (el value) st) Hwf)
      as (nodes' & -> & _).
    eexists. split; [done|]. split; [|done].
    replace (e2n (setTree _ (forget w (el value) st)) w)
      with (e2n (forget w (el value) st) w) by done.
    apply e2n_forget_same.
  - intros wa tga va a pa w tg vd d q Ha Hpa Hown Hd Hq Hqd Haq.
    rewrite (onChange_remove_eval _ _ _ _ _ Ha), Hpa, Hown.
    destruct (removeTaggedNode_returns pa tga a (forget wa (el va) st) Hwf)
      as (nodes' & -> & Hdetach).
    replace (theTree (forget wa (el va) st)) with (theTree st) in * by done.
    set (t1 := mkTree nodes' _ _). set (st1 := setTree t1 _).
    (* [d] is below [a], so it is another node, tracked under another key *)
    assert (Had : a < d).
    { destruct Hwf as [_ Hedges]. destruct (Hedges q d Hqd).
      pose proof (ownsTransitively_le _ _ _ _ Hedges Haq). lia. }
    assert (Hd1 : e2n st1 w !! el vd = Some d).
    { replace (e2n st1 w) with (e2n (forget wa (el va) st) w) by done.
      destruct (decide (wa = w)) as [->|Hw].
      - rewrite e2n_forget_same, lookup_delete_ne; [done|].
        intros Heq. rewrite Heq in Ha. rewrite Ha in Hd. injection Hd as ->. lia.
      - by rewrite e2n_forget_ne. }
    assert (Hq1 : getParent (theTree st1) d = Some q).
    { unfold getParent in *. simpl. rewrite <- Hq.
      apply sameFrame_parent. by eapply detachNode_frame. }
    assert (Hown1 : ownsNode (theTree st1) q d = false).
    { unfold ownsNode. simpl. rewrite (detachNode_releases _ _ _ _ _ q Hdetach Haq).
      apply bool_decide_false, not_elem_of_nil. }
    exists st1. eexists. split; [done|].
    rewrite (onChange_remove_eval _ _ _ _ _ Hd1), Hq1, Hown1.
    split; [done|]. split; [done|]. split; [done|].
    by rewrite e2n_forget_same, lookup_delete_eq.
Qed.

(** ** Pipelines and the [parents] array *)

Lemma reduceTransformers_fold (ts : list LiveSetTransformer)
    (init1 init2 : LiveSetTransformer) page input1 input2 :
  init1 page input1 = init2 page input2 →
  fold_left (λ combined transformer : LiveSetTransformer,
               λ page liveSet, transformer page (combined page liveSet)) ts init1 page input1
  = fold_left (λ combined transformer : LiveSetTransformer,
               λ page liveSet, transformer page (combined page liveSet)) ts init2 page input2.
Proof.
  revert init1 init2 input1 input2.
  induction ts as [|t ts IH]; intros init1 init2 input1 input2 Hinit; simpl; [done|].
  apply IH. by rewrite Hinit.
Qed.

Lemma reduceTransformers_cons t ts page input :
  reduceTransformers (t :: ts) page input = reduceTransformers ts page (t page input).
Proof. unfold reduceTransformers. simpl. by apply reduceTransformers_fold. Qed.

Lemma reduceTransformers_app ts1 ts2 page input :
  reduceTransformers (ts1 ++ ts2) page input
  = reduceTransformers ts2 page (reduceTransformers ts1 page input).
Proof.
  revert input. induction ts1 as [|t ts1 IH]; intros input; simpl; [done|].
  by rewrite !reduceTransformers_cons, IH.
Qed.

Lemma sharesParents_reduce ts : Forall sharesParents ts → sharesParents (reduceTransformers ts).
Proof.
  induction 1 as [|t ts Ht _ IH]; intros page input out.
  - intros Hout. by exists out.
  - rewrite reduceTransformers_cons. intros Hout.
    destruct (IH _ _ _ Hout) as (mid & Hmid & ->).
    destruct (Ht _ _ _ Hmid) as (ec & Hec & ->). by exists ec.
Qed.

Lemma sharesParents_merge (ts : list LiveSetTransformer) :
  Forall sharesParents ts →
  sharesParents (λ page liveSet,
    liveSetMerge (List.map (λ transformer : LiveSetTransformer, transformer page liveSet) ts)).
Proof.
  intros Hts page input out Hout. unfold liveSetMerge in Hout.
  apply list_elem_of_In, in_concat in Hout as (l & Hl & Hout).
  apply in_map_iff in Hl as (t & <- & Ht).
  rewrite Forall_forall in Hts. apply (Hts t (proj2 (list_elem_of_In _ _) Ht) page).
  by apply list_elem_of_In.
Qed.

Lemma sharesParents_filter (filterFn : ElementContext → bool) :
  sharesParents (λ page liveSet, liveSetFilter liveSet filterFn).
Proof.
  intros page input out Hout. unfold liveSetFilter in Hout.
  apply list_elem_of_In, filter_In in Hout as [Hout _].
  exists out. split; [by apply list_elem_of_In|done].
Qed.

Lemma sharesParents_map (fn : Element → option Element) :
  sharesParents (λ page liveSet, liveSetTransduce liveSet (mapTransducer fn)).
Proof.
  intros page input out Hout.
  unfold liveSetTransduce, mapTransducer, t_compose, t_map, t_filter in Hout.
  apply list_elem_of_omap in Hout as (m & Hm & Hout).
  apply list_elem_of_In, filter_In in Hm as [Hm _].
  apply in_map_iff in Hm as (ec & <- & Hec). simpl in Hout.
  destruct (fn (el ec)) as [e|]; [|done]. injection Hout as <-.
  exists ec. split; [by apply list_elem_of_In|done].
Qed.

Lemma sharesParents_children (pick : Page → ElementContext → list Element) :
  sharesParents (λ page liveSet,
    liveSetFlatMap liveSet (λ ec, List.map (λ e, mkEc e (parents ec)) (pick page ec))).
Proof.
  intros page input out Hout. unfold liveSetFlatMap in Hout.
  apply list_elem_of_In, in_flat_map in Hout as (ec & Hec & Hout).
  apply in_map_iff in Hout as (e & <- & _).
  exists ec. split; [by apply list_elem_of_In|done].
Qed.

Lemma mapO_compile_Forall {P : LiveSetTransformer → Prop}
    (compileItem : Selector → Outcome LiveSetTransformer) (l : list Selector) ts :
  Forall (λ item, ∀ t, compileItem item = Returned t → P t) l →
  mapO compileItem l = Returned ts → Forall P ts.
Proof.
  intros Hl Hts. apply mapO_returned_Forall2 in Hts.
  induction Hts as [|item t l ts Hit _ IH]; [constructor|].
  apply Forall_cons in Hl as [Hi Hl]. constructor; [by apply Hi|by apply IH].
Qed.

Lemma branches_compile_Forall {P : LiveSetTransformer → Prop}
    (compileItem : Selector → Outcome LiveSetTransformer)
    (branches : list (list Selector)) ts :
  (∀ ts', Forall P ts' → P (reduceTransformers ts')) →
  Forall (Forall (λ item, ∀ t, compileItem item = Returned t → P t)) branches →
  mapO (makeWith compileItem) branches = Returned ts →
  Forall P ts.
Proof.
  intros Hred Hbs Hts. apply mapO_returned_Forall2 in Hts.
  induction Hts as [|b t bs ts Hbt _ IH]; [constructor|].
  apply Forall_cons in Hbs as [Hb Hbs]. constructor; [|by apply IH].
  unfold makeWith in Hbt.
  destruct (mapO compileItem b) as [tsb|] eqn:Hm; simpl in Hbt; [|discriminate].
  injection Hbt as <-. apply Hred. by eapply mapO_compile_Forall.
Qed.

Lemma Embedded_compileItem_sharesParents (item : Selector) (t : LiveSetTransformer) :
  Embedded.compileItem item = Returned t → sharesParents t.
Proof.
  revert t. induction item as [s|f|f|a c|branches IH|s|] using Selector_ind;
    simpl; intros t; try discriminate.
  - intros [= <-].
    apply (sharesParents_children
             (λ page ec, List.filter (λ e, matchesSelector page e s) (children page (el ec)))).
  - intros [= <-]. apply sharesParents_filter.
  - intros [= <-]. apply sharesParents_map.
  - destruct (mapO _ branches) as [ts|] eqn:Hb; simpl; [|discriminate].
    intros [= <-]. apply sharesParents_merge.
    eapply branches_compile_Forall; [apply sharesParents_reduce|exact IH|exact Hb].
  - case_bool_decide; [discriminate|]. intros [= <-]. apply sharesParents_filter.
Qed.

Lemma Embedded_makeLiveSetTransformer_sharesParents selectors t :
  Embedded.makeLiveSetTransformer selectors = Returned t → sharesParents t.
Proof.
  unfold Embedded.makeLiveSetTransformer, makeWith.
  destruct (mapO _ selectors) as [ts|] eqn:Hts; simpl; [|discriminate].
  intros [= <-]. apply sharesParents_reduce.
  eapply mapO_compile_Forall; [|exact Hts].
  apply Forall_forall. intros item _ ti. apply Embedded_compileItem_sharesParents.
Qed.

Lemma Standalone_compileItem_sharesParents (item : Selector) (t : LiveSetTransformer) :
  itemHasWatch item = false →
  Standalone.compileItem item = Returned t → sharesParents t.
Proof.
  revert t. induction item as [s|f|f|a c|branches IH|s|] using Selector_ind;
    simpl; intros t Hw; try discriminate.
  - intros [= <-].
    apply (sharesParents_children
             (λ page ec, List.filter (λ e, matchesSelector page e s) (children page (el ec)))).
  - intros [= <-]. apply sharesParents_filter.
  - intros [= <-]. apply sharesParents_map.
  - destruct (mapO _ branches) as [ts|] eqn:Hb; simpl; [|discriminate].
    intros [= <-]. apply sharesParents_merge.
    eapply branches_compile_Forall; [apply sharesParents_reduce| |exact Hb].
    apply Forall_forall. intros b Hb'. apply Forall_forall. intros i Hi ti.
    rewrite Forall_forall in IH. specialize (IH b Hb').
    rewrite Forall_forall in IH. apply (IH i Hi).
    destruct (itemHasWatch i) eqn:Hiw; [|done].
    exfalso. apply not_true_iff_false in Hw. apply Hw.
    apply existsb_exists. exists b. split; [by apply list_elem_of_In|].
    apply existsb_exists. exists i. split; [by apply list_elem_of_In|done].
  - case_bool_decide; [discriminate|]. intros [= <-]. apply sharesParents_filter.
Qed.

Lemma Standalone_makeLiveSetTransformer_sharesParents selectors t :
  hasWatch selectors = false →
  Standalone.makeLiveSetTransformerFromSelectors selectors = Returned t → sharesParents t.
Proof.
  unfold Standalone.makeLiveSetTransformerFromSelectors, makeWith. intros Hw.
  destruct (mapO _ selectors) as [ts|] eqn:Hts; simpl; [|discriminate].
  intros [= <-]. apply sharesParents_reduce.
  eapply mapO_compile_Forall; [|exact Hts].
  apply Forall_forall. intros item Hitem ti. apply Standalone_compileItem_sharesParents.
  destruct (itemHasWatch item) eqn:Hiw; [|done].
  exfalso. apply not_true_iff_false in Hw. apply Hw.
  apply existsb_exists. exists item. split; [by apply list_elem_of_In|done].
Qed.

(** ** The filter engine *)

Module EngineRuns.
Import WatchFilteredChildren.

Lemma processAdded_shares describe cond e w n :
  queueShares e w → queueShares e (processAdded describe cond e w n).
Proof.
  unfold queueShares, processAdded. intros Hw.
  destruct (_ && _); [|done]. simpl. apply Forall_app. split; [done|].
  by repeat constructor.
Qed.

Lemma processRemoved_shares e w n :
  queueShares e w → queueShares e (processRemoved e w n).
Proof.
  unfold queueShares, processRemoved. intros Hw.
  destruct (contains w.1 n); [|done]. destruct (contains (childNodes e) n); [done|].
  simpl. apply Forall_app. split; [done|]. by repeat constructor.
Qed.

Lemma processRecord_shares describe cond e w r :
  queueShares e w → queueShares e (processRecord describe cond e w r).
Proof.
  unfold processRecord. intros Hw.
  assert (Ha : queueShares e (fold_left (processAdded describe cond e) (addedNodes r) w)).
  { revert w Hw. induction (addedNodes r) as [|n l IH]; intros w Hw; simpl; [done|].
    by apply IH, processAdded_shares. }
  revert Ha. generalize (fold_left (processAdded describe cond e) (addedNodes r) w).
  induction (removedNodes r) as [|n l IH]; intros w' Hw'; simpl; [done|].
  by apply IH, processRemoved_shares.
Qed.

Lemma records_share describe cond e rs w :
  queueShares e w → queueShares e (fold_left (processRecord describe cond e) rs w).
Proof.
  revert w. induction rs as [|r rs IH]; intros w Hw; simpl; [done|].
  by apply IH, processRecord_shares.
Qed.

Lemma run_callsShare describe cond rootEc e :
  run describe cond rootEc e → callsShare rootEc e.
Proof.
  induction 1 as [actual|n e _ [Hr Hc]|r e _ [Hr Hc]|e _ [Hr Hc]].
  - split; [done|constructor].
  - by split.
  - by split.
  - unfold deliver. destruct (pending e) as [|r rs] eqn:Hp; [by split|].
    split; [done|]. simpl.
    pose proof (records_share describe cond e (r :: rs) (members e, [])) as Hq.
    unfold queueShares in Hq. simpl in Hq. specialize (Hq (Forall_nil_2 _)).
    rewrite Hr in Hq.
    destruct (fold_left (processRecord describe cond e) rs _).2 as [|ch batch]; [done|].
    apply Forall_app. split; [done|]. constructor; [exact Hq|constructor].
Qed.

(** A removal record for a member that is still a child of the root changes
    neither the membership set nor the queue. *)
Lemma processRemoved_attached e w n :
  contains w.1 n = true → contains (childNodes e) n = true → processRemoved e w n = w.
Proof. unfold processRemoved. by intros -> ->. Qed.

End EngineRuns.

(** ** The [$or] operator *)

Lemma mapO_app_inv {A B} (f : A → Outcome B) (l1 l2 : list A) (ys : list B) :
  mapO f (l1 ++ l2) = Returned ys →
  ∃ ys1 ys2, mapO f l1 = Returned ys1 ∧ mapO f l2 = Returned ys2 ∧ ys = ys1 ++ ys2.
Proof.
  revert ys. induction l1 as [|x l1 IH]; simpl; intros ys.
  - intros Hl2. by exists [], ys.
  - destruct (f x) as [y|]; simpl; [|discriminate].
    destruct (mapO f (l1 ++ l2)) as [ys'|] eqn:Hl; simpl; [|discriminate].
    intros [= <-]. destruct (IH _ eq_refl) as (ys1 & ys2 & -> & -> & ->).
    by exists (y :: ys1), ys2.
Qed.

Section OrSplit.
Variable compileItem : Selector → Outcome LiveSetTransformer.

Abbreviation make := (makeWith compileItem).

Hypothesis compileItem_or : ∀ branches,
  compileItem (SelOr branches) =
  obind (mapO make branches)
    (λ transformers,
       Returned (λ page liveSet,
          liveSetMerge (List.map (λ transformer : LiveSetTransformer,
                                    transformer page liveSet) transformers))).

Lemma or_split pre branches post t :
  make (pre ++ SelOr branches :: post) = Returned t →
  ∃ tpre tbranches tpost,
    make pre = Returned tpre ∧
    Forall2 (λ branch tb, make branch = Returned tb) branches tbranches ∧
    make post = Returned tpost ∧
    ∀ page input,
      t page input =
      tpost page (liveSetMerge ((λ tb : LiveSetTransformer, tb page (tpre page input))
                                  <$> tbranches)).
Proof using compileItem_or.
  unfold makeWith at 1.
  destruct (mapO compileItem (pre ++ SelOr branches :: post)) as [ts|] eqn:Hts;
    simpl; [|discriminate].
  intros [= <-].
  apply mapO_app_inv in Hts as (ts1 & ts2 & Hpre & Hrest & ->).
  simpl in Hrest. rewrite compileItem_or in Hrest.
  destruct (mapO make branches) as [tbs|] eqn:Hbs; simpl in Hrest; [|discriminate].
  destruct (mapO compileItem post) as [ts3|] eqn:Hpost; simpl in Hrest; [|discriminate].
  injection Hrest as <-.
  exists (reduceTransformers ts1), tbs, (reduceTransformers ts3).
  split; [unfold makeWith; by rewrite Hpre|].
  split; [by apply mapO_returned_Forall2|].
  split; [unfold makeWith; by rewrite Hpost|].
  intros page input. by rewrite reduceTransformers_app, reduceTransformers_cons.
Qed.
End OrSplit.

(** ** The root pair at the head of [parents] *)

Lemma findParentNode_rooted ownedBy ec :
  rooted ec → ∃ p, findParentNode ownedBy (items (parents ec)) = Returned p.
Proof.
  intros [rest Hr]. rewrite findParentNode_nearest. unfold nearestQualifying.
  destruct (List.find _ _) as [p|] eqn:Hf; [by eexists|]. exfalso.
  pose proof (find_none _ _ Hf (mkPair None 0)) as Hn. simpl in Hn.
  assert (Hin : In (mkPair None 0) (reverse (items (parents ec)))).
  { apply list_elem_of_In, elem_of_reverse. rewrite Hr. by left. }
  specialize (Hn Hin). discriminate.
Qed.

Lemma placeElement_returned_parents w tg ownedBy ec st ec' st' :
  placeElement w tg ownedBy ec st = (Returned ec', st') →
  ∃ arr n, parents ec' = mkArray arr (items (parents ec) ++ [mkPair (Some tg) n]).
Proof.
  intros Hp.
  destruct (findParentNode ownedBy (items (parents ec))) as [p|e] eqn:Hf.
  - rewrite (placeElement_found _ _ _ _ _ _ Hf) in Hp.
    case_bool_decide; [discriminate|]. injection Hp as <- _. by eexists _, _.
  - unfold placeElement, mbind, M_bind, liftO in Hp. rewrite Hf in Hp. discriminate.
Qed.

Lemma sourceContext_rooted rootEl ec : sourceContext rootEl ec → rooted ec.
Proof.
  induction 1 as [|selectors t page input ec w tg ownedBy st ec' st' Ht _ IH Hec Hp].
  - by exists [].
  - destruct (Embedded_makeLiveSetTransformer_sharesParents _ _ Ht _ _ _ Hec)
      as (x & Hx & Hpx).
    destruct (IH x Hx) as [rest Hrest].
    destruct (placeElement_returned_parents _ _ _ _ _ _ _ Hp) as (arr & n & Hp').
    unfold rooted. rewrite Hp'. simpl. rewrite Hpx, Hrest. by eexists.
Qed.

Lemma reachesPlacement_rooted rootEl ec : reachesPlacement rootEl ec → rooted ec.
Proof.
  intros (selectors & t & page & input & Ht & Hin & Hec).
  destruct (Embedded_makeLiveSetTransformer_sharesParents _ _ Ht _ _ _ Hec) as (x & Hx & Hpx).
  destruct (sourceContext_rooted _ _ (Hin x Hx)) as [rest Hrest].
  exists rest. by rewrite Hpx.
Qed.

(** C3, as the code has it. The duplicate check looks at the map of the
    watcher whose pipeline reports the element: when that map holds the
    element, the [liveSetMap] callback throws 'received element twice', the
    exception leaves the orchestrator's code uncaught, ending the delivery
    it occurred in, and the error sink is not called; when that map does not
    hold the element, this error is not thrown, whatever the tree holds. *)
Theorem C3_duplicate_element_throws :
  (∀ rootEl w tg ownedBy ec st n0 rest,
     reachesPlacement rootEl ec →
     e2n st w !! el ec = Some n0 →
     ∃ st',
       placeElement w tg ownedBy ec st = (Thrown Err_received_element_twice, st') ∧
       forEach (runDelivery w tg ownedBy) (MapCall ec :: rest) st
         = (Thrown Err_received_element_twice, st') ∧
       loggedErrors st' = loggedErrors st) ∧
  (∀ w tg ownedBy ec st,
     e2n st w !! el ec = None →
     (placeElement w tg ownedBy ec st).1 ≠ Thrown Err_received_element_twice).
Proof.
  split.
  - intros rootEl w tg ownedBy ec st n0 rest Hreach He.
    destruct (findParentNode_rooted ownedBy ec (reachesPlacement_rooted _ _ Hreach))
      as [p Hp].
    eexists. split; [by eapply placeElement_duplicate|].
    split; [|done]. rewrite forEach_cons. unfold mbind, M_bind. simpl.
    unfold mbind, M_bind. by erewrite placeElement_duplicate.
  - intros w tg ownedBy ec st He Hthrown.
    destruct (placeElement w tg ownedBy ec st) as [o st'] eqn:Hp. simpl in Hthrown. subst o.
    apply placeElement_twice_inv in Hp as (p & n0 & _ & Hn0). congruence.
Qed.

(** C10. Every context that reaches the node-placement step has the root
    pair, with absent tag, as the first entry of its [parents]; an absent tag
    passes the ownership test, so [findParentNode] finds a parent for it and
    the placement does not throw for lack of one. *)
Theorem C10_root_pair_heads_parents
    (rootEl : Element) (ec : ElementContext) (w : nat) (tg : string)
    (ownedBy : gset string) (st : PageParserTree) :
  reachesPlacement rootEl ec →
  (∃ rest, items (parents ec) = mkPair None 0 :: rest) ∧
  qualifies ownedBy (mkPair None 0) = true ∧
  (∃ p, findParentNode ownedBy (items (parents ec)) = Returned p) ∧
  (placeElement w tg ownedBy ec st).1 ≠ Thrown Err_blank.
Proof.
  intros Hreach. pose proof (reachesPlacement_rooted _ _ Hreach) as Hr.
  split; [exact Hr|]. split; [done|].
  destruct (findParentNode_rooted ownedBy ec Hr) as [p Hp].
  split; [by exists p|].
  rewrite (placeElement_found _ _ _ _ _ _ Hp). by case_bool_decide.
Qed.

(** ** Resolving the sources of a watcher *)

Lemma collectStep_fold (ws : list Watcher) :
  ∀ acc,
    (∀ t, is_Some (acc.1 !! t) ↔ t ∈ acc.2.*1) →
    let r := fold_left collectStep ws acc in
    (∀ t, is_Some (r.1 !! t) ↔ t ∈ r.2.*1) ∧
    (∀ t, is_Some (r.1 !! t) ↔ is_Some (acc.1 !! t) ∨ ∃ w, w ∈ ws ∧ wtag w = t) ∧
    (∀ t, acc.1 !! t = None → is_Some (r.1 !! t) → r.1 !! t = Some (mkTagOptions None)) ∧
    (∀ t o, acc.1 !! t = Some o → r.1 !! t = Some o).
Proof.
  induction ws as [|w ws IH]; intros acc Hacc; simpl.
  - split; [done|]. split; [|split; [|done]].
    + intros t. split; [by left|]. intros [?|(w & Hw & _)]; [done|]. by apply elem_of_nil in Hw.
    + intros t Hn [x Hx]. congruence.
  - assert (Hstep : ∀ t, is_Some ((collectStep acc w).1 !! t) ↔ t ∈ (collectStep acc w).2.*1).
    { intros t. unfold collectStep. case_bool_decide as Hd; [apply Hacc|]. simpl.
      rewrite fmap_app, elem_of_app, <- Hacc. simpl. rewrite list_elem_of_singleton.
      rewrite lookup_insert. case_decide as Heq.
      - subst t. split; [by right|by eexists].
      - split; [by left|]. intros [?|?]; [done|congruence]. }
    destruct (IH _ Hstep) as (H1 & H2 & H3 & H4). split; [done|].
    split; [|split].
    + intros t. rewrite H2. unfold collectStep. case_bool_decide as Hd; simpl.
      * split.
        -- intros [?|(w' & Hw' & Ht)]; [by left|]. right. exists w'. split; [by right|done].
        -- intros [?|(w' & Hw' & Ht)]; [by left|].
           apply elem_of_cons in Hw' as [->|Hw']; [left; by rewrite <- Ht|].
           right. by exists w'.
      * rewrite lookup_insert. case_decide as Heq.
        -- subst t. split; [|intros _; left; by eexists].
           intros _. right. exists w. split; [by left|done].
        -- split.
           ++ intros [?|(w' & Hw' & Ht)]; [by left|]. right. exists w'. split; [by right|done].
           ++ intros [?|(w' & Hw' & Ht)]; [by left|].
              apply elem_of_cons in Hw' as [->|Hw']; [done|]. right. by exists w'.
    + intros t Hn Hs. unfold collectStep in *. case_bool_decide as Hd; simpl in *.
      * by apply H3.
      * destruct (decide (wtag w = t)) as [<-|Hne].
        -- apply H4. by rewrite lookup_insert_eq.
        -- apply H3; [by rewrite lookup_insert_ne|done].
    + intros t o Ho. apply H4. unfold collectStep. case_bool_decide as Hd; [done|]. simpl.
      rewrite lookup_insert_ne; [done|]. intros <-. apply Hd. by eexists.
Qed.

Lemma collectTags_spec (options : PageParserTreeOptions) :
  let r := collectTags options in
  (∀ t, is_Some (r.1 !! t) ↔ declared options t) ∧
  (∀ t, t ∈ r.2.*1 ↔ declared options t) ∧
  (∀ t, tags options !! t = None → isDestination options t →
        r.1 !! t = Some (mkTagOptions None)) ∧
  (∀ t o, tags options !! t = Some o → r.1 !! t = Some o).
Proof.
  unfold collectTags.
  match goal with |- context [fold_left collectStep _ ?a] => set (acc := a) end.
  assert (Hacc : ∀ t, is_Some (acc.1 !! t) ↔ t ∈ acc.2.*1).
  { intros t. unfold acc. simpl. rewrite <- list_fmap_compose.
    rewrite list_elem_of_fmap. split.
    - intros [o Ho]. exists (t, o). split; [done|]. by apply elem_of_map_to_list.
    - intros ([t' o] & -> & Hin). apply elem_of_map_to_list in Hin. by eexists. }
  destruct (collectStep_fold (watchers options) acc Hacc) as (H1 & H2 & H3 & H4).
  simpl. split; [apply H2|]. split; [|split].
  - intros t. rewrite <- H1. apply H2.
  - intros t Hn Hd. apply H3; [done|]. apply H2. by right.
  - intros t o Ho. by apply H4.
Qed.

Lemma initialEcSources_keys (tagList : list (string * option (list string))) (t : string) :
  is_Some ((list_to_map ((λ t : string * option (list string), (t.1, [])) <$> tagList)
              : gmap string (list nat)) !! t) ↔ t ∈ tagList.*1.
Proof.
  rewrite <- not_eq_None_Some, <- not_elem_of_list_to_map, <- list_fmap_compose.
  split; [|tauto]. intros Hnn. by destruct (decide (t ∈ (fst <$> tagList))); [|tauto].
Qed.

Lemma sameWiring_refl st : sameWiring st st.
Proof. by repeat split. Qed.

Lemma sameWiring_trans st1 st2 st3 : sameWiring st1 st2 → sameWiring st2 st3 → sameWiring st1 st3.
Proof.
  intros (A1 & A2 & A3 & A4 & A5) (B1 & B2 & B3 & B4 & B5).
  repeat split; congruence.
Qed.

Lemma placeElement_sameWiring w tg ownedBy ec st :
  sameWiring st (placeElement w tg ownedBy ec st).2.
Proof.
  destruct (findParentNode ownedBy (items (parents ec))) as [p|e] eqn:Hf.
  - rewrite (placeElement_found _ _ _ _ _ _ Hf). case_bool_decide; by repeat split.
  - pose proof (findParentNode_error _ _ _ Hf) as ->.
    rewrite (placeElement_not_found _ _ _ _ _ Hf). apply sameWiring_refl.
Qed.

Lemma forEach_invariant {A} (R : PageParserTree → PageParserTree → Prop)
    (f : A → M unit) (l : list A) :
  (∀ st, R st st) → (∀ st1 st2 st3, R st1 st2 → R st2 st3 → R st1 st3) →
  (∀ x st, R st (f x st).2) →
  ∀ st, R st (forEach f l st).2.
Proof.
  intros Hrefl Htrans Hf. induction l as [|x l IH]; intros st; simpl; [apply Hrefl|].
  unfold mbind, M_bind. pose proof (Hf x st) as Hx.
  destruct (f x st) as [[[]|e] st1]; simpl in *; [|done].
  eapply Htrans; [exact Hx|apply IH].
Qed.

Lemma resolveSource_state source st : (resolveSource source st).2 = st.
Proof.
  destruct source as [t|]; simpl; [|done]. case_bool_decide; [done|].
  msimpl. by destruct (_ecSources st !! t).
Qed.

Lemma mapM_resolveSource_state l st : (mapM resolveSource l st).2 = st.
Proof.
  induction l as [|s l IH]; [done|]. rewrite mapM_cons. unfold mbind, M_bind.
  pose proof (resolveSource_state s st) as Hs.
  destruct (resolveSource s st) as [[src|e] st1]; simpl in *; subst st1; [|done].
  destruct (mapM resolveSource l st) as [[srcs|e] st2]; simpl in *; by subst st2.
Qed.

Section Resolve.
Variable options : PageParserTreeOptions.
Variable st : PageParserTree.
Hypothesis Hkeys : ∀ t, is_Some (_ecSources st !! t) ↔ declared options t.

Lemma resolveSource_ok source :
  resolvable options source → ∃ src, resolveSource source st = (Returned src, st).
Proof using Hkeys.
  destruct source as [t|]; simpl; [|by eexists]. intros Hr.
  case_bool_decide as Ht; [by eexists|]. destruct Hr as [?|Hd]; [done|].
  apply Hkeys in Hd as [outs Ho]. msimpl. rewrite Ho. by eexists.
Qed.

Lemma resolveSource_unknown t :
  t ≠ EmptyString → ¬ declared options t →
  resolveSource (Some t) st = (Thrown (Err_unknown_source t), st).
Proof using Hkeys.
  intros Ht Hd. simpl. rewrite bool_decide_false by done. msimpl.
  destruct (_ecSources st !! t) as [outs|] eqn:Ho; [|done].
  exfalso. apply Hd, Hkeys. by eexists.
Qed.

Lemma mapM_resolveSource_ok l :
  Forall (resolvable options) l → ∃ srcs, mapM resolveSource l st = (Returned srcs, st).
Proof using Hkeys.
  induction 1 as [|s l Hs _ [srcs IH]]; [by eexists|].
  destruct (resolveSource_ok s Hs) as [src Hsrc].
  rewrite mapM_cons. unfold mbind, M_bind. rewrite Hsrc, IH. by eexists.
Qed.

Lemma mapM_resolveSource_fail pre t post :
  Forall (resolvable options) pre → t ≠ EmptyString → ¬ declared options t →
  mapM resolveSource (pre ++ Some t :: post) st = (Thrown (Err_unknown_source t), st).
Proof using Hkeys.
  intros Hpre Ht Hd. induction Hpre as [|s l Hs _ IH].
  - rewrite app_nil_l, mapM_cons. unfold mbind, M_bind. by rewrite resolveSource_unknown.
  - destruct (resolveSource_ok s Hs) as [src Hsrc].
    rewrite <- app_comm_cons, mapM_cons. unfold mbind, M_bind. by rewrite Hsrc, IH.
Qed.

Lemma mapM_resolveSource_thrown l t :
  Some t ∈ l → t ≠ EmptyString → ¬ declared options t →
  ∃ e, mapM resolveSource l st = (Thrown e, st).
Proof using Hkeys.
  intros Hin Ht Hd. induction l as [|s l IH]; [by apply elem_of_nil in Hin|].
  rewrite mapM_cons. unfold mbind, M_bind.
  pose proof (resolveSource_state s st) as Hs.
  destruct (resolveSource s st) as [[src|e] st1] eqn:Hsrc; simpl in Hs; subst st1;
    [|by eexists].
  apply elem_of_cons in Hin as [<-|Hin].
  - rewrite resolveSource_unknown in Hsrc by done. discriminate.
  - destruct (IH Hin) as [e ->]. by eexists.
Qed.
End Resolve.

(** ** Wiring the watchers *)

Lemma indexedFrom_cons {A} k (x : A) l :
  indexedFrom k (x :: l) = (k, x) :: indexedFrom (S k) l.
Proof.
  unfold indexedFrom. simpl. rewrite Nat.add_0_r. f_equal.
  apply imap_ext. intros i y _. simpl. f_equal. lia.
Qed.

Lemma indexed_indexedFrom {A} (l : list A) : indexed l = indexedFrom 0 l.
Proof. done. Qed.

Lemma is_Some_insert_existing (m : gmap string (list nat)) k v t :
  is_Some (m !! k) → is_Some (<[k := v]> m !! t) ↔ is_Some (m !! t).
Proof.
  intros Hk. rewrite lookup_insert. case_decide as Heq; [|done].
  subst t. split; [done|by eexists].
Qed.

Lemma placeCallback_sameWiring w tg ownedBy ec st :
  sameWiring st ((placeElement w tg ownedBy ec ≫= λ _, mret ()) st).2.
Proof.
  unfold mbind, M_bind. pose proof (placeElement_sameWiring w tg ownedBy ec st) as Hp.
  by destruct (placeElement w tg ownedBy ec st) as [[ec'|e] st1].
Qed.

Lemma placeCallbacks_sameWiring w tg ownedBy l st :
  sameWiring st (forEach (λ ec, placeElement w tg ownedBy ec ≫= λ _, mret ()) l st).2.
Proof.
  apply (forEach_invariant sameWiring).
  - apply sameWiring_refl.
  - apply sameWiring_trans.
  - intros ec st1. apply placeCallback_sameWiring.
Qed.

Section Wiring.
Variable sched : LiveSetSchedule.
Variable options : PageParserTreeOptions.
Variable ts : list LiveSetTransformer.

(** Whatever the outcome, wiring a watcher keeps the configuration. *)
Lemma wireWatcher_inv i w st :
  wiringInv options ts st → wiringInv options ts (wireWatcher sched (i, w) st).2.
Proof.
  intros (Hto & Hts & Hkeys). unfold wireWatcher. msimpl.
  destruct (_tagOptions st !! wtag w) as [tagOptions|]; [|done].
  pose proof (mapM_resolveSource_state (sources w) st) as Hs.
  destruct (mapM resolveSource (sources w) st) as [[srcs|e] st1]; simpl in Hs; subst st1;
    [|done].
  destruct (_watcherLiveSetTransformers st !! i); [|done]. simpl.
  match goal with |- context [forEach ?f ?l ?s] =>
    pose proof (forEach_invariant sameWiring f l sameWiring_refl sameWiring_trans
                  (λ ec st1, placeCallback_sameWiring i (wtag w) (ownedBySet tagOptions) ec st1)
                  s) as Hp;
    set (r := forEach f l s) in * end.
  destruct r as [[[]|e] st2];
    simpl in Hp; destruct Hp as (P1 & P2 & P3 & P4 & P5); simpl in *.
  2: { split; [congruence|]. split; [congruence|]. by rewrite P3. }
  destruct (raisedAtSubscribe sched i) as [call|]; simpl.
  { split; [congruence|]. split; [congruence|]. by rewrite P3. }
  rewrite P3. destruct (_ecSources st !! wtag w) as [outputs|] eqn:Ho;
    unfold wiringInv; simpl.
  - split; [congruence|]. split; [congruence|]. intros t.
    rewrite is_Some_insert_existing; [|by rewrite P3; eexists]. rewrite P3. apply Hkeys.
  - split; [congruence|]. split; [congruence|]. by rewrite P3.
Qed.

(** A watcher with an unknown source throws, and creates no tree node. *)
Lemma wireWatcher_thrown i w st t :
  wiringInv options ts st →
  Some t ∈ sources w → t ≠ EmptyString → ¬ declared options t →
  ∃ e, wireWatcher sched (i, w) st = (Thrown e, st).
Proof.
  intros (Hto & Hts & Hkeys) Hin Ht Hd. unfold wireWatcher. msimpl.
  destruct (_tagOptions st !! wtag w) as [tagOptions|]; [|by eexists].
  destruct (mapM_resolveSource_thrown options st Hkeys _ _ Hin Ht Hd) as [e ->].
  by eexists.
Qed.

Lemma wireWatcher_fail i w st pre t post :
  wiringInv options ts st → w ∈ watchers options →
  sources w = pre ++ Some t :: post →
  Forall (resolvable options) pre → t ≠ EmptyString → ¬ declared options t →
  wireWatcher sched (i, w) st = (Thrown (Err_unknown_source t), st).
Proof.
  intros (Hto & Hts & Hkeys) Hw Hsrc Hpre Ht Hd. unfold wireWatcher. msimpl.
  assert (Hdw : declared options (wtag w)) by (right; by exists w).
  apply (proj1 (collectTags_spec options)) in Hdw as [tagOptions Hdw].
  rewrite Hto, Hdw, Hsrc.
  by rewrite (mapM_resolveSource_fail options st Hkeys).
Qed.

(** A watcher whose sources resolve, and for which live-set maps nothing
    at subscription, is wired without touching the tree. *)
Lemma wireWatcher_quiet i w st :
  wiringInv options ts st → w ∈ watchers options →
  Forall (resolvable options) (sources w) →
  i < length ts → atSubscribe sched i = [] ∧ raisedAtSubscribe sched i = None →
  ∃ st', wireWatcher sched (i, w) st = (Returned (), st') ∧
         wiringInv options ts st' ∧ tree st' = tree st ∧
         loggedErrors st' = loggedErrors st.
Proof.
  intros (Hto & Hts & Hkeys) Hw Hsrc Hi [Hq Hn]. unfold wireWatcher. msimpl.
  assert (Hdw : declared options (wtag w)) by (right; by exists w).
  pose proof Hdw as Hdw'.
  apply (proj1 (collectTags_spec options)) in Hdw as [tagOptions Hdw].
  rewrite Hto, Hdw.
  destruct (mapM_resolveSource_ok options st Hkeys _ Hsrc) as [srcs ->].
  rewrite Hts. destruct (lookup_lt_is_Some_2 ts i Hi) as [t ->]. simpl.
  rewrite Hq, Hn. simpl. msimpl.
  apply Hkeys in Hdw' as [outputs Ho]. rewrite Ho. simpl.
  eexists. split; [done|]. split; [|done].
  split; [done|]. split; [done|]. simpl. intros t'.
  rewrite is_Some_insert_existing; [apply Hkeys|by eexists].
Qed.

Lemma wireAll_thrown ws t :
  ∀ k st,
    wiringInv options ts st →
    (∃ w, w ∈ ws ∧ Some t ∈ sources w) → t ≠ EmptyString → ¬ declared options t →
    is_thrown (forEach (wireWatcher sched) (indexedFrom k ws) st).1 = true.
Proof.
  induction ws as [|x ws IH]; intros k st Hinv (w & Hw & Ht) Hne Hd.
  { by apply elem_of_nil in Hw. }
  rewrite indexedFrom_cons, forEach_cons. unfold mbind, M_bind.
  pose proof (wireWatcher_inv k x st Hinv) as Hinv1.
  destruct (wireWatcher sched (k, x) st) as [[[]|e] st1] eqn:Hx; [|done].
  apply elem_of_cons in Hw as [->|Hw].
  - destruct (wireWatcher_thrown k x st t Hinv Ht Hne Hd) as [e He]. congruence.
  - apply IH; [done|by exists w|done|done].
Qed.

Lemma wireAll_fail ws i w pre t post :
  ∀ k st,
    wiringInv options ts st →
    ws !! i = Some w → w ∈ watchers options →
    sources w = pre ++ Some t :: post →
    Forall (resolvable options) pre → t ≠ EmptyString → ¬ declared options t →
    (∀ j wj, j < i → ws !! j = Some wj →
             wj ∈ watchers options ∧ Forall (resolvable options) (sources wj) ∧
             k + j < length ts ∧
             (atSubscribe sched (k + j) = [] ∧ raisedAtSubscribe sched (k + j) = None)) →
    ∃ st', forEach (wireWatcher sched) (indexedFrom k ws) st
             = (Thrown (Err_unknown_source t), st') ∧
           tree st' = tree st ∧ loggedErrors st' = loggedErrors st.
Proof.
  revert i. induction ws as [|x ws IH]; intros i k st Hinv Hi Hw Hsrc Hpre Hne Hd Hbefore.
  { by rewrite lookup_nil in Hi. }
  rewrite indexedFrom_cons, forEach_cons. unfold mbind, M_bind.
  destruct i as [|i]; simpl in Hi.
  - injection Hi as ->.
    rewrite (wireWatcher_fail k w st pre t post Hinv Hw Hsrc Hpre Hne Hd). by eexists.
  - destruct (Hbefore 0 x) as (Hx & Hxs & Hk & Hq); [lia|done|].
    rewrite Nat.add_0_r in Hk, Hq.
    destruct (wireWatcher_quiet k x st Hinv Hx Hxs Hk Hq) as (st1 & -> & Hinv1 & Ht1 & Hl1).
    destruct (IH i (S k) st1 Hinv1 Hi Hw Hsrc Hpre Hne Hd) as (st' & -> & Ht' & Hl').
    { intros j wj Hj Hwj. destruct (Hbefore (S j) wj) as (? & ? & ? & ?); [lia|done|].
      replace (S k + j) with (k + S j) by lia. done. }
    exists st'. split; [done|]. split; congruence.
Qed.

Lemma wireAll_quiet ws :
  ∀ k st,
    wiringInv options ts st →
    (∀ j wj, ws !! j = Some wj →
             wj ∈ watchers options ∧ Forall (resolvable options) (sources wj) ∧
             k + j < length ts ∧
             (atSubscribe sched (k + j) = [] ∧ raisedAtSubscribe sched (k + j) = None)) →
    ∃ st', forEach (wireWatcher sched) (indexedFrom k ws) st = (Returned (), st') ∧
           wiringInv options ts st' ∧ tree st' = tree st ∧
           loggedErrors st' = loggedErrors st.
Proof.
  induction ws as [|x ws IH]; intros k st Hinv Hall.
  { exists st. split; [done|]. split; [done|]. by split. }
  rewrite indexedFrom_cons, forEach_cons. unfold mbind, M_bind.
  destruct (Hall 0 x) as (Hx & Hxs & Hk & Hq); [done|].
  rewrite Nat.add_0_r in Hk, Hq.
  destruct (wireWatcher_quiet k x st Hinv Hx Hxs Hk Hq) as (st1 & -> & Hinv1 & Ht1 & Hl1).
  destruct (IH (S k) st1 Hinv1) as (st' & -> & Hinv' & Ht' & Hl').
  { intros j wj Hwj. destruct (Hall (S j) wj) as (? & ? & ? & ?); [done|].
    replace (S k + j) with (k + S j) by lia. done. }
  exists st'. split; [done|]. split; [done|]. split; congruence.
Qed.
End Wiring.

(** ** The constructor up to the wiring *)

Lemma indexedFrom_app {A} k (l1 l2 : list A) :
  indexedFrom k (l1 ++ l2) = indexedFrom k l1 ++ indexedFrom (k + length l1) l2.
Proof.
  unfold indexedFrom. rewrite imap_app. f_equal.
  apply imap_ext. intros i x _. simpl. f_equal. lia.
Qed.

Lemma forEach_app {A} (f : A → M unit) l1 l2 st :
  forEach f (l1 ++ l2) st = (forEach f l1 ≫= λ _, forEach f l2) st.
Proof.
  revert st. induction l1 as [|x l1 IH]; intros st; [done|].
  rewrite <- app_comm_cons, !forEach_cons. unfold mbind, M_bind.
  destruct (f x st) as [[[]|e] st1]; [|done]. apply IH.
Qed.

Lemma wireAll_inv sched options ts l st :
  wiringInv options ts st → wiringInv options ts (forEach (wireWatcher sched) l st).2.
Proof.
  apply (forEach_invariant (λ st st', wiringInv options ts st → wiringInv options ts st')).
  - done.
  - intros st1 st2 st3 H12 H23 H1. by apply H23, H12.
  - intros [i w] st1. apply wireWatcher_inv.
Qed.

Lemma construct_setup sched root options rootEl ts :
  hasElement root = Some rootEl →
  compileWatchers options = Returned ts →
  wiringInv options ts (setupState rootEl options ts) ∧
  newPageParserTree sched root options =
  (forEach (wireWatcher sched) (indexed (watchers options)) ≫= λ _,
   gets _subscriptions ≫= λ subs, forEach (pullChanges sched options) subs)
    (setupState rootEl options ts).
Proof.
  unfold compileWatchers. intros Hroot Hts.
  unfold newPageParserTree, construct, setupState, compileWatchers.
  pose proof (collectTags_spec options) as (Hm & Hl & _).
  destruct (collectTags options) as [tagOptions tagList] eqn:Hc.
  assert (Hrun : ∀ e, hasElement root = Some e →
            match root with
            | RootDocument None => throw Err_missing_documentElement
            | RootDocument (Some e) => mret e
            | RootElement e => mret e
            end blankInstance = (Returned e, blankInstance)).
  { intros e. by destruct root as [[?|]|?]; simpl; intros [= ->]. }
  unfold mbind at 1, M_bind at 1. rewrite (Hrun rootEl Hroot).
  msimpl. rewrite Hts. simpl. split; [|reflexivity].
  unfold wiringInv. rewrite Hc. simpl. split; [done|]. split; [done|]. intros t.
  rewrite initialEcSources_keys. apply Hl.
Qed.

Lemma bind_thrown {A B} (m : M A) (k : A → M B) st :
  is_thrown (m st).1 = true → is_thrown ((m ≫= k) st).1 = true.
Proof. unfold mbind, M_bind. by destruct (m st) as [[a|e] st']. Qed.

Lemma pullAll_quiet sched options subs st :
  (∀ i, atPullChanges sched i = []) → (∀ i, raisedAtPullChanges sched i = None) →
  forEach (pullChanges sched options) subs st = (Returned (), st).
Proof.
  intros Hq Hn. induction subs as [|sub subs IH]; [done|].
  rewrite forEach_cons. unfold mbind, M_bind, pullChanges.
  destruct (watchers options !! subWatcher sub) as [w|]; [|exact IH].
  msimpl. rewrite Hq, Hn. exact IH.
Qed.

(** ** What the construction leaves alone *)

Lemma onChange_sameWiring w tg c st : sameWiring st (onChange w tg c st).2.
Proof.
  destruct c as [v|v]; [apply sameWiring_refl|].
  destruct (e2n st w !! el v) as [n|] eqn:He.
  - rewrite (onChange_remove_eval _ _ _ _ _ He).
    destruct (getParent (theTree st) n) as [p|]; [|by repeat split].
    destruct (ownsNode (theTree st) p n); [|by repeat split].
    unfold removeTaggedNode, tree_removeTaggedNode.
    destruct (detachNode _ _ _ _); by repeat split.
  - unfold onChange, mbind, M_bind, gets, throw. rewrite He. apply sameWiring_refl.
Qed.

Lemma runDelivery_sameWiring w tg ownedBy d st :
  sameWiring st (runDelivery w tg ownedBy d st).2.
Proof.
  destruct d as [ec|changes]; simpl.
  - apply placeCallback_sameWiring.
  - apply (forEach_invariant sameWiring); [apply sameWiring_refl|apply sameWiring_trans|].
    intros c st1. apply onChange_sameWiring.
Qed.

Lemma pullChanges_sameWiring sched options sub st :
  sameWiring st (pullChanges sched options sub st).2.
Proof.
  unfold pullChanges. destruct (watchers options !! subWatcher sub) as [w|];
    [|apply sameWiring_refl].
  unfold mbind, M_bind, gets.
  match goal with |- context [forEach ?f ?l ?s] =>
    pose proof (forEach_invariant sameWiring f l sameWiring_refl sameWiring_trans
                  (λ d st1, runDelivery_sameWiring (subWatcher sub) (wtag w) _ d st1) s) as Hp;
    set (r := forEach f l s) in * end.
  destruct r as [[[]|e] st2]; simpl in *; [|done].
  by destruct (raisedAtPullChanges sched (subWatcher sub)).
Qed.

Lemma pullAll_sameWiring sched options subs st :
  sameWiring st (forEach (pullChanges sched options) subs st).2.
Proof.
  apply (forEach_invariant sameWiring); [apply sameWiring_refl|apply sameWiring_trans|].
  intros sub st1. apply pullChanges_sameWiring.
Qed.

Lemma wireWatcher_sink sched i w st :
  loggedErrors (wireWatcher sched (i, w) st).2 = loggedErrors st.
Proof.
  unfold wireWatcher. msimpl.
  destruct (_tagOptions st !! wtag w) as [tagOptions|]; [|done].
  pose proof (mapM_resolveSource_state (sources w) st) as Hs.
  destruct (mapM resolveSource (sources w) st) as [[srcs|e] st1]; simpl in Hs; subst st1;
    [|done].
  destruct (_watcherLiveSetTransformers st !! i); [|done]. simpl.
  match goal with |- context [forEach ?f ?l ?s] =>
    pose proof (forEach_invariant sameWiring f l sameWiring_refl sameWiring_trans
                  (λ ec st1, placeCallback_sameWiring i (wtag w) (ownedBySet tagOptions) ec st1)
                  s) as Hp;
    set (r := forEach f l s) in * end.
  destruct r as [[[]|e] st2];
    simpl in Hp; destruct Hp as (P1 & P2 & P3 & P4 & P5); simpl in *; [|done].
  destruct (raisedAtSubscribe sched i); simpl; [done|].
  by destruct (_ecSources st2 !! wtag w).
Qed.

Lemma wireAll_sink sched l st :
  loggedErrors (forEach (wireWatcher sched) l st).2 = loggedErrors st.
Proof.
  apply (forEach_invariant (λ st st', loggedErrors st' = loggedErrors st)).
  - done.
  - intros st1 st2 st3 H12 H23. congruence.
  - intros [i w] st1. apply wireWatcher_sink.
Qed.

Lemma construct_no_root sched root options :
  hasElement root = None →
  newPageParserTree sched root options = (Thrown Err_missing_documentElement, blankInstance).
Proof. by destruct root as [[?|]|?]. Qed.

Lemma construct_compile_error sched root options rootEl e :
  hasElement root = Some rootEl →
  compileWatchers options = Thrown e →
  newPageParserTree sched root options = (Thrown e, compileFailedState rootEl options).
Proof.
  intros Hroot He. unfold newPageParserTree, construct, compileFailedState.
  destruct (collectTags options) as [tagOptions tagList] eqn:Hc.
  assert (Hrun : match root with
                 | RootDocument None => throw Err_missing_documentElement
                 | RootDocument (Some e) => mret e
                 | RootElement e => mret e
                 end blankInstance = (Returned rootEl, blankInstance)).
  { destruct root as [[?|]|?]; simpl in *; by simplify_eq. }
  unfold mbind at 1, M_bind at 1. rewrite Hrun. msimpl. by rewrite He.
Qed.

(** After the setup, the constructor wires the watchers and then flushes the
    subscriptions; the flush changes the tree and the element maps only. *)
Lemma construct_final sched root options rootEl ts :
  hasElement root = Some rootEl →
  compileWatchers options = Returned ts →
  sameWiring (forEach (wireWatcher sched) (indexed (watchers options))
                (setupState rootEl options ts)).2
             (newPageParserTree sched root options).2.
Proof.
  intros Hroot Hts.
  destruct (construct_setup sched root options rootEl ts Hroot Hts) as [_ ->].
  unfold mbind, M_bind, gets.
  destruct (forEach (wireWatcher sched) _ _) as [[[]|e] st1]; simpl;
    [apply pullAll_sameWiring|apply sameWiring_refl].
Qed.

Lemma construct_tagOptions sched root options rootEl :
  hasElement root = Some rootEl →
  _tagOptions (newPageParserTree sched root options).2 = (collectTags options).1.
Proof.
  intros Hroot. destruct (compileWatchers options) as [ts|e] eqn:Hts.
  - destruct (construct_final sched root options rootEl ts Hroot Hts) as (-> & _).
    destruct (construct_setup sched root options rootEl ts Hroot Hts) as [Hinv _].
    by destruct (wireAll_inv sched options ts (indexed (watchers options)) _ Hinv) as (-> & _).
  - by rewrite (construct_compile_error sched root options rootEl e Hroot Hts).
Qed.

Lemma forEach_invariant_in {A} (R : PageParserTree → PageParserTree → Prop)
    (f : A → M unit) (l : list A) :
  (∀ st, R st st) → (∀ st1 st2 st3, R st1 st2 → R st2 st3 → R st1 st3) →
  (∀ x st, x ∈ l → R st (f x st).2) →
  ∀ st, R st (forEach f l st).2.
Proof.
  intros Hrefl Htrans. induction l as [|x l IH]; intros Hf st; simpl; [apply Hrefl|].
  unfold mbind, M_bind. pose proof (Hf x st (list_elem_of_here _ _)) as Hx.
  destruct (f x st) as [[[]|e] st1]; simpl in *; [|done].
  eapply Htrans; [exact Hx|]. apply IH. intros y st2 Hy. apply Hf. by right.
Qed.

Lemma elem_of_indexed {A} (l : list A) (i : nat) (x : A) :
  (i, x) ∈ indexed l → l !! i = Some x.
Proof.
  unfold indexed. intros (j & y & Heq & Hj)%elem_of_lookup_imap. by injection Heq as -> ->.
Qed.

(** A watcher for which live-set maps no element while it is subscribed
    leaves the tree as it is, whatever the outcome of its wiring. *)
Lemma wireWatcher_no_callback sched i w st :
  atSubscribe sched i = [] → tree (wireWatcher sched (i, w) st).2 = tree st.
Proof.
  intros Hq. unfold wireWatcher. msimpl.
  destruct (_tagOptions st !! wtag w) as [tagOptions|]; [|done].
  pose proof (mapM_resolveSource_state (sources w) st) as Hs.
  destruct (mapM resolveSource (sources w) st) as [[srcs|e] st1]; simpl in Hs; subst st1;
    [|done].
  destruct (_watcherLiveSetTransformers st !! i); [|done]. simpl.
  rewrite Hq. simpl. msimpl. destruct (raisedAtSubscribe sched i); simpl; [done|].
  by destruct (_ecSources st !! wtag w).
Qed.

Lemma wireEarlier_no_callback sched options i st :
  (∀ j, j < i → atSubscribe sched j = []) →
  tree (wireEarlier sched options i st).2 = tree st ∧
  loggedErrors (wireEarlier sched options i st).2 = loggedErrors st.
Proof.
  intros Hq. unfold wireEarlier. split; [|apply wireAll_sink].
  apply (forEach_invariant_in (λ st st', tree st' = tree st)).
  - done.
  - intros st1 st2 st3 H12 H23. congruence.
  - intros [j w] st1 Hj%elem_of_indexed. apply wireWatcher_no_callback, Hq.
    by apply lookup_take_Some in Hj as [_ Hj].
Qed.

Lemma construct_ecSources sched root options rootEl ts :
  hasElement root = Some rootEl →
  compileWatchers options = Returned ts →
  ∀ t, is_Some (_ecSources (newPageParserTree sched root options).2 !! t) ↔ declared options t.
Proof.
  intros Hroot Hts t.
  destruct (construct_final sched root options rootEl ts Hroot Hts) as (_ & _ & -> & _).
  destruct (construct_setup sched root options rootEl ts Hroot Hts) as [Hinv _].
  by destruct (wireAll_inv sched options ts (indexed (watchers options)) _ Hinv)
    as (_ & _ & Hkeys).
Qed.

(** C6, as the code has it. A watcher that names, among its sources, a
    non-empty tag that is neither declared in [options.tags] nor the
    destination of a watcher makes the constructor throw. When the root and
    the selector lists are valid and the earlier watchers are wired without
    an error, the error is 'Unknown source: <tag>' for the first source of
    the watcher that does not resolve, and the instance is as the earlier
    watchers left it: the watcher and its successors create no tree node.
    When live-set maps no element while the earlier watchers are subscribed,
    the tree holds its root only, whatever the earlier watchers did
    otherwise. A tag that is only the destination of a watcher counts as
    declared, whatever live-set delivers: it has options without an
    [ownedBy] list, it has a source set, and naming it as a source does not
    throw. *)
Theorem C6_unknown_source_fails_construction :
  (∀ sched root options w t,
     w ∈ watchers options → Some t ∈ sources w →
     t ≠ EmptyString → ¬ declared options t →
     is_thrown (newPageParserTree sched root options).1 = true) ∧
  (∀ sched root options rootEl ts i w pre t post st1,
     hasElement root = Some rootEl →
     compileWatchers options = Returned ts →
     watchers options !! i = Some w →
     sources w = pre ++ Some t :: post →
     Forall (resolvable options) pre →
     t ≠ EmptyString → ¬ declared options t →
     wireEarlier sched options i (setupState rootEl options ts) = (Returned (), st1) →
     newPageParserTree sched root options = (Thrown (Err_unknown_source t), st1)) ∧
  (∀ sched options rootEl ts i,
     (∀ j, j < i → atSubscribe sched j = []) →
     let st1 := (wireEarlier sched options i (setupState rootEl options ts)).2 in
     tree st1 = Some (newTagTree rootEl)) ∧
  (∀ sched root options rootEl t,
     hasElement root = Some rootEl →
     tags options !! t = None → isDestination options t →
     let st := (newPageParserTree sched root options).2 in
     declared options t ∧
     _tagOptions st !! t = Some (mkTagOptions None) ∧
     ownedBySet (mkTagOptions None) = ∅ ∧
     ∀ ts, compileWatchers options = Returned ts →
           is_Some (_ecSources st !! t) ∧
           (t ≠ EmptyString →
            resolveSource (Some t) (setupState rootEl options ts)
            = (Returned (EcSet t), setupState rootEl options ts))).
Proof.
  split; [|split; [|split]].
  - intros sched root options w t Hw Ht Hne Hd.
    destruct (hasElement root) as [rootEl|] eqn:Hroot.
    2: { by rewrite construct_no_root. }
    destruct (compileWatchers options) as [ts|e] eqn:Hts.
    2: { by rewrite (construct_compile_error sched root options rootEl e Hroot Hts). }
    destruct (construct_setup sched root options rootEl ts Hroot Hts) as (Hinv & ->).
    apply bind_thrown. rewrite indexed_indexedFrom.
    eapply wireAll_thrown; [exact Hinv|by exists w|done|done].
  - intros sched root options rootEl ts i w pre t post st1
           Hroot Hts Hi Hsrc Hpre Hne Hd Hearlier.
    destruct (construct_setup sched root options rootEl ts Hroot Hts) as (Hinv & ->).
    unfold wireEarlier in Hearlier.
    pose proof (wireAll_inv sched options ts (indexed (take i (watchers options))) _ Hinv)
      as Hinv1.
    rewrite Hearlier in Hinv1. simpl in Hinv1.
    unfold mbind at 1, M_bind at 1.
    rewrite <- (take_drop_middle _ _ _ Hi) at 1.
    rewrite indexed_indexedFrom, indexedFrom_app, forEach_app.
    unfold mbind at 1, M_bind at 1. rewrite <- indexed_indexedFrom, Hearlier.
    rewrite indexedFrom_cons, forEach_cons. unfold mbind at 1, M_bind at 1.
    by rewrite (wireWatcher_fail sched options ts _ w st1 pre t post Hinv1
                  (list_elem_of_lookup_2 _ _ _ Hi) Hsrc Hpre Hne Hd).
  - intros sched options rootEl ts i Hq st1. subst st1.
    by destruct (wireEarlier_no_callback sched options i (setupState rootEl options ts) Hq)
      as [-> _].
  - intros sched root options rootEl t Hroot Hn Hdest st.
    assert (Hd : declared options t) by (by right).
    destruct (collectTags_spec options) as (_ & Hl & H3 & _).
    split; [exact Hd|]. split.
    { unfold st. rewrite (construct_tagOptions sched root options rootEl Hroot).
      by apply H3. }
    split; [reflexivity|]. intros ts Hts. split.
    { by apply (construct_ecSources sched root options rootEl ts Hroot Hts). }
    intros Hne. simpl. rewrite bool_decide_false by done. msimpl.
    destruct (list_to_map _ !! t) as [outs|] eqn:Ho; [done|].
    exfalso. apply Hl, initialEcSources_keys in Hd. rewrite Ho in Hd. by destruct Hd.
Qed.

Lemma C6_empty_string_source_does_not_throw :
  let options :=
    mkOptions ∅ [mkWatcher [Some EmptyString] "a" [SelString "div"]] in
  ¬ declared options EmptyString ∧
  (newPageParserTree quietSchedule (RootElement 0) options).1 = Returned ().
Proof.
  intros options. split; [|vm_compute; reflexivity].
  intros [[x Hx]|(w & Hw & Ht)]; subst options; simpl in *.
  - by rewrite lookup_empty in Hx.
  - apply list_elem_of_singleton in Hw as ->. discriminate.
Qed.

(** ** Concrete instances *)

Example or_keeps_the_matches_of_every_branch :
  match Embedded.makeLiveSetTransformer [SelOr [[SelString "div"]; [SelString "div"]]] with
  | Returned t =>
      el <$> t demoPage [rootContext 0] = [1; 2; 1; 2]
  | Thrown _ => False
  end.
Proof. reflexivity. Qed.

Example listen_test_adds_only_the_matching_element :
  WatchFilteredChildren.calls WatchFilteredChildren.listenScenario
    = [[ChangeAdd (mkEc 3 WatchFilteredChildren.testParents)]] ∧
  el <$> WatchFilteredChildren.values WatchFilteredChildren.listenScenario = [1; 3].
Proof. vm_compute. split; reflexivity. Qed.

Example log_with_empty_prefix_is_invalid :
  Embedded.compileItem (SelLog EmptyString) = Thrown Err_invalid_selector_item.
Proof. reflexivity. Qed.

(** What live-set maps while an earlier watcher is subscribed is in the tree
    when the sources of a later watcher fail to resolve. *)
Example earlier_watcher_keeps_its_node :
  let r := newPageParserTree mappingSchedule (RootElement 0) demoUnknownOptions in
  r.1 = Thrown (Err_unknown_source "nope") ∧
  controllerCalls (theTree r.2) = [AddTaggedValue 0 "a" 1] ∧
  e2n r.2 0 !! 1 = Some 1.
Proof. vm_compute. repeat split; reflexivity. Qed.

Lemma C1_witness :
  let watcher := mkWatcher [None] "a" demoWatchSelectors in
  hasWatch (selectors watcher) = true ∧
  ∃ e st, newPageParserTree quietSchedule (RootElement 0) demoWatchOptions = (Thrown e, st) ∧
          (e = Err_missing_documentElement ∨ compileError e) ∧ nothingWired st.
Proof.
  intros watcher.
  assert (Hin : watcher ∈ watchers demoWatchOptions) by (simpl; left).
  assert (Hw : hasWatch (selectors watcher) = true) by reflexivity.
  split; [exact Hw|].
  exact (proj1 (proj2 (proj2
    (C1_watch_makes_construction_throw quietSchedule (RootElement 0) demoWatchOptions
       watcher Hin Hw)))).
Defined.

Lemma demo_reachesPlacement : reachesPlacement 0 (mkEc 1 (parents (rootContext 0))).
Proof.
  exists [SelString "div"]. eexists. exists demoPage, [rootContext 0].
  split; [reflexivity|]. split.
  - intros x Hx. apply list_elem_of_singleton in Hx as ->. constructor.
  - vm_compute. left.
Defined.

Lemma C3_witness :
  ∃ st',
    placeElement 0 "a" ∅ (mkEc 1 (parents (rootContext 0))) demoState1
      = (Thrown Err_received_element_twice, st') ∧
    forEach (runDelivery 0 "a" ∅) [MapCall (mkEc 1 (parents (rootContext 0)))] demoState1
      = (Thrown Err_received_element_twice, st') ∧
    loggedErrors st' = loggedErrors demoState1.
Proof.
  apply (proj1 C3_duplicate_element_throws 0 0 "a"%string ∅
           (mkEc 1 (parents (rootContext 0))) demoState1 1 []).
  - exact demo_reachesPlacement.
  - vm_compute. reflexivity.
Defined.

(** The duplicate check does not see the node that another watcher with the
    same destination tag has placed for the element: element 1 has a node
    under "a", placed and tracked by watcher 0, and the pipeline of a watcher
    1 with destination "a" reports element 1 without any error; the tree
    then holds two nodes for the element under the tag. *)
Lemma C3_other_watcher_same_tag_does_not_throw :
  let st := demoState1 in
  let r := placeElement 1 "a" ∅ (mkEc 1 (parents (rootContext 0))) st in
  (treeNodes (theTree st) !! 1 = Some (mkNode 1 (Some "a"%string) (Some 0) []) ∧
   ownsNode (theTree st) 0 1 = true ∧ e2n st 0 !! 1 = Some 1) ∧
  r.1 = Returned (mkEc 1 (mkArray 2 [mkPair None 0; mkPair (Some "a"%string) 2])) ∧
  treeNodes (theTree r.2) !! 1 = Some (mkNode 1 (Some "a"%string) (Some 0) []) ∧
  treeNodes (theTree r.2) !! 2 = Some (mkNode 1 (Some "a"%string) (Some 0) []) ∧
  ownedOf (treeNodes (theTree r.2)) 0 = [1; 2].
Proof. vm_compute. repeat split; reflexivity. Qed.

Lemma demoState2_tree :
  theTree demoState2 =
  (tree_addTaggedValue 1 "b" 2 (tree_addTaggedValue 0 "a" 1 (newTagTree 0)).2).2.
Proof. vm_compute. reflexivity. Defined.

Lemma C5_witness :
  wfTree (theTree demoState2) ∧
  ∃ st1 st2,
    onChange 0 "a" (ChangeRemove (mkEc 1 (parents (rootContext 0)))) demoState2
      = (Returned (), st1) ∧
    onChange 1 "b" (ChangeRemove (mkEc 2 demoParents1)) st1 = (Returned (), st2) ∧
    theTree st2 = theTree st1 ∧
    controllerCalls (theTree st2) =
      controllerCalls (theTree demoState2) ++ [RemoveTaggedNode 0 "a" 1] ∧
    e2n st2 1 !! 2 = None.
Proof.
  assert (Hwf : wfTree (theTree demoState2)).
  { rewrite demoState2_tree. apply wfTree_add, wfTree_add, wfTree_new. }
  split; [exact Hwf|].
  apply (proj2 (C5_removal_detaches_only_owned_nodes demoState2 Hwf)
           0 "a"%string (mkEc 1 (parents (rootContext 0))) 1 0
           1 "b"%string (mkEc 2 demoParents1) 2 1).
  - vm_compute. reflexivity.
  - vm_compute. reflexivity.
  - vm_compute. reflexivity.
  - vm_compute. reflexivity.
  - vm_compute. reflexivity.
  - rewrite demoState2_tree. vm_compute. left.
  - apply owns_here.
Defined.

Lemma C6_witness :
  let ts := match compileWatchers demoUnknownOptions with Returned ts => ts | Thrown _ => [] end in
  let st1 := (wireEarlier quietSchedule demoUnknownOptions 1
                (setupState 0 demoUnknownOptions ts)).2 in
  newPageParserTree quietSchedule (RootElement 0) demoUnknownOptions
    = (Thrown (Err_unknown_source "nope"), st1) ∧
  tree st1 = Some (newTagTree 0).
Proof.
  intros ts st1.
  assert (Hnope : ¬ declared demoUnknownOptions "nope").
  { intros [[x Hx]|(w & Hw & Ht)]; simpl in *.
    - by rewrite lookup_empty in Hx.
    - apply elem_of_cons in Hw as [->|Hw]; [discriminate|].
      apply list_elem_of_singleton in Hw as ->. discriminate. }
  assert (Ha : resolvable demoUnknownOptions (Some "a"%string)).
  { right. right. eexists. split; [left|reflexivity]. }
  split; [|vm_compute; reflexivity].
  apply (proj1 (proj2 C6_unknown_source_fails_construction)
           quietSchedule (RootElement 0) demoUnknownOptions 0 ts 1
           (mkWatcher [Some "a"%string; Some "nope"%string] "b" [])
           [Some "a"%string] "nope"%string [] st1).
  - reflexivity.
  - reflexivity.
  - reflexivity.
  - reflexivity.
  - by constructor.
  - discriminate.
  - exact Hnope.
  - vm_compute. reflexivity.
Defined.

Lemma C9_witness :
  let r := placeElement 0 "a" ∅ (mkEc 1 (parents (rootContext 0))) demoState1 in
  r = (Thrown Err_received_element_twice, r.2) ∧
  ∃ p n0,
    findParentNode ∅ (items (parents (rootContext 0))) = Returned p ∧
    e2n demoState1 0 !! 1 = Some n0 ∧
    controllerCalls (theTree r.2) =
      controllerCalls (theTree demoState1) ++ [AddTaggedValue p "a" 1] ∧
    treeNodes (theTree r.2) !! nextNodeId (theTree demoState1)
      = Some (mkNode 1 (Some "a"%string) (Some p) []) ∧
    nextNodeId (theTree r.2) = S (nextNodeId (theTree demoState1)) ∧
    theTree r.2 ≠ theTree demoState1 ∧
    elementsToNodes r.2 = elementsToNodes demoState1 ∧
    e2n r.2 0 !! 1 = Some n0.
Proof.
  intros r.
  assert (Hr : r = (Thrown Err_received_element_twice, r.2)) by (vm_compute; reflexivity).
  split; [exact Hr|].
  exact (C9_duplicate_error_after_tree_mutation 0 "a"%string ∅
           (mkEc 1 (parents (rootContext 0))) demoState1 r.2 Hr).
Defined.

Lemma C10_witness :
  reachesPlacement 0 (mkEc 1 (parents (rootContext 0))) ∧
  (∃ rest, items (parents (rootContext 0)) = mkPair None 0 :: rest) ∧
  qualifies ∅ (mkPair None 0) = true ∧
  (∃ p, findParentNode ∅ (items (parents (rootContext 0))) = Returned p) ∧
  (placeElement 0 "a" ∅ (mkEc 1 (parents (rootContext 0))) demoState0).1 ≠ Thrown Err_blank.
Proof.
  split; [exact demo_reachesPlacement|].
  exact (C10_root_pair_heads_parents 0 (mkEc 1 (parents (rootContext 0))) 0 "a"%string ∅
           demoState0 demo_reachesPlacement).
Defined.

(** * Further properties of the compilers *)

(** ** Which selector lists compile *)

Lemma is_thrown_mapO {A B} (f : A → Outcome B) (l : list A) :
  is_thrown (mapO f l) = existsb (λ x, is_thrown (f x)) l.
Proof.
  induction l as [|x l IH]; simpl; [done|].
  destruct (f x); simpl; [|done]. rewrite <- IH. by destruct (mapO f l).
Qed.

Lemma is_thrown_makeWith compileItem (l : list Selector) :
  is_thrown (makeWith compileItem l) = existsb (λ x, is_thrown (compileItem x)) l.
Proof. unfold makeWith. rewrite <- is_thrown_mapO. by destruct (mapO compileItem l). Qed.

Lemma existsb_orb_Forall {A} (h f g : A → bool) (l : list A) :
  Forall (λ x, h x = f x || g x) l → existsb h l = existsb f l || existsb g l.
Proof.
  induction 1 as [|x l Hx _ IH]; simpl; [done|]. rewrite Hx, IH.
  destruct (f x), (g x), (existsb f l), (existsb g l); done.
Qed.

Lemma existsb_ext_Forall {A} (h f : A → bool) (l : list A) :
  Forall (λ x, h x = f x) l → existsb h l = existsb f l.
Proof. induction 1 as [|x l Hx _ IH]; simpl; [done|]. by rewrite Hx, IH. Qed.

Lemma is_thrown_or (make : list Selector → Outcome LiveSetTransformer)
    (branches : list (list Selector)) :
  is_thrown (obind (mapO make branches)
               (λ transformers,
                  Returned (λ page liveSet,
                     liveSetMerge (List.map (λ transformer : LiveSetTransformer,
                                               transformer page liveSet) transformers))))
  = existsb (λ b, is_thrown (make b)) branches.
Proof. rewrite <- is_thrown_mapO. by destruct (mapO make branches). Qed.

Lemma Embedded_compileItem_is_thrown (item : Selector) :
  is_thrown (Embedded.compileItem item) = itemHasWatch item || itemIsInvalid item.
Proof.
  induction item as [s|f|f|a c|branches IH|s|] using Selector_ind; simpl; try done.
  - rewrite is_thrown_or. apply existsb_orb_Forall.
    eapply Forall_impl; [exact IH|]. intros b Hb. simpl.
    rewrite is_thrown_makeWith. by apply existsb_orb_Forall.
  - by case_bool_decide.
Qed.

Lemma Standalone_compileItem_is_thrown (item : Selector) :
  is_thrown (Standalone.compileItem item) = itemIsInvalid item.
Proof.
  induction item as [s|f|f|a c|branches IH|s|] using Selector_ind; simpl; try done.
  - rewrite is_thrown_or. apply existsb_ext_Forall.
    eapply Forall_impl; [exact IH|]. intros b Hb. simpl.
    rewrite is_thrown_makeWith. by apply existsb_ext_Forall.
  - by case_bool_decide.
Qed.

Lemma Standalone_compileItem_error (item : Selector) (e : Error) :
  Standalone.compileItem item = Thrown e → e = Err_invalid_selector_item.
Proof.
  revert e. induction item as [s|f|f|a c|branches IH|s|] using Selector_ind;
    simpl; intros e; try discriminate.
  - destruct (mapO _ branches) as [ts|e'] eqn:Hb; simpl; [discriminate|].
    intros [= ->]. apply mapO_thrown_inv in Hb as (b & Hin & Hb).
    rewrite Forall_forall in IH. specialize (IH b Hin). unfold makeWith in Hb.
    destruct (mapO Standalone.compileItem b) as [ts|e'] eqn:Hl; simpl in Hb; [discriminate|].
    injection Hb as ->. apply mapO_thrown_inv in Hl as (i & Hi & Hl).
    rewrite Forall_forall in IH. by apply (IH i Hi).
  - case_bool_decide; [|discriminate]. by intros [= <-].
  - by intros [= <-].
Qed.

(** X1. The embedded compiler of [src/index.js] throws on a selector list
    exactly when the list holds, at the top level or in an [$or] branch at
    any depth, a [$watch] item, a [$log] item with the empty string, or an
    item with none of the known keys; every other list compiles. *)
Theorem X1_embedded_compiler_accepts (selectors : list Selector) :
  is_thrown (Embedded.makeLiveSetTransformer selectors)
  = hasWatch selectors || hasInvalid selectors.
Proof.
  unfold Embedded.makeLiveSetTransformer, hasWatch, hasInvalid.
  rewrite is_thrown_makeWith. apply existsb_orb_Forall, Forall_forall.
  intros item _. apply Embedded_compileItem_is_thrown.
Qed.

(** X2. The standalone compiler throws on a selector list exactly when the
    list holds, at any depth, a [$log] item with the empty string or an item
    with none of the known keys, and the error is then the invalid selector
    item error: it never throws 'TODO', and [$watch] items compile. *)
Theorem X2_standalone_compiler_accepts (selectors : list Selector) :
  is_thrown (Standalone.makeLiveSetTransformerFromSelectors selectors) = hasInvalid selectors ∧
  ∀ e, Standalone.makeLiveSetTransformerFromSelectors selectors = Thrown e →
       e = Err_invalid_selector_item.
Proof.
  unfold Standalone.makeLiveSetTransformerFromSelectors, hasInvalid. split.
  - rewrite is_thrown_makeWith. apply existsb_ext_Forall, Forall_forall.
    intros item _. apply Standalone_compileItem_is_thrown.
  - intros e. unfold makeWith.
    destruct (mapO _ selectors) as [ts|e'] eqn:Hts; simpl; [discriminate|].
    intros [= ->]. apply mapO_thrown_inv in Hts as (x & _ & Hx).
    by eapply Standalone_compileItem_error.
Qed.

(** ** Concatenated selector lists *)

Lemma mapO_app {A B} (f : A → Outcome B) (l1 l2 : list A) :
  mapO f (l1 ++ l2) =
  obind (mapO f l1) (λ ys1, obind (mapO f l2) (λ ys2, Returned (ys1 ++ ys2))).
Proof.
  induction l1 as [|x l1 IH]; simpl.
  - by destruct (mapO f l2).
  - destruct (f x) as [y|]; simpl; [|done]. rewrite IH.
    destruct (mapO f l1) as [ys1|]; simpl; [|done].
    by destruct (mapO f l2).
Qed.

Lemma makeWith_app compileItem (l1 l2 : list Selector) :
  match makeWith compileItem l1, makeWith compileItem l2 with
  | Returned t1, Returned t2 =>
      ∃ t, makeWith compileItem (l1 ++ l2) = Returned t ∧
           ∀ page input, t page input = t2 page (t1 page input)
  | Thrown e, _ => makeWith compileItem (l1 ++ l2) = Thrown e
  | Returned _, Thrown e => makeWith compileItem (l1 ++ l2) = Thrown e
  end.
Proof.
  unfold makeWith. rewrite mapO_app.
  destruct (mapO compileItem l1) as [ts1|]; simpl; [|done].
  destruct (mapO compileItem l2) as [ts2|]; simpl; [|done].
  eexists. split; [done|]. intros page input. apply reduceTransformers_app.
Qed.

(** X3. In both compilers the items of a selector list are applied from left
    to right: the pipeline of [l1 ++ l2] is the pipeline of [l2] applied to
    the output of the pipeline of [l1], the empty list compiles to the
    identity, and when one of the two parts does not compile the whole list
    throws the error of the first part that fails. *)
Theorem X3_selector_lists_compose :
  Embedded.makeLiveSetTransformer [] = Returned (λ _ liveSet, liveSet) ∧
  Standalone.makeLiveSetTransformerFromSelectors [] = Returned (λ _ liveSet, liveSet) ∧
  (∀ l1 l2,
     match Embedded.makeLiveSetTransformer l1, Embedded.makeLiveSetTransformer l2 with
     | Returned t1, Returned t2 =>
         ∃ t, Embedded.makeLiveSetTransformer (l1 ++ l2) = Returned t ∧
              ∀ page input, t page input = t2 page (t1 page input)
     | Thrown e, _ => Embedded.makeLiveSetTransformer (l1 ++ l2) = Thrown e
     | Returned _, Thrown e => Embedded.makeLiveSetTransformer (l1 ++ l2) = Thrown e
     end) ∧
  (∀ l1 l2,
     match Standalone.makeLiveSetTransformerFromSelectors l1,
           Standalone.makeLiveSetTransformerFromSelectors l2 with
     | Returned t1, Returned t2 =>
         ∃ t, Standalone.makeLiveSetTransformerFromSelectors (l1 ++ l2) = Returned t ∧
              ∀ page input, t page input = t2 page (t1 page input)
     | Thrown e, _ => Standalone.makeLiveSetTransformerFromSelectors (l1 ++ l2) = Thrown e
     | Returned _, Thrown e =>
         Standalone.makeLiveSetTransformerFromSelectors (l1 ++ l2) = Thrown e
     end).
Proof.
  split; [done|]. split; [done|]. split; intros l1 l2.
  - apply (makeWith_app Embedded.compileItem).
  - apply (makeWith_app Standalone.compileItem).
Qed.

(** ** Lists of filters *)

Lemma filter_filter_andb {A} (f g : A → bool) (l : list A) :
  List.filter g (List.filter f l) = List.filter (λ x, f x && g x) l.
Proof.
  induction l as [|x l IH]; simpl; [done|].
  destruct (f x); simpl; [|done]. destruct (g x); by rewrite IH.
Qed.

Lemma filter_true {A} (l : list A) : List.filter (λ _, true) l = l.
Proof. induction l as [|x l IH]; simpl; [done|]. by rewrite IH. Qed.

Lemma filterItems_reduce (compileItem : Selector → Outcome LiveSetTransformer)
    (l : list Selector) :
  (∀ item, isFilterItem item = true →
     compileItem item = Returned (λ _ liveSet, liveSetFilter liveSet (filterTest item))) →
  forallb isFilterItem l = true →
  ∃ ts, mapO compileItem l = Returned ts ∧
        ∀ page input,
          reduceTransformers ts page input
          = List.filter (λ ec, forallb (λ item, filterTest item ec) l) input.
Proof.
  intros Hci. induction l as [|item l IH]; simpl; intros Hl.
  - exists []. split; [done|]. intros page input. by rewrite filter_true.
  - apply andb_prop in Hl as [Hi Hl]. destruct (IH Hl) as (ts & Hts & Heq).
    rewrite (Hci item Hi), Hts. simpl. eexists. split; [done|].
    intros page input. rewrite reduceTransformers_cons, Heq.
    unfold liveSetFilter. apply filter_filter_andb.
Qed.

Lemma Embedded_compileItem_filter (item : Selector) :
  isFilterItem item = true →
  Embedded.compileItem item = Returned (λ _ liveSet, liveSetFilter liveSet (filterTest item)).
Proof. destruct item; simpl; try done. by case_bool_decide. Qed.

Lemma Standalone_compileItem_filter (item : Selector) :
  isFilterItem item = true →
  Standalone.compileItem item = Returned (λ _ liveSet, liveSetFilter liveSet (filterTest item)).
Proof. destruct item; simpl; try done. by case_bool_decide. Qed.

(** X4. A selector list made of [$filter] items and [$log] items with a
    prefix that is not empty compiles, in both compilers, to the pipeline
    that keeps, in their order and unchanged, exactly the input contexts
    whose element passes every [$filter] predicate of the list; the [$log]
    items drop nothing. *)
Theorem X4_filters_keep_what_passes_all (selectors : list Selector) :
  forallb isFilterItem selectors = true →
  ∃ t t',
    Embedded.makeLiveSetTransformer selectors = Returned t ∧
    Standalone.makeLiveSetTransformerFromSelectors selectors = Returned t' ∧
    ∀ page input,
      t page input = List.filter (λ ec, forallb (λ item, filterTest item ec) selectors) input ∧
      t' page input = t page input.
Proof.
  intros Hl.
  destruct (filterItems_reduce Embedded.compileItem selectors
              Embedded_compileItem_filter Hl) as (ts & Hts & Heq).
  destruct (filterItems_reduce Standalone.compileItem selectors
              Standalone_compileItem_filter Hl) as (ts' & Hts' & Heq').
  exists (reduceTransformers ts), (reduceTransformers ts').
  split; [unfold Embedded.makeLiveSetTransformer, makeWith; by rewrite Hts|].
  split; [unfold Standalone.makeLiveSetTransformerFromSelectors, makeWith; by rewrite Hts'|].
  intros page input. by rewrite Heq, Heq'.
Qed.

Lemma X4_witness :
  ∃ t t',
    Embedded.makeLiveSetTransformer [SelFilter (λ e, e =? 1); SelLog "seen"] = Returned t ∧
    Standalone.makeLiveSetTransformerFromSelectors [SelFilter (λ e, e =? 1); SelLog "seen"]
      = Returned t' ∧
    ∀ page input,
      t page input
      = List.filter (λ ec, forallb (λ item, filterTest item ec)
                             [SelFilter (λ e, e =? 1); SelLog "seen"]) input ∧
      t' page input = t page input.
Proof. apply (X4_filters_keep_what_passes_all [SelFilter (λ e, e =? 1); SelLog "seen"]). reflexivity. Defined.

(** ** Empty and single-branch [$or] *)

Lemma emptyOnEmpty_reduce ts : Forall emptyOnEmpty ts → emptyOnEmpty (reduceTransformers ts).
Proof.
  induction 1 as [|t ts Ht _ IH]; intros page; [done|].
  by rewrite reduceTransformers_cons, Ht.
Qed.

Lemma emptyOnEmpty_merge (ts : list LiveSetTransformer) :
  Forall emptyOnEmpty ts →
  emptyOnEmpty (λ page liveSet,
    liveSetMerge (List.map (λ transformer : LiveSetTransformer, transformer page liveSet) ts)).
Proof.
  intros Hts page. unfold liveSetMerge.
  induction Hts as [|t ts Ht _ IH]; simpl; [done|]. by rewrite Ht, IH.
Qed.

Lemma Embedded_compileItem_emptyOnEmpty (item : Selector) (t : LiveSetTransformer) :
  Embedded.compileItem item = Returned t → emptyOnEmpty t.
Proof.
  revert t. induction item as [s|f|f|a c|branches IH|s|] using Selector_ind;
    simpl; intros t; try discriminate; try by intros [= <-].
  - destruct (mapO _ branches) as [ts|] eqn:Hb; simpl; [|discriminate].
    intros [= <-]. apply emptyOnEmpty_merge.
    eapply branches_compile_Forall; [apply emptyOnEmpty_reduce|exact IH|exact Hb].
  - case_bool_decide; [discriminate|]. by intros [= <-].
Qed.

Lemma Standalone_compileItem_emptyOnEmpty (item : Selector) (t : LiveSetTransformer) :
  Standalone.compileItem item = Returned t → emptyOnEmpty t.
Proof.
  revert t. induction item as [s|f|f|a c|branches IH|s|] using Selector_ind;
    simpl; intros t; try discriminate; try by intros [= <-].
  - destruct (mapO _ branches) as [ts|] eqn:Hb; simpl; [|discriminate].
    intros [= <-]. apply emptyOnEmpty_merge.
    eapply branches_compile_Forall; [apply emptyOnEmpty_reduce|exact IH|exact Hb].
  - case_bool_decide; [discriminate|]. by intros [= <-].
Qed.

Lemma makeWith_emptyOnEmpty (compileItem : Selector → Outcome LiveSetTransformer) :
  (∀ item t, compileItem item = Returned t → emptyOnEmpty t) →
  ∀ l t, makeWith compileItem l = Returned t → emptyOnEmpty t.
Proof.
  intros Hci l t. unfold makeWith.
  destruct (mapO compileItem l) as [ts|] eqn:Hts; simpl; [|discriminate].
  intros [= <-]. apply emptyOnEmpty_reduce.
  eapply mapO_compile_Forall; [|exact Hts].
  apply Forall_forall. intros item _ ti. apply Hci.
Qed.

Section OrEdges.
Variable compileItem : Selector → Outcome LiveSetTransformer.

Hypothesis compileItem_or : ∀ branches,
  compileItem (SelOr branches) =
  obind (mapO (makeWith compileItem) branches)
    (λ transformers,
       Returned (λ page liveSet,
          liveSetMerge (List.map (λ transformer : LiveSetTransformer,
                                    transformer page liveSet) transformers))).

Hypothesis compiled_emptyOnEmpty : ∀ item t, compileItem item = Returned t → emptyOnEmpty t.

Lemma or_empty pre post t :
  makeWith compileItem (pre ++ SelOr [] :: post) = Returned t →
  ∀ page input, t page input = [].
Proof using compileItem_or compiled_emptyOnEmpty.
  intros Ht page input.
  destruct (or_split compileItem compileItem_or pre [] post t Ht)
    as (tpre & tbs & tpost & _ & Hbs & Hpost & Heq).
  apply Forall2_nil_inv_l in Hbs as ->. rewrite Heq. simpl.
  by apply (makeWith_emptyOnEmpty compileItem compiled_emptyOnEmpty post).
Qed.

Lemma or_single pre branch post t :
  makeWith compileItem (pre ++ SelOr [branch] :: post) = Returned t →
  ∃ t', makeWith compileItem (pre ++ branch ++ post) = Returned t' ∧
        ∀ page input, t page input = t' page input.
Proof using compileItem_or.
  intros Ht.
  destruct (or_split compileItem compileItem_or pre [branch] post t Ht)
    as (tpre & tbs & tpost & Hpre & Hbs & Hpost & Heq).
  apply Forall2_cons_inv_l in Hbs as (tb & tbs' & Hb & Hnil & ->).
  apply Forall2_nil_inv_l in Hnil as ->.
  pose proof (makeWith_app compileItem branch post) as H1. rewrite Hb, Hpost in H1.
  destruct H1 as (tbp & Hbp & Heq1).
  pose proof (makeWith_app compileItem pre (branch ++ post)) as H2. rewrite Hpre, Hbp in H2.
  destruct H2 as (t' & Ht' & Heq2).
  exists t'. split; [done|]. intros page input.
  rewrite Heq, Heq2, Heq1. unfold liveSetMerge. simpl. by rewrite app_nil_r.
Qed.
End OrEdges.

(** X5. The two edge cases of [$or], in both compilers. A list with an
    [$or] that has no branch compiles when the rest of it does, and its
    pipeline puts out nothing on any input: the merge of no sets is empty and
    every later stage maps the empty set to the empty set. An [$or] with one
    branch gives the same pipeline as that branch written in its place. *)
Theorem X5_or_without_or_with_one_branch :
  (∀ pre post t,
     Embedded.makeLiveSetTransformer (pre ++ SelOr [] :: post) = Returned t →
     ∀ page input, t page input = []) ∧
  (∀ pre post t,
     Standalone.makeLiveSetTransformerFromSelectors (pre ++ SelOr [] :: post) = Returned t →
     ∀ page input, t page input = []) ∧
  (∀ pre branch post t,
     Embedded.makeLiveSetTransformer (pre ++ SelOr [branch] :: post) = Returned t →
     ∃ t', Embedded.makeLiveSetTransformer (pre ++ branch ++ post) = Returned t' ∧
           ∀ page input, t page input = t' page input) ∧
  (∀ pre branch post t,
     Standalone.makeLiveSetTransformerFromSelectors (pre ++ SelOr [branch] :: post)
       = Returned t →
     ∃ t', Standalone.makeLiveSetTransformerFromSelectors (pre ++ branch ++ post)
             = Returned t' ∧
           ∀ page input, t page input = t' page input).
Proof.
  split; [|split; [|split]].
  - apply (or_empty Embedded.compileItem (λ _, eq_refl) Embedded_compileItem_emptyOnEmpty).
  - apply (or_empty Standalone.compileItem (λ _, eq_refl) Standalone_compileItem_emptyOnEmpty).
  - apply (or_single Embedded.compileItem (λ _, eq_refl)).
  - apply (or_single Standalone.compileItem (λ _, eq_refl)).
Qed.

Lemma X5_witness :
  (∃ t, Embedded.makeLiveSetTransformer demoEmptyOr = Returned t ∧
        ∀ page input, t page input = []) ∧
  (∃ t t', Embedded.makeLiveSetTransformer demoSingleOr = Returned t ∧
           Embedded.makeLiveSetTransformer
             ([SelString "div"] ++ [SelFilter (λ e, e =? 1)] ++ [SelLog "seen"]) = Returned t' ∧
           ∀ page input, t page input = t' page input).
Proof.
  split.
  - eexists. split; [reflexivity|].
    apply (proj1 X5_or_without_or_with_one_branch
             [SelString "div"] [SelFilter (λ _, true)]). reflexivity.
  - destruct (proj1 (proj2 (proj2 X5_or_without_or_with_one_branch))
                [SelString "div"] [SelFilter (λ e, e =? 1)] [SelLog "seen"] _ eq_refl)
      as (t' & Ht' & Heq).
    eexists _, t'. split; [reflexivity|]. split; [exact Ht'|exact Heq].
Defined.

(** ** Pipelines without [$map] *)

Lemma descendsFrom_trans page a b c :
  descendsFrom page a b → descendsFrom page b c → descendsFrom page a c.
Proof. intros Hab. induction 1 as [|d c' _ IH Hc]; [done|]. by eapply descends_child. Qed.

Lemma staysBelow_reduce ts : Forall staysBelow ts → staysBelow (reduceTransformers ts).
Proof.
  induction 1 as [|t ts Ht _ IH]; intros page input out.
  - intros Hout. exists out. split; [done|]. split; [constructor|done].
  - rewrite reduceTransformers_cons. intros Hout.
    destruct (IH _ _ _ Hout) as (mid & Hmid & Hd1 & ->).
    destruct (Ht _ _ _ Hmid) as (ec & Hec & Hd2 & ->).
    exists ec. split; [done|]. split; [by eapply descendsFrom_trans|done].
Qed.

Lemma staysBelow_merge (ts : list LiveSetTransformer) :
  Forall staysBelow ts →
  staysBelow (λ page liveSet,
    liveSetMerge (List.map (λ transformer : LiveSetTransformer, transformer page liveSet) ts)).
Proof.
  intros Hts page input out Hout. unfold liveSetMerge in Hout.
  apply list_elem_of_In, in_concat in Hout as (l & Hl & Hout).
  apply in_map_iff in Hl as (t & <- & Ht).
  rewrite Forall_forall in Hts. apply (Hts t (proj2 (list_elem_of_In _ _) Ht) page).
  by apply list_elem_of_In.
Qed.

Lemma staysBelow_filter (filterFn : ElementContext → bool) :
  staysBelow (λ page liveSet, liveSetFilter liveSet filterFn).
Proof.
  intros page input out Hout. unfold liveSetFilter in Hout.
  apply list_elem_of_In, filter_In in Hout as [Hout _].
  exists out. split; [by apply list_elem_of_In|]. split; [constructor|done].
Qed.

Lemma staysBelow_children (keep : Page → Element → bool) :
  staysBelow (λ page liveSet,
    liveSetFlatMap liveSet
      (λ ec, List.map (λ e, mkEc e (parents ec))
               (List.filter (keep page) (children page (el ec))))).
Proof.
  intros page input out Hout. unfold liveSetFlatMap in Hout.
  apply list_elem_of_In, in_flat_map in Hout as (ec & Hec & Hout).
  apply in_map_iff in Hout as (e & <- & He). apply filter_In in He as [He _].
  exists ec. split; [by apply list_elem_of_In|]. split; [|done]. simpl.
  eapply descends_child; [constructor|by apply list_elem_of_In].
Qed.

Lemma nested_existsb_false {A} (f : A → bool) (ls : list (list A)) (l : list A) (x : A) :
  existsb (existsb f) ls = false → l ∈ ls → x ∈ l → f x = false.
Proof.
  intros Hf Hl Hx. destruct (f x) eqn:Hfx; [|done].
  apply not_true_iff_false in Hf. exfalso. apply Hf.
  apply existsb_exists. exists l. split; [by apply list_elem_of_In|].
  apply existsb_exists. exists x. split; [by apply list_elem_of_In|done].
Qed.

Lemma Embedded_compileItem_staysBelow (item : Selector) (t : LiveSetTransformer) :
  itemHasMap item = false →
  Embedded.compileItem item = Returned t → staysBelow t.
Proof.
  revert t. induction item as [s|f|f|a c|branches IH|s|] using Selector_ind;
    simpl; intros t Hm; try discriminate.
  - intros [= <-]. apply (staysBelow_children (λ page e, matchesSelector page e s)).
  - intros [= <-]. apply staysBelow_filter.
  - destruct (mapO _ branches) as [ts|] eqn:Hb; simpl; [|discriminate].
    intros [= <-]. apply staysBelow_merge.
    eapply branches_compile_Forall; [apply staysBelow_reduce| |exact Hb].
    apply Forall_forall. intros b Hb'. apply Forall_forall. intros i Hi ti.
    rewrite Forall_forall in IH. specialize (IH b Hb').
    rewrite Forall_forall in IH. apply (IH i Hi).
    by eapply nested_existsb_false.
  - case_bool_decide; [discriminate|]. intros [= <-]. apply staysBelow_filter.
Qed.

(** X6. A selector list without [$map] (at any depth) that the embedded
    compiler accepts gives a pipeline that never leaves the subtrees of its
    input: every context it puts out holds an element that is the element of
    some input context or lies below it in the page, and carries the
    [parents] array of that input context. *)
Theorem X6_without_map_only_descendants (selectors : list Selector) (t : LiveSetTransformer) :
  hasMap selectors = false →
  Embedded.makeLiveSetTransformer selectors = Returned t →
  staysBelow t.
Proof.
  unfold Embedded.makeLiveSetTransformer, makeWith. intros Hm.
  destruct (mapO _ selectors) as [ts|] eqn:Hts; simpl; [|discriminate].
  intros [= <-]. apply staysBelow_reduce.
  eapply mapO_compile_Forall; [|exact Hts].
  apply Forall_forall. intros item Hitem ti. apply Embedded_compileItem_staysBelow.
  destruct (itemHasMap item) eqn:Him; [|done].
  exfalso. apply not_true_iff_false in Hm. apply Hm.
  apply existsb_exists. exists item. split; [by apply list_elem_of_In|done].
Qed.

Lemma X6_witness :
  ∃ t, Embedded.makeLiveSetTransformer demoSingleOr = Returned t ∧ staysBelow t.
Proof.
  eexists. split; [reflexivity|].
  apply (X6_without_map_only_descendants demoSingleOr); reflexivity.
Defined.

(** * Further properties of the orchestrator *)

Lemma mapO_thrown_first {A B} (f : A → Outcome B) (l : list A) (e : Error) :
  mapO f l = Thrown e ↔
  ∃ i x, l !! i = Some x ∧ f x = Thrown e ∧
         ∀ j y, j < i → l !! j = Some y → is_thrown (f y) = false.
Proof.
  induction l as [|x l IH]; simpl.
  - split; [discriminate|]. by intros (i & y & Hi & _).
  - split.
    + destruct (f x) as [y|e'] eqn:Hx; simpl.
      * destruct (mapO f l) as [ys|e'] eqn:Hl; simpl; [discriminate|].
        intros [= ->]. destruct (proj1 IH eq_refl) as (i & x' & Hi & Hx' & Hbefore).
        exists (S i), x'. split; [done|]. split; [done|].
        intros [|j] y0 Hj Hy; simpl in Hy.
        -- injection Hy as <-. by rewrite Hx.
        -- apply (Hbefore j); [lia|done].
      * intros [= ->]. exists 0, x. split; [done|]. split; [done|]. intros j y Hj. lia.
    + intros ([|i] & x' & Hi & Hx' & Hbefore); simpl in Hi.
      * injection Hi as ->. by rewrite Hx'.
      * pose proof (Hbefore 0 x (Nat.lt_0_succ i) eq_refl) as H0.
        destruct (f x) as [y|]; [|discriminate]. simpl.
        rewrite (proj2 IH); [done|]. exists i, x'. split; [done|]. split; [done|].
        intros j y' Hj Hy'. apply (Hbefore (S j)); [lia|done].
Qed.

Lemma compileWatchers_error options e : compileWatchers options = Thrown e → compileError e.
Proof.
  intros He. apply mapO_thrown_inv in He as (w & _ & Hw).
  unfold Embedded.makeLiveSetTransformer, makeWith in Hw.
  destruct (mapO Embedded.compileItem (selectors w)) as [ts|e'] eqn:Hl; simpl in Hw;
    [discriminate|].
  injection Hw as ->. apply mapO_thrown_inv in Hl as (i & _ & Hi).
  by eapply Embedded_compileItem_error.
Qed.

(** X7. The order of the constructor's checks. A document without
    [documentElement] makes it throw 'missing documentElement' before it
    touches the instance, whatever the options are. With a root element, a
    selector list that does not compile makes it throw the compiler's error
    ('TODO' or an invalid selector item) after the tag options are stored
    and the tree is created, but before any watcher is wired, so also before
    any source is resolved; the error is that of the first watcher, in the
    order of [options.watchers], whose list does not compile. *)
Theorem X7_constructor_checks_in_order :
  (∀ sched options,
     newPageParserTree sched (RootDocument None) options
     = (Thrown Err_missing_documentElement, blankInstance)) ∧
  (∀ sched root options rootEl e,
     hasElement root = Some rootEl →
     compileWatchers options = Thrown e →
     newPageParserTree sched root options = (Thrown e, compileFailedState rootEl options) ∧
     nothingWired (compileFailedState rootEl options) ∧
     compileError e) ∧
  (∀ options e,
     compileWatchers options = Thrown e ↔
     ∃ i w, watchers options !! i = Some w ∧
            Embedded.makeLiveSetTransformer (selectors w) = Thrown e ∧
            ∀ j wj, j < i → watchers options !! j = Some wj →
                    is_thrown (Embedded.makeLiveSetTransformer (selectors wj)) = false).
Proof.
  split; [done|]. split.
  - intros sched root options rootEl e Hroot He.
    split; [by apply construct_compile_error|].
    split; [|by eapply compileWatchers_error].
    unfold nothingWired, compileFailedState. simpl. repeat split; try done; lia.
  - intros options e. unfold compileWatchers. apply mapO_thrown_first.
Qed.

Lemma X7_witness :
  newPageParserTree quietSchedule (RootElement 0) demoWatchOptions
  = (Thrown Err_TODO, compileFailedState 0 demoWatchOptions) ∧
  nothingWired (compileFailedState 0 demoWatchOptions) ∧
  compileError Err_TODO.
Proof.
  apply (proj1 (proj2 X7_constructor_checks_in_order)
           quietSchedule (RootElement 0) demoWatchOptions 0 Err_TODO); reflexivity.
Defined.

(** X8. Once the root is accepted, the tag options that the instance ends up
    with do not depend on what live-set delivers during the construction nor
    on whether a later step throws: a tag declared in [options.tags] keeps
    its declared options (its [ownedBy] list is never replaced by a watcher
    that names it as destination), a destination tag that is not declared
    gets empty options, and no other tag is known. *)
Theorem X8_declared_tag_options_are_kept
    (sched : LiveSetSchedule) (root : Root) (options : PageParserTreeOptions)
    (rootEl : Element) :
  hasElement root = Some rootEl →
  let st := (newPageParserTree sched root options).2 in
  (∀ t o, tags options !! t = Some o → _tagOptions st !! t = Some o) ∧
  (∀ t, tags options !! t = None → isDestination options t →
        _tagOptions st !! t = Some (mkTagOptions None)) ∧
  (∀ t, is_Some (_tagOptions st !! t) ↔ declared options t).
Proof.
  intros Hroot st. unfold st. rewrite (construct_tagOptions sched root options rootEl Hroot).
  destruct (collectTags_spec options) as (H1 & _ & H3 & H4).
  split; [exact H4|]. split; [exact H3|exact H1].
Qed.

Lemma X8_witness :
  _tagOptions (newPageParserTree mappingSchedule (RootElement 0) demoChainOptions).2
    !! "b"%string = Some (mkTagOptions (Some ["a"%string])).
Proof.
  apply (proj1 (X8_declared_tag_options_are_kept mappingSchedule (RootElement 0)
                  demoChainOptions 0 eq_refl)).
  reflexivity.
Defined.

(** ** What a construction without callbacks wires *)

Lemma initialEcSources_lookup (tagList : list (string * option (list string))) (t : string) :
  t ∈ tagList.*1 →
  (list_to_map ((λ t : string * option (list string), (t.1, [])) <$> tagList)
     : gmap string (list nat)) !! t = Some [].
Proof.
  intros Ht. apply initialEcSources_keys in Ht as [outs Ho]. rewrite Ho.
  apply elem_of_list_to_map_2, list_elem_of_fmap in Ho as (x & Hx & _).
  by injection Hx as _ ->.
Qed.

Lemma outputsOf_cons k x (ws : list (nat * Watcher)) t :
  outputsOf ((k, x) :: ws) t
  = if bool_decide (wtag x = t) then k :: outputsOf ws t else outputsOf ws t.
Proof. unfold outputsOf. simpl. by case_bool_decide. Qed.

Section QuietWiring.
Variable sched : LiveSetSchedule.
Variable options : PageParserTreeOptions.
Variable ts : list LiveSetTransformer.

Lemma mapM_resolveSource_eval st l :
  (∀ t, is_Some (_ecSources st !! t) ↔ declared options t) →
  Forall (resolvable options) l →
  mapM resolveSource l st = (Returned (sourceSetOf <$> l), st).
Proof.
  intros Hkeys. induction 1 as [|s l Hs _ IH]; [done|].
  rewrite mapM_cons. unfold mbind, M_bind.
  assert (Hsrc : resolveSource s st = (Returned (sourceSetOf s), st)).
  { destruct s as [t|]; simpl; [|done]. case_bool_decide as Ht; [done|].
    destruct Hs as [?|Hd]; [done|]. apply Hkeys in Hd as [outs Ho]. msimpl. by rewrite Ho. }
  by rewrite Hsrc, IH.
Qed.

Lemma wireWatcher_quiet_eval i w st :
  wiringInv options ts st → w ∈ watchers options →
  Forall (resolvable options) (sources w) →
  i < length ts → atSubscribe sched i = [] ∧ raisedAtSubscribe sched i = None →
  ∃ outputs, _ecSources st !! wtag w = Some outputs ∧
             wireWatcher sched (i, w) st = (Returned (), wiredState i w outputs st).
Proof.
  intros (Hto & Hts & Hkeys) Hw Hsrc Hi [Hq Hn]. unfold wireWatcher. msimpl.
  assert (Hdw : declared options (wtag w)) by (right; by exists w).
  pose proof Hdw as Hdw'.
  apply (proj1 (collectTags_spec options)) in Hdw as [tagOptions Hdw].
  rewrite Hto, Hdw, (mapM_resolveSource_eval st _ Hkeys Hsrc).
  rewrite Hts. destruct (lookup_lt_is_Some_2 ts i Hi) as [t ->]. simpl.
  rewrite Hq, Hn. simpl. msimpl.
  apply Hkeys in Hdw' as [outputs Ho]. rewrite Ho. simpl. by exists outputs.
Qed.

Lemma wireAll_quiet_eval ws :
  ∀ k st,
    wiringInv options ts st →
    (∀ j wj, ws !! j = Some wj →
             wj ∈ watchers options ∧ Forall (resolvable options) (sources wj) ∧
             k + j < length ts ∧
             (atSubscribe sched (k + j) = [] ∧ raisedAtSubscribe sched (k + j) = None)) →
    ∃ st', forEach (wireWatcher sched) (indexedFrom k ws) st = (Returned (), st') ∧
           _subscriptions st' = _subscriptions st ++ (subscriptionOf <$> indexedFrom k ws) ∧
           (∀ t outs, _ecSources st !! t = Some outs →
                      _ecSources st' !! t = Some (outs ++ outputsOf (indexedFrom k ws) t)) ∧
           (∀ t, _ecSources st !! t = None → _ecSources st' !! t = None) ∧
           (∀ i, elementsToNodes st' !! i =
                 if bool_decide (k ≤ i < k + length ws) then Some ∅
                 else elementsToNodes st !! i) ∧
           tree st' = tree st ∧
           _watcherLiveSetTransformers st' = _watcherLiveSetTransformers st.
Proof.
  induction ws as [|x ws IH]; intros k st Hinv Hall.
  { exists st. split; [done|]. split; [by rewrite app_nil_r|].
    split; [intros t outs ->; by rewrite app_nil_r|]. split; [done|].
    split; [|done]. intros i. rewrite bool_decide_false; [done|]. simpl. lia. }
  rewrite indexedFrom_cons, forEach_cons. unfold mbind, M_bind.
  destruct (Hall 0 x) as (Hx & Hxs & Hk & Hq); [done|].
  rewrite Nat.add_0_r in Hk, Hq.
  destruct (wireWatcher_quiet_eval k x st Hinv Hx Hxs Hk Hq) as (outputs & Ho & Hw).
  pose proof (wireWatcher_inv sched options ts k x st Hinv) as Hinv1.
  rewrite Hw in *. simpl in Hinv1.
  destruct (IH (S k) _ Hinv1) as (st' & -> & Hsubs & Hec & Hnone & He2n & Htree & Htr).
  { intros j wj Hwj. destruct (Hall (S j) wj) as (? & ? & ? & ?); [done|].
    replace (S k + j) with (k + S j) by lia. done. }
  exists st'. split; [done|]. split; [|split; [|split; [|split; [|done]]]].
  - rewrite Hsubs. simpl. by rewrite <- app_assoc.
  - intros t outs Ht. rewrite outputsOf_cons. case_bool_decide as Heq.
    + subst t. rewrite Ho in Ht. injection Ht as ->.
      rewrite (Hec (wtag x) (outs ++ [k])); [by rewrite <- app_assoc|].
      simpl. by rewrite lookup_insert_eq.
    + apply Hec. simpl. by rewrite lookup_insert_ne.
  - intros t Ht. apply Hnone. simpl. rewrite lookup_insert_ne; [done|].
    intros <-. congruence.
  - intros i. rewrite He2n. simpl.
    destruct (decide (i = k)) as [->|Hne].
    + rewrite bool_decide_false by lia. rewrite lookup_insert_eq.
      rewrite bool_decide_true; [done|lia].
    + rewrite lookup_insert_ne by done.
      repeat case_bool_decide; try done; lia.
Qed.
End QuietWiring.

(** X10. When the root is accepted, every selector list compiles, every
    source of every watcher resolves, no watcher draws on its own
    destination (directly or through other watchers), and live-set neither
    calls back nor meets an exception of the pipelines' code during the
    construction, the constructor returns and has wired every watcher
    exactly once, in the order of [options.watchers]: there is one
    subscription per watcher, on the sets named by its sources (null and the
    empty string name the root set, a tag names the set of that tag); the set
    of each known tag has received the output sets of exactly the watchers
    with that destination, in order; each watcher has an empty element map;
    and the tree holds its root only. *)
Theorem X10_quiet_construction_wires_every_watcher
    (sched : LiveSetSchedule) (root : Root) (options : PageParserTreeOptions)
    (rootEl : Element) (ts : list LiveSetTransformer) :
  hasElement root = Some rootEl →
  compileWatchers options = Returned ts →
  quiet sched →
  acyclic options →
  (∀ w, w ∈ watchers options → Forall (resolvable options) (sources w)) →
  ∃ st,
    newPageParserTree sched root options = (Returned (), st) ∧
    _subscriptions st = subscriptionOf <$> indexed (watchers options) ∧
    (∀ t, declared options t →
          _ecSources st !! t = Some (outputsOf (indexed (watchers options)) t)) ∧
    (∀ t, ¬ declared options t → _ecSources st !! t = None) ∧
    (∀ i, elementsToNodes st !! i =
          if bool_decide (i < length (watchers options)) then Some ∅ else None) ∧
    tree st = Some (newTagTree rootEl) ∧
    _watcherLiveSetTransformers st = ts.
Proof.
  intros Hroot Hts (Hqs & Hqp & Hns & Hnp) _ Hall.
  assert (Hlen : length ts = length (watchers options)).
  { unfold compileWatchers in Hts. apply mapO_returned_Forall2 in Hts.
    symmetry. by eapply Forall2_length. }
  destruct (construct_setup sched root options rootEl ts Hroot Hts) as (Hinv & ->).
  destruct (wireAll_quiet_eval sched options ts (watchers options) 0 _ Hinv)
    as (st & Hst & Hsubs & Hec & Hnone & He2n & Htree & Htr).
  { intros j wj Hwj. assert (wj ∈ watchers options) by (by eapply list_elem_of_lookup_2).
    split; [done|]. split; [by apply Hall|]. simpl.
    split; [|done]. rewrite Hlen. by eapply lookup_lt_Some. }
  exists st. unfold mbind at 1, M_bind at 1. rewrite indexed_indexedFrom, Hst.
  unfold mbind, M_bind, gets. rewrite pullAll_quiet by done.
  split; [done|]. split; [by rewrite Hsubs|].
  destruct (collectTags_spec options) as (_ & Hl & _).
  split; [|split; [|split; [|done]]].
  - intros t Hd. rewrite (Hec t []); [done|]. simpl.
    apply initialEcSources_lookup. by apply Hl.
  - intros t Hd. apply Hnone. simpl.
    destruct (list_to_map _ !! t) as [outs|] eqn:Ho; [|done].
    exfalso. apply Hd, Hl, initialEcSources_keys. rewrite Ho. by eexists.
  - intros i. rewrite He2n. simpl. repeat case_bool_decide; try done; lia.
Qed.

Lemma X10_witness :
  ∃ ts st,
    compileWatchers demoChainOptions = Returned ts ∧
    newPageParserTree quietSchedule (RootElement 0) demoChainOptions = (Returned (), st) ∧
    _subscriptions st = subscriptionOf <$> indexed (watchers demoChainOptions) ∧
    tree st = Some (newTagTree 0).
Proof.
  eexists.
  destruct (X10_quiet_construction_wires_every_watcher quietSchedule (RootElement 0)
              demoChainOptions 0 _ eq_refl eq_refl)
    as (st & Hst & Hsubs & _ & _ & _ & Htree & _).
  - by repeat split.
  - exists (λ t, if bool_decide (t = "b"%string) then 1 else 0). intros w t Hw Ht Hne.
    apply elem_of_cons in Hw as [->|Hw]; simpl in Ht.
    + apply list_elem_of_singleton in Ht. discriminate.
    + apply list_elem_of_singleton in Hw as ->. simpl in *.
      apply elem_of_cons in Ht as [[= ->]|Ht]; [vm_compute; lia|].
      apply list_elem_of_singleton in Ht as [= ->]. done.
  - assert (Ha : resolvable demoChainOptions (Some "a"%string)).
    { right. right. eexists. split; [left|reflexivity]. }
    intros w Hw. apply elem_of_cons in Hw as [->|Hw]; [by repeat constructor|].
    apply list_elem_of_singleton in Hw as ->.
    constructor; [exact Ha|]. constructor; [by left|constructor].
  - by exists st.
Defined.

(** ** Batches of changes *)

Lemma onChanges_adds w tg adds st :
  forallb isAdd adds = true → onChanges w tg adds st = (Returned (), st).
Proof.
  unfold onChanges. induction adds as [|c adds IH]; simpl; [done|].
  intros [Hc Hadds]%andb_prop. destruct c; [|discriminate]. by apply IH.
Qed.

(** X11. The subscriber of a watcher's output set ignores the additions of
    a batch (the nodes are created by the map callback), and a removal of an
    element that the watcher's own map does not hold makes it throw 'Should
    not happen: received removal of unseen element' without changing the
    instance: the changes that follow in the batch are not processed. *)
Theorem X11_removal_of_unseen_element_throws
    (w : nat) (tg : string) (adds : list Change) (v : ElementContext)
    (rest : list Change) (st : PageParserTree) :
  forallb isAdd adds = true →
  e2n st w !! el v = None →
  onChanges w tg adds st = (Returned (), st) ∧
  onChanges w tg (adds ++ ChangeRemove v :: rest) st
    = (Thrown Err_removal_of_unseen_element, st).
Proof.
  intros Hadds He. split; [by apply onChanges_adds|].
  unfold onChanges. rewrite forEach_app. unfold mbind at 1, M_bind at 1.
  fold (onChanges w tg adds). rewrite (onChanges_adds _ _ _ _ Hadds).
  rewrite forEach_cons. unfold mbind, M_bind. simpl. unfold mbind, M_bind, gets, throw.
  by rewrite He.
Qed.

Lemma X11_witness :
  onChanges 1 "b" [ChangeAdd (mkEc 1 demoParents1)] demoState1 = (Returned (), demoState1) ∧
  onChanges 1 "b" ([ChangeAdd (mkEc 1 demoParents1)]
                     ++ ChangeRemove (mkEc 1 demoParents1)
                     :: [ChangeRemove (mkEc 1 (parents (rootContext 0)))]) demoState1
    = (Thrown Err_removal_of_unseen_element, demoState1).
Proof.
  apply (X11_removal_of_unseen_element_throws 1 "b" [ChangeAdd (mkEc 1 demoParents1)]
           (mkEc 1 demoParents1) [ChangeRemove (mkEc 1 (parents (rootContext 0)))]
           demoState1).
  - reflexivity.
  - vm_compute. reflexivity.
Defined.

(** ** Placing an element and removing it again *)

Lemma filter_neq_fresh (l : list nat) (n : nat) :
  (∀ c, c ∈ l → c ≠ n) →
  List.filter (λ x, negb (x =? n)) (l ++ [n]) = l.
Proof.
  induction l as [|c l IH]; simpl; intros Hl.
  - by rewrite Nat.eqb_refl.
  - assert (c ≠ n) as Hc by (apply Hl; by left).
    apply Nat.eqb_neq in Hc. rewrite Hc. simpl. f_equal. apply IH.
    intros c' Hc'. apply Hl. by right.
Qed.

Lemma detachNode_leaf fuel ns p n :
  ownedOf ns n = [] →
  detachNode (S fuel) ns p n = Some (alter (removeOwnedNode n) p ns).
Proof. intros Hn. simpl. by rewrite Hn. Qed.

(** X12. Placing an element and then delivering its removal is a round
    trip. On a tree numbered by creation, when the parent that
    [findParentNode] returns is a node of the tree and the watcher does not
    track the element yet, the map callback returns a context for which the
    removal notification succeeds; afterwards every watcher's element map
    is as before, every node owns what it owned before, and the controller
    has received exactly one [addTaggedValue] and one [removeTaggedNode],
    both for the same parent and tag, the second for the node that the first
    created. *)
Theorem X12_place_then_remove_round_trip
    (w : nat) (tg : string) (ownedBy : gset string) (ec : ElementContext)
    (st : PageParserTree) (p : NodeId) :
  wfTree (theTree st) →
  is_Some (treeNodes (theTree st) !! p) →
  findParentNode ownedBy (items (parents ec)) = Returned p →
  e2n st w !! el ec = None →
  ∃ ec' st1 st2,
    placeElement w tg ownedBy ec st = (Returned ec', st1) ∧
    onChange w tg (ChangeRemove ec') st1 = (Returned (), st2) ∧
    (∀ w', e2n st2 w' = e2n st w') ∧
    controllerCalls (theTree st2) =
      controllerCalls (theTree st)
        ++ [AddTaggedValue p tg (el ec); RemoveTaggedNode p tg (nextNodeId (theTree st))] ∧
    (∀ m, ownedOf (treeNodes (theTree st2)) m = ownedOf (treeNodes (theTree st)) m).
Proof.
  intros [Hkeys Hedges] [np Hnp] Hf He.
  set (n := nextNodeId (theTree st)).
  assert (Hpn : p ≠ n).
  { assert (p < n) by (apply Hkeys; by eexists). lia. }
  assert (Hn : treeNodes (theTree st) !! n = None).
  { destruct (treeNodes (theTree st) !! n) eqn:Hx; [|done].
    assert (n < n) by (apply Hkeys; by eexists). lia. }
  rewrite (placeElement_found _ _ _ _ _ _ Hf).
  rewrite bool_decide_false by (rewrite He; by intros [? ?]).
  fold n. set (t1 := (tree_addTaggedValue p tg (el ec) (theTree st)).2).
  assert (Hnodes1 : treeNodes t1 =
            <[n := mkNode (el ec) (Some tg) (Some p) []]>
              (alter (addOwnedNode n) p (treeNodes (theTree st)))) by done.
  assert (Hnext1 : nextNodeId t1 = S n) by done.
  assert (Hcalls1 : controllerCalls t1
                    = controllerCalls (theTree st) ++ [AddTaggedValue p tg (el ec)]) by done.
  clearbody t1.
  assert (Hpar : getParent t1 n = Some p).
  { unfold getParent. by rewrite Hnodes1, lookup_insert_eq. }
  assert (Hown : ownsNode t1 p n = true).
  { unfold ownsNode, ownedOf.
    rewrite Hnodes1, lookup_insert_ne, lookup_alter_eq, Hnp by done. simpl.
    apply bool_decide_eq_true, elem_of_app. right. by left. }
  assert (Hleaf : ownedOf (treeNodes t1) n = []).
  { unfold ownedOf. by rewrite Hnodes1, lookup_insert_eq. }
  set (ec' := mkEc (el ec) _).
  set (st1 := setNextArrayId _ _).
  assert (He1 : e2n st1 w !! el ec' = Some n).
  { unfold e2n, st1. simpl. rewrite lookup_insert_eq. simpl. apply lookup_insert_eq. }
  exists ec', st1. eexists. split; [reflexivity|].
  rewrite (onChange_remove_eval _ _ _ _ n He1).
  change (theTree st1) with t1. rewrite Hpar, Hown.
  unfold removeTaggedNode. change (theTree (forget w (el ec') st1)) with t1.
  unfold tree_removeTaggedNode. rewrite (detachNode_leaf _ _ _ _ Hleaf).
  split; [reflexivity|]. split; [|split].
  - intros w'. unfold forget, st1. unfold e2n in *. simpl.
    destruct (decide (w' = w)) as [->|Hw].
    + rewrite !lookup_insert_eq. simpl. rewrite delete_insert_eq. by apply delete_id.
    + by rewrite !lookup_insert_ne.
  - unfold theTree at 1. simpl. by rewrite Hcalls1, <- app_assoc.
  - intros m. unfold theTree at 1. simpl. rewrite Hnodes1. unfold ownedOf.
    destruct (decide (m = p)) as [->|Hmp].
    + rewrite lookup_alter_eq, lookup_insert_ne, lookup_alter_eq, Hnp by done. simpl.
      apply filter_neq_fresh. intros c Hc.
      destruct (Hedges p c) as [_ Hlt]; [unfold ownedOf; by rewrite Hnp|]. fold n in Hlt. lia.
    + rewrite lookup_alter_ne by done. destruct (decide (m = n)) as [->|Hmn].
      * by rewrite lookup_insert_eq, Hn.
      * by rewrite lookup_insert_ne, lookup_alter_ne.
Qed.

Lemma X12_witness :
  ∃ ec' st1 st2,
    placeElement 0 "a" ∅ (mkEc 1 (parents (rootContext 0))) demoState0 = (Returned ec', st1) ∧
    onChange 0 "a" (ChangeRemove ec') st1 = (Returned (), st2) ∧
    (∀ w', e2n st2 w' = e2n demoState0 w') ∧
    controllerCalls (theTree st2) =
      controllerCalls (theTree demoState0)
        ++ [AddTaggedValue 0 "a" 1; RemoveTaggedNode 0 "a" (nextNodeId (theTree demoState0))] ∧
    (∀ m, ownedOf (treeNodes (theTree st2)) m = ownedOf (treeNodes (theTree demoState0)) m).
Proof.
  apply (X12_place_then_remove_round_trip 0 "a" ∅ (mkEc 1 (parents (rootContext 0)))
           demoState0 0).
  - apply wfTree_new.
  - vm_compute. by eexists.
  - reflexivity.
  - reflexivity.
Defined.

(** ** The element maps and the tree *)

Lemma tracked_start st :
  wfTree (theTree st) → elementsToNodes st = ∅ → tracked st.
Proof.
  intros Hwf He. split; [done|]. intros w e n. unfold e2n. rewrite He, lookup_empty. simpl.
  by rewrite lookup_empty.
Qed.

Lemma wfTree_empty : wfTree (mkTree ∅ 0 []).
Proof.
  split; simpl.
  - intros m [x Hx]. by rewrite lookup_empty in Hx.
  - intros m c. unfold ownedOf. rewrite lookup_empty. simpl. by intros ?%elem_of_nil.
Qed.

(** A node that was in the tree keeps its value and its parent when a value
    is added. *)
Lemma tree_addTaggedValue_old parent tg value t m nd :
  wfTree t → treeNodes t !! m = Some nd →
  ∃ nd', treeNodes (tree_addTaggedValue parent tg value t).2 !! m = Some nd' ∧
         nodeValue nd' = nodeValue nd ∧ nodeParent nd' = nodeParent nd.
Proof.
  intros [Hkeys _] Hm. simpl.
  assert (m < nextNodeId t) by (apply Hkeys; by eexists).
  rewrite lookup_insert_ne by lia.
  destruct (decide (m = parent)) as [->|Hne].
  - rewrite lookup_alter_eq, Hm. simpl. by eexists.
  - rewrite lookup_alter_ne by done. by exists nd.
Qed.

Lemma sameFrame_old ns ns' m nd :
  sameFrame ns ns' → ns !! m = Some nd →
  ∃ nd', ns' !! m = Some nd' ∧ nodeValue nd' = nodeValue nd ∧ nodeParent nd' = nodeParent nd.
Proof.
  intros Hf Hm. specialize (Hf m). rewrite Hm in Hf.
  destruct (ns' !! m) as [nd'|]; [|done]. simpl in Hf. injection Hf as Hv _ Hp.
  by exists nd'.
Qed.

Lemma tracked_placeElement w tg ownedBy ec st :
  tracked st → tracked (placeElement w tg ownedBy ec st).2.
Proof.
  intros [Hwf Hmap].
  destruct (findParentNode ownedBy (items (parents ec))) as [p|e] eqn:Hf.
  2: { pose proof (findParentNode_error _ _ _ Hf) as ->.
       by rewrite (placeElement_not_found _ _ _ _ _ Hf). }
  rewrite (placeElement_found _ _ _ _ _ _ Hf).
  assert (Hold : ∀ w' e n, e2n st w' !! e = Some n →
            ∃ nd, treeNodes (tree_addTaggedValue p tg (el ec) (theTree st)).2 !! n = Some nd ∧
                  nodeValue nd = e ∧ is_Some (nodeParent nd)).
  { intros w' e n He. destruct (Hmap w' e n He) as (nd & Hnd & Hv & Hp).
    destruct (tree_addTaggedValue_old p tg (el ec) _ n nd Hwf Hnd) as (nd' & Hnd' & Hv' & Hp').
    exists nd'. split; [done|]. split; congruence. }
  case_bool_decide; simpl; (split; [by apply wfTree_add|]).
  - exact Hold.
  - intros w' e n. unfold e2n at 1. simpl.
    destruct (decide (w' = w)) as [->|Hw].
    + rewrite lookup_insert_eq. simpl.
      destruct (decide (e = el ec)) as [->|He].
      * rewrite lookup_insert_eq. intros [= <-]. rewrite lookup_insert_eq.
        eexists. split; [done|]. split; [done|]. by eexists.
      * rewrite lookup_insert_ne by done. apply Hold.
    + rewrite lookup_insert_ne by done. apply (Hold w').
Qed.

Lemma removeTaggedNode_state parent tg n st :
  (removeTaggedNode parent tg n st).2
  = setTree (tree_removeTaggedNode parent tg n (theTree st)).2 st.
Proof. unfold removeTaggedNode. by destruct (tree_removeTaggedNode _ _ _ _). Qed.

Lemma tracked_forget w e st : tracked st → tracked (forget w e st).
Proof.
  intros [Hwf Hmap]. split; [done|]. intros w' e' n.
  destruct (decide (w = w')) as [<-|Hw].
  - rewrite e2n_forget_same. intros [_ He]%lookup_delete_Some. by apply (Hmap w).
  - rewrite e2n_forget_ne by done. apply Hmap.
Qed.

Lemma tracked_removeTaggedNode parent tg n st :
  tracked st → tracked (removeTaggedNode parent tg n st).2.
Proof.
  intros [Hwf Hmap]. rewrite removeTaggedNode_state.
  split; [by apply wfTree_remove|].
  intros w e n0 He. destruct (Hmap w e n0 He) as (nd & Hnd & Hv & Hp).
  destruct (tree_removeTaggedNode_returns parent tg n _ Hwf) as (nodes' & -> & Hd).
  apply detachNode_frame in Hd.
  destruct (sameFrame_old _ _ _ _ Hd Hnd) as (nd' & Hnd' & Hv' & Hp').
  exists nd'. split; [done|]. split; congruence.
Qed.

Lemma tracked_onChange w tg c st : tracked st → tracked (onChange w tg c st).2.
Proof.
  intros Ht. destruct c as [v|v]; [done|].
  destruct (e2n st w !! el v) as [n|] eqn:He.
  - rewrite (onChange_remove_eval _ _ _ _ _ He).
    destruct (getParent (theTree st) n) as [p|]; [|by apply tracked_forget].
    destruct (ownsNode (theTree st) p n); [|by apply tracked_forget].
    by apply tracked_removeTaggedNode, tracked_forget.
  - unfold onChange, mbind, M_bind, gets, throw. by rewrite He.
Qed.

Lemma forEach_preserves {A} (P : PageParserTree → Prop) (f : A → M unit) (l : list A) :
  (∀ x st, P st → P (f x st).2) → ∀ st, P st → P (forEach f l st).2.
Proof.
  intros Hf. apply (forEach_invariant (λ st st', P st → P st')).
  - done.
  - intros st1 st2 st3 H12 H23 H1. by apply H23, H12.
  - exact Hf.
Qed.

Lemma tracked_placeCallback w tg ownedBy ec st :
  tracked st → tracked ((placeElement w tg ownedBy ec ≫= λ _, mret ()) st).2.
Proof.
  intros Ht. unfold mbind, M_bind.
  pose proof (tracked_placeElement w tg ownedBy ec st Ht) as Hp.
  by destruct (placeElement w tg ownedBy ec st) as [[ec'|e] st1].
Qed.

Lemma tracked_runDelivery w tg ownedBy d st :
  tracked st → tracked (runDelivery w tg ownedBy d st).2.
Proof.
  destruct d as [ec|changes]; simpl.
  - apply tracked_placeCallback.
  - apply forEach_preserves. intros c st1. apply tracked_onChange.
Qed.

Lemma tracked_pullChanges sched options sub st :
  tracked st → tracked (pullChanges sched options sub st).2.
Proof.
  unfold pullChanges. destruct (watchers options !! subWatcher sub) as [w|]; [|done].
  unfold mbind, M_bind, gets. intros Ht.
  match goal with |- context [forEach ?f ?l ?s] =>
    pose proof (forEach_preserves tracked f l
                  (λ d st1, tracked_runDelivery (subWatcher sub) (wtag w) _ d st1) s Ht) as Hp;
    set (r := forEach f l s) in * end.
  destruct r as [[[]|e] st2]; simpl in *; [|done].
  by destruct (raisedAtPullChanges sched (subWatcher sub)).
Qed.

Lemma tracked_newMap i st :
  tracked st → tracked (setElementsToNodes (<[i := ∅]> (elementsToNodes st)) st).
Proof.
  intros [Hwf Hmap]. split; [done|]. intros w e n. unfold e2n at 1. simpl.
  destruct (decide (w = i)) as [->|Hw].
  - rewrite lookup_insert_eq. simpl. by rewrite lookup_empty.
  - rewrite lookup_insert_ne by done. apply Hmap.
Qed.

Lemma tracked_wireWatcher sched iw st :
  tracked st → tracked (wireWatcher sched iw st).2.
Proof.
  destruct iw as [i w]. intros Ht. unfold wireWatcher. msimpl.
  destruct (_tagOptions st !! wtag w) as [tagOptions|]; [|done].
  pose proof (mapM_resolveSource_state (sources w) st) as Hs.
  destruct (mapM resolveSource (sources w) st) as [[srcs|e] st1]; simpl in Hs; subst st1;
    [|done].
  destruct (_watcherLiveSetTransformers st !! i); [|done]. simpl.
  match goal with |- context [forEach ?f ?l ?s] =>
    pose proof (forEach_preserves tracked f l
                  (λ ec st1, tracked_placeCallback i (wtag w) (ownedBySet tagOptions) ec st1)
                  s (tracked_newMap i st Ht)) as Hp;
    set (r := forEach f l s) in * end.
  destruct r as [[[]|e] st2]; simpl in *; [|done].
  destruct (raisedAtSubscribe sched i); simpl; [done|].
  by destruct (_ecSources st2 !! wtag w).
Qed.

(** X13. The element maps and the tree stay consistent. Whatever live-set
    delivers, and whether or not a step throws, on the instance that the
    constructor leaves and after every later call of a watcher's callbacks:
    the tree is numbered by creation, and every element that a watcher
    tracks is mapped to a node of the tree that holds this very element and
    has a parent. Hence a watcher never maps two elements to the same
    node. *)
Theorem X13_element_maps_agree_with_the_tree :
  (∀ sched root options, tracked (newPageParserTree sched root options).2) ∧
  (∀ w tg ownedBy d st, tracked st → tracked (runDelivery w tg ownedBy d st).2) ∧
  (∀ st w e1 e2 n,
     tracked st → e2n st w !! e1 = Some n → e2n st w !! e2 = Some n → e1 = e2).
Proof.
  split; [|split].
  - intros sched root options. destruct (hasElement root) as [rootEl|] eqn:Hroot.
    2: { rewrite construct_no_root by done. by apply tracked_start; [apply wfTree_empty|]. }
    destruct (compileWatchers options) as [ts|e] eqn:Hts.
    2: { rewrite (construct_compile_error sched root options rootEl e Hroot Hts).
         by apply tracked_start; [apply wfTree_new|]. }
    destruct (construct_setup sched root options rootEl ts Hroot Hts) as [_ ->].
    assert (Hw : tracked (forEach (wireWatcher sched) (indexed (watchers options))
                            (setupState rootEl options ts)).2).
    { apply forEach_preserves; [intros iw st1; apply tracked_wireWatcher|].
      by apply tracked_start; [apply wfTree_new|]. }
    unfold mbind, M_bind, gets.
    destruct (forEach (wireWatcher sched) _ _) as [[[]|e] st1]; simpl in *; [|done].
    apply forEach_preserves; [|done]. intros sub st2. apply tracked_pullChanges.
  - intros w tg ownedBy d st. apply tracked_runDelivery.
  - intros st w e1 e2 n [_ Hmap] H1 H2.
    destruct (Hmap w e1 n H1) as (nd1 & Hn1 & <- & _).
    destruct (Hmap w e2 n H2) as (nd2 & Hn2 & <- & _). congruence.
Qed.

Lemma X13_witness :
  tracked demoState1 ∧
  tracked (runDelivery 1 "b" {["a"%string]} (MapCall (mkEc 2 demoParents1)) demoState1).2.
Proof.
  assert (Ht : tracked demoState1).
  { apply tracked_placeElement, tracked_start; [apply wfTree_new|reflexivity]. }
  split; [exact Ht|].
  by apply (proj1 (proj2 X13_element_maps_agree_with_the_tree)).
Defined.

(** ** The parent of a placed element *)

Lemma sourceContext_tagged rootEl ec : sourceContext rootEl ec → taggedBelowRoot ec.
Proof.
  induction 1 as [|selectors t page input ec w tg ownedBy st ec' st' Ht _ IH Hec Hp].
  - exists []. by split.
  - destruct (Embedded_makeLiveSetTransformer_sharesParents _ _ Ht _ _ _ Hec)
      as (x & Hx & Hpx).
    destruct (IH x Hx) as (rest & Hrest & Htags).
    destruct (placeElement_returned_parents _ _ _ _ _ _ _ Hp) as (arr & n & Hp').
    exists (rest ++ [mkPair (Some tg) n]). unfold taggedBelowRoot. rewrite Hp'. simpl.
    rewrite Hpx, Hrest. split; [done|].
    apply Forall_app. split; [done|]. constructor; [by eexists|constructor].
Qed.

Lemma reachesPlacement_tagged rootEl ec : reachesPlacement rootEl ec → taggedBelowRoot ec.
Proof.
  intros (selectors & t & page & input & Ht & Hin & Hec).
  destruct (Embedded_makeLiveSetTransformer_sharesParents _ _ Ht _ _ _ Hec) as (x & Hx & Hpx).
  destruct (sourceContext_tagged _ _ (Hin x Hx)) as (rest & Hrest & Htags).
  exists rest. by rewrite Hpx.
Qed.

Lemma find_snoc {A} (f : A → bool) (l : list A) (x : A) :
  List.find f (l ++ [x]) =
  match List.find f l with
  | Some y => Some y
  | None => if f x then Some x else None
  end.
Proof. induction l as [|y l IH]; simpl; [done|]. by destruct (f y). Qed.

Lemma find_none_Forall {A} (f : A → bool) (l : list A) :
  Forall (λ x, f x = false) l → List.find f l = None.
Proof. induction 1 as [|x l Hx _ IH]; simpl; [done|]. by rewrite Hx. Qed.



(** ** The tags handed to the tag tree *)

Lemma collectStep_fold_once (ws : list Watcher) :
  ∀ acc,
    (∀ t, is_Some (acc.1 !! t) ↔ t ∈ acc.2.*1) →
    NoDup acc.2.*1 →
    (∀ t ob, (t, ob) ∈ acc.2 → ∃ o, acc.1 !! t = Some o ∧ ownedBy o = ob) →
    let r := fold_left collectStep ws acc in
    NoDup r.2.*1 ∧
    (∀ t ob, (t, ob) ∈ r.2 → ∃ o, r.1 !! t = Some o ∧ ownedBy o = ob).
Proof.
  induction ws as [|w ws IH]; intros acc Hsync Hnd Hob; simpl; [done|].
  apply IH; unfold collectStep; case_bool_decide as Hd; simpl; try done.
  - intros t. rewrite fmap_app, elem_of_app, <- Hsync. simpl. rewrite list_elem_of_singleton.
    rewrite lookup_insert. case_decide as Heq.
    + subst t. split; [by right|by eexists].
    + split; [by left|]. intros [?|?]; [done|congruence].
  - rewrite fmap_app. simpl. apply NoDup_app. split; [done|]. split.
    + intros t Ht ->%list_elem_of_singleton. by apply Hd, Hsync.
    + apply NoDup_singleton.
  - intros t ob [Hin|Hin%list_elem_of_singleton]%elem_of_app.
    + destruct (Hob t ob Hin) as (o & Ho & Hown). exists o. split; [|done].
      rewrite lookup_insert_ne; [done|]. intros <-. apply Hd. by eexists.
    + injection Hin as -> ->. exists (mkTagOptions None). by rewrite lookup_insert_eq.
Qed.

(** X15. The [tags] array that the constructor hands to [new TagTree] (and
    from which it creates the per-tag source sets) lists every known tag
    exactly once: the tags declared in [options.tags], each with its
    declared [ownedBy] list, then the destination tags of the watchers that
    were not declared, each without one. A destination shared by several
    watchers, or declared as well, is not listed twice. *)
Theorem X15_tags_array_lists_each_tag_once (options : PageParserTreeOptions) :
  let r := collectTags options in
  NoDup r.2.*1 ∧
  (∀ t, t ∈ r.2.*1 ↔ declared options t) ∧
  (∀ t ob, (t, ob) ∈ r.2 →
     match tags options !! t with
     | Some o => ob = ownedBy o
     | None => ob = None ∧ isDestination options t
     end).
Proof.
  intros r. destruct (collectTags_spec options) as (H1 & H2 & H3 & H4). fold r in H1, H2, H3, H4.
  set (acc := (tags options,
               (λ kv : string * TagOptions, (kv.1, ownedBy kv.2)) <$> map_to_list (tags options))).
  assert (Hsync : ∀ t, is_Some (acc.1 !! t) ↔ t ∈ acc.2.*1).
  { intros t. unfold acc. simpl. rewrite <- list_fmap_compose.
    rewrite list_elem_of_fmap. split.
    - intros [o Ho]. exists (t, o). split; [done|]. by apply elem_of_map_to_list.
    - intros ([t' o] & -> & Hin). apply elem_of_map_to_list in Hin. by eexists. }
  assert (Hnd : NoDup acc.2.*1).
  { unfold acc. simpl. rewrite <- list_fmap_compose. apply NoDup_fst_map_to_list. }
  assert (Hob : ∀ t ob, (t, ob) ∈ acc.2 → ∃ o, acc.1 !! t = Some o ∧ ownedBy o = ob).
  { intros t ob. unfold acc. simpl. intros ([t' o] & Heq & Hin)%list_elem_of_fmap.
    injection Heq as -> ->. apply elem_of_map_to_list in Hin. by exists o. }
  destruct (collectStep_fold_once (watchers options) acc Hsync Hnd Hob) as [Hnd' Hob'].
  split; [exact Hnd'|]. split; [exact H2|].
  intros t ob Hin. destruct (Hob' t ob Hin) as (o & Ho & Hown).
  assert (Hd : declared options t).
  { apply H2, list_elem_of_fmap. by exists (t, ob). }
  destruct (tags options !! t) as [o'|] eqn:Ht.
  - specialize (H4 t o' Ht). unfold r in H4. unfold collectTags in Ho. fold acc in Ho.
    unfold collectTags in H4. fold acc in H4. congruence.
  - destruct Hd as [[? ?]|Hdest]; [congruence|]. split; [|done].
    specialize (H3 t Ht Hdest). unfold r, collectTags in H3. fold acc in H3.
    rewrite Ho in H3. injection H3 as ->. by rewrite <- Hown.
Qed.

(** ** Pipelines work context by context *)

Lemma flat_map_perm_ext {A B} (f g : A → list B) (l : list A) :
  (∀ x, f x ≡ₚ g x) → List.flat_map f l ≡ₚ List.flat_map g l.
Proof. intros Hfg. induction l as [|x l IH]; simpl; [done|]. by rewrite (Hfg x), IH. Qed.

Lemma flat_map_app_perm {A B} (f g : A → list B) (l : list A) :
  List.flat_map (λ x, f x ++ g x) l ≡ₚ List.flat_map f l ++ List.flat_map g l.
Proof.
  induction l as [|x l IH]; simpl; [done|]. rewrite IH, <- !app_assoc.
  apply Permutation_app_head. rewrite !app_assoc. apply Permutation_app_tail.
  apply Permutation_app_comm.
Qed.

Lemma flat_map_flat_map_eq {A B C} (f : A → list B) (g : B → list C) (l : list A) :
  List.flat_map g (List.flat_map f l) = List.flat_map (λ x, List.flat_map g (f x)) l.
Proof. induction l as [|x l IH]; simpl; [done|]. by rewrite flat_map_app, IH. Qed.

Lemma concat_flat_map_swap {A B C} (h : C → A → list B) (l : list A) (ts : list C) :
  List.concat (List.map (λ t, List.flat_map (h t) l) ts)
  ≡ₚ List.flat_map (λ x, List.concat (List.map (λ t, h t x) ts)) l.
Proof.
  induction ts as [|t ts IH]; simpl.
  - induction l as [|x l IHl]; simpl; [done|exact IHl].
  - by rewrite IH, flat_map_app_perm.
Qed.

Lemma compose_contextwise (t1 t2 : LiveSetTransformer) page input :
  contextwise t1 → contextwise t2 →
  t2 page (t1 page input) ≡ₚ List.flat_map (λ ec, t2 page (t1 page [ec])) input.
Proof.
  intros H1 H2. rewrite (H2 page (t1 page input)).
  rewrite (Permutation_flat_map _ (H1 page input)), flat_map_flat_map_eq.
  apply flat_map_perm_ext. intros ec. symmetry. apply H2.
Qed.

Lemma contextwise_reduce ts : Forall contextwise ts → contextwise (reduceTransformers ts).
Proof.
  induction 1 as [|t ts Ht _ IH]; intros page input.
  - unfold reduceTransformers. simpl.
    induction input as [|x l IHl]; simpl; [done|]. by constructor.
  - rewrite reduceTransformers_cons, (compose_contextwise t _ page input Ht IH).
    apply flat_map_perm_ext. intros ec. by rewrite reduceTransformers_cons.
Qed.

Lemma contextwise_merge (ts : list LiveSetTransformer) :
  Forall contextwise ts →
  contextwise (λ page liveSet,
    liveSetMerge (List.map (λ transformer : LiveSetTransformer, transformer page liveSet) ts)).
Proof.
  intros Hts page input. unfold liveSetMerge.
  rewrite <- (concat_flat_map_swap (λ (t : LiveSetTransformer) ec, t page [ec]) input ts).
  induction Hts as [|t ts Ht _ IH]; simpl; [done|]. by rewrite <- IH, <- (Ht page input).
Qed.

Lemma contextwise_filter (filterFn : ElementContext → bool) :
  contextwise (λ page liveSet, liveSetFilter liveSet filterFn).
Proof.
  intros page input. unfold liveSetFilter.
  induction input as [|x l IH]; simpl; [done|]. destruct (filterFn x); simpl; [|done].
  by constructor.
Qed.

Lemma contextwise_flatMap (flatMapFn : Page → ElementContext → list ElementContext) :
  contextwise (λ page liveSet, liveSetFlatMap liveSet (flatMapFn page)).
Proof.
  intros page input. unfold liveSetFlatMap.
  induction input as [|x l IH]; simpl; [done|]. rewrite app_nil_r.
  by apply Permutation_app_head.
Qed.

Lemma contextwise_map (fn : Element → option Element) :
  contextwise (λ page liveSet, liveSetTransduce liveSet (mapTransducer fn)).
Proof.
  intros page input. unfold liveSetTransduce, mapTransducer, t_compose, t_map, t_filter.
  induction input as [|x l IH]; simpl; [done|].
  destruct (fn (el x)) as [e|]; simpl; [|done]. by constructor.
Qed.

Lemma Embedded_compileItem_contextwise (item : Selector) (t : LiveSetTransformer) :
  Embedded.compileItem item = Returned t → contextwise t.
Proof.
  revert t. induction item as [s|f|f|a c|branches IH|s|] using Selector_ind;
    simpl; intros t; try discriminate.
  - intros [= <-].
    apply (contextwise_flatMap
             (λ page ec, liveSetTransduce (makeElementChildLiveSet page (el ec))
                           (t_compose (t_filter (λ e, matchesSelector page e s))
                                      (t_map (λ e, mkEc e (parents ec)))))).
  - intros [= <-]. apply contextwise_filter.
  - intros [= <-]. apply contextwise_map.
  - destruct (mapO _ branches) as [ts|] eqn:Hb; simpl; [|discriminate].
    intros [= <-]. apply contextwise_merge.
    eapply branches_compile_Forall; [apply contextwise_reduce|exact IH|exact Hb].
  - case_bool_decide; [discriminate|]. intros [= <-]. apply contextwise_filter.
Qed.

Lemma Standalone_compileItem_contextwise (item : Selector) (t : LiveSetTransformer) :
  Standalone.compileItem item = Returned t → contextwise t.
Proof.
  revert t. induction item as [s|f|f|a c|branches IH|s|] using Selector_ind;
    simpl; intros t; try discriminate.
  - intros [= <-].
    apply (contextwise_flatMap (λ page ec, makeFilteredEcChildLiveSet page ec s)).
  - intros [= <-]. apply contextwise_filter.
  - intros [= <-]. apply contextwise_map.
  - intros [= <-].
    apply (contextwise_flatMap (λ page ec, makeMutationObserverLiveSet page ec a c)).
  - destruct (mapO _ branches) as [ts|] eqn:Hb; simpl; [|discriminate].
    intros [= <-]. apply contextwise_merge.
    eapply branches_compile_Forall; [apply contextwise_reduce|exact IH|exact Hb].
  - case_bool_decide; [discriminate|]. intros [= <-]. apply contextwise_filter.
Qed.

Lemma makeWith_contextwise (compileItem : Selector → Outcome LiveSetTransformer) :
  (∀ item t, compileItem item = Returned t → contextwise t) →
  ∀ l t, makeWith compileItem l = Returned t → contextwise t.
Proof.
  intros Hci l t. unfold makeWith.
  destruct (mapO compileItem l) as [ts|] eqn:Hts; simpl; [|discriminate].
  intros [= <-]. apply contextwise_reduce.
  eapply mapO_compile_Forall; [|exact Hts].
  apply Forall_forall. intros item _ ti. apply Hci.
Qed.

(** X16. A compiled pipeline, of either compiler, treats every context of
    its input on its own: up to the order of the entries, what it puts out
    for a set is what it puts out for each context alone, so the output for
    the union of two inputs is the output for the one together with the
    output for the other, and the order of the input does not matter. *)
Theorem X16_pipelines_work_context_by_context :
  (∀ selectors t,
     Embedded.makeLiveSetTransformer selectors = Returned t ∨
     Standalone.makeLiveSetTransformerFromSelectors selectors = Returned t →
     contextwise t) ∧
  (∀ t, contextwise t →
     (∀ page l1 l2, t page (l1 ++ l2) ≡ₚ t page l1 ++ t page l2) ∧
     (∀ page l l', l ≡ₚ l' → t page l ≡ₚ t page l')).
Proof.
  split.
  - intros selectors t [Ht|Ht].
    + by apply (makeWith_contextwise Embedded.compileItem Embedded_compileItem_contextwise
                  selectors).
    + by apply (makeWith_contextwise Standalone.compileItem Standalone_compileItem_contextwise
                  selectors).
  - intros t Ht. split.
    + intros page l1 l2. rewrite (Ht page (l1 ++ l2)), flat_map_app.
      apply Permutation_app; symmetry; apply Ht.
    + intros page l l' Hl. by rewrite (Ht page l), (Ht page l'), (Permutation_flat_map _ Hl).
Qed.

Lemma X16_witness :
  ∃ t, Embedded.makeLiveSetTransformer demoSingleOr = Returned t ∧
       ∀ page l1 l2, t page (l1 ++ l2) ≡ₚ t page l1 ++ t page l2.
Proof.
  eexists. split; [reflexivity|].
  apply (proj2 X16_pipelines_work_context_by_context).
  apply (proj1 X16_pipelines_work_context_by_context demoSingleOr). by left.
Defined.

(** ** An element that leaves and comes back *)

Lemma onChange_remove_tracked w tg v st n :
  tracked st → e2n st w !! el v = Some n →
  ∃ st1, onChange w tg (ChangeRemove v) st = (Returned (), st1) ∧
         elementsToNodes st1 = elementsToNodes (forget w (el v) st) ∧
         nextNodeId (theTree st1) = nextNodeId (theTree st) ∧
         nextArrayId st1 = nextArrayId st.
Proof.
  intros [Hwf _] He. rewrite (onChange_remove_eval _ _ _ _ _ He).
  destruct (getParent (theTree st) n) as [p|]; [|by eexists].
  destruct (ownsNode (theTree st) p n); [|by eexists].
  destruct (removeTaggedNode_returns p tg n (forget w (el v) st) Hwf) as (nodes' & -> & _).
  by eexists.
Qed.

(** X17. An element that was removed can be placed again. After the removal
    notification for an element that the watcher tracks (on an instance
    whose element maps agree with the tree), the map callback of the same
    watcher accepts a context for this element: it does not throw 'received
    element twice', and the element is tracked again, now with a node that
    was created after the node it had before. *)
Theorem X17_removed_element_can_be_placed_again
    (w : nat) (tg : string) (ownedBy : gset string) (v ec : ElementContext)
    (st : PageParserTree) (n p : NodeId) :
  tracked st →
  e2n st w !! el v = Some n →
  el ec = el v →
  findParentNode ownedBy (items (parents ec)) = Returned p →
  ∃ st1 ec' st2 n',
    onChange w tg (ChangeRemove v) st = (Returned (), st1) ∧
    e2n st1 w !! el v = None ∧
    placeElement w tg ownedBy ec st1 = (Returned ec', st2) ∧
    e2n st2 w !! el v = Some n' ∧ n < n' ∧
    items (parents ec') = items (parents ec) ++ [mkPair (Some tg) n'].
Proof.
  intros Ht He Hel Hp.
  destruct (onChange_remove_tracked w tg v st n Ht He) as (st1 & Hst1 & Hmaps & Hnext & _).
  assert (Hgone : e2n st1 w !! el v = None).
  { unfold e2n. rewrite Hmaps. unfold forget. simpl. rewrite lookup_insert_eq. simpl.
    apply lookup_delete_eq. }
  exists st1. rewrite (placeElement_found _ _ _ _ _ _ Hp), Hel.
  rewrite bool_decide_false by (rewrite Hgone; by intros [? ?]).
  eexists _, _, (nextNodeId (theTree st1)). split; [done|]. split; [done|].
  split; [reflexivity|]. split; [|split; [|done]].
  - unfold e2n at 1. simpl. rewrite lookup_insert_eq. simpl. apply lookup_insert_eq.
  - rewrite Hnext. destruct Ht as [[Hkeys _] Hmap].
    destruct (Hmap w (el v) n He) as (nd & Hnd & _). apply Hkeys. by eexists.
Qed.

Lemma X17_witness :
  ∃ st1 ec' st2 n',
    onChange 0 "a" (ChangeRemove (mkEc 1 (parents (rootContext 0)))) demoState1
      = (Returned (), st1) ∧
    e2n st1 0 !! 1 = None ∧
    placeElement 0 "a" ∅ (mkEc 1 (parents (rootContext 0))) st1 = (Returned ec', st2) ∧
    e2n st2 0 !! 1 = Some n' ∧ 1 < n' ∧
    items (parents ec') = items (parents (rootContext 0)) ++ [mkPair (Some "a"%string) n'].
Proof.
  apply (X17_removed_element_can_be_placed_again 0 "a" ∅
           (mkEc 1 (parents (rootContext 0))) (mkEc 1 (parents (rootContext 0)))
           demoState1 1 0).
  - apply tracked_placeElement, tracked_start; [apply wfTree_new|reflexivity].
  - vm_compute. reflexivity.
  - reflexivity.
  - reflexivity.
Defined.

(** ** Instances of the properties without a side condition *)

Lemma X2_witness :
  ∃ e, Standalone.makeLiveSetTransformerFromSelectors
         [SelWatch ["class"%string] (CondCss "a"); SelOr [[SelLog EmptyString]]] = Thrown e ∧
       e = Err_invalid_selector_item.
Proof.
  eexists. split; [reflexivity|].
  apply (proj2 (X2_standalone_compiler_accepts
                  [SelWatch ["class"%string] (CondCss "a"); SelOr [[SelLog EmptyString]]])).
  reflexivity.
Defined.

Lemma X15_witness :
  match tags demoChainOptions !! "b"%string with
  | Some o => Some ["a"%string] = ownedBy o
  | None => Some ["a"%string] = None ∧ isDestination demoChainOptions "b"
  end.
Proof.
  apply (proj2 (proj2 (X15_tags_array_lists_each_tag_once demoChainOptions))
           "b"%string (Some ["a"%string])).
  vm_compute. left.
Defined.

(** ** The errors of the constructor *)

Lemma placeElement_thrown w tg ownedBy ec st e st' :
  placeElement w tg ownedBy ec st = (Thrown e, st') →
  e = Err_received_element_twice ∨ (e = Err_blank ∧ ¬ rooted ec).
Proof.
  intros Hp. destruct (findParentNode ownedBy (items (parents ec))) as [p|e'] eqn:Hf.
  - rewrite (placeElement_found _ _ _ _ _ _ Hf) in Hp.
    case_bool_decide; [|discriminate]. injection Hp as <- _. by left.
  - pose proof (findParentNode_error _ _ _ Hf) as ->.
    rewrite (placeElement_not_found _ _ _ _ _ Hf) in Hp. injection Hp as <- _.
    right. split; [done|]. intros Hr.
    destruct (findParentNode_rooted ownedBy ec Hr) as [p Hp]. congruence.
Qed.

Lemma placeCallback_thrown w tg ownedBy ec st e st' :
  (placeElement w tg ownedBy ec ≫= λ _, mret ()) st = (Thrown e, st') →
  e = Err_received_element_twice ∨ (e = Err_blank ∧ ¬ rooted ec).
Proof.
  unfold mbind, M_bind. destruct (placeElement w tg ownedBy ec st) as [[ec'|e'] st1] eqn:Hp;
    [discriminate|].
  intros [= <- <-]. by eapply placeElement_thrown.
Qed.

Lemma onChange_thrown w tg c st e st' :
  tracked st → onChange w tg c st = (Thrown e, st') → e = Err_removal_of_unseen_element.
Proof.
  intros [Hwf _]. destruct c as [v|v]; [discriminate|].
  destruct (e2n st w !! el v) as [n|] eqn:He.
  - rewrite (onChange_remove_eval _ _ _ _ _ He).
    destruct (getParent (theTree st) n) as [p|]; [|discriminate].
    destruct (ownsNode (theTree st) p n); [|discriminate].
    destruct (removeTaggedNode_returns p tg n (forget w (el v) st) Hwf) as (nodes' & -> & _).
    discriminate.
  - unfold onChange, mbind, M_bind, gets, throw. rewrite He. by intros [= <- _].
Qed.

Lemma forEach_thrown {A} (P : PageParserTree → Prop) (f : A → M unit) (l : list A) :
  (∀ x st, P st → P (f x st).2) →
  ∀ st e st', P st → forEach f l st = (Thrown e, st') →
  ∃ x st1 st2, x ∈ l ∧ P st1 ∧ f x st1 = (Thrown e, st2).
Proof.
  intros Hf. induction l as [|x l IH]; intros st e st' HP; [discriminate|].
  rewrite forEach_cons. unfold mbind, M_bind.
  pose proof (Hf x st HP) as HP1.
  destruct (f x st) as [[[]|e'] st1] eqn:Hx; simpl in HP1.
  - intros Hl. destruct (IH st1 e st' HP1 Hl) as (y & sa & sb & Hy & Hsa & Hfy).
    exists y, sa, sb. split; [by right|done].
  - intros [= <- <-]. exists x, st, st1. split; [by left|done].
Qed.

Lemma runDelivery_thrown w tg ownedBy d st e st' :
  tracked st → runDelivery w tg ownedBy d st = (Thrown e, st') →
  e = Err_received_element_twice ∨ e = Err_removal_of_unseen_element ∨
  (e = Err_blank ∧ ∃ ec, d = MapCall ec ∧ ¬ rooted ec).
Proof.
  intros Ht. destruct d as [ec|changes]; simpl.
  - intros [->|[-> Hr]]%placeCallback_thrown; [by left|]. right. right. split; [done|].
    by exists ec.
  - intros Hl. right. left.
    destruct (forEach_thrown tracked (onChange w tg) changes
                (λ c st1, tracked_onChange w tg c st1) st e st' Ht Hl)
      as (c & st1 & st2 & _ & Ht1 & Hc).
    by eapply onChange_thrown.
Qed.

Lemma mapM_resolveSource_thrown_inv options st l e st' :
  (∀ t, is_Some (_ecSources st !! t) ↔ declared options t) →
  mapM resolveSource l st = (Thrown e, st') →
  ∃ t, Some t ∈ l ∧ t ≠ EmptyString ∧ ¬ declared options t ∧ e = Err_unknown_source t.
Proof.
  intros Hkeys. induction l as [|s l IH]; [discriminate|].
  rewrite mapM_cons. unfold mbind, M_bind.
  pose proof (resolveSource_state s st) as Hs.
  destruct (resolveSource s st) as [[src|e'] st1] eqn:Hsrc; simpl in Hs; subst st1.
  - destruct (mapM resolveSource l st) as [[srcs|e'] st2] eqn:Hl; [discriminate|].
    intros [= <- <-]. destruct (IH eq_refl) as (t & Ht & Hne & Hd & He).
    exists t. split; [by right|done].
  - intros [= <- <-]. destruct s as [t|]; simpl in Hsrc; [|discriminate].
    case_bool_decide as Ht; [discriminate|]. unfold mbind, M_bind, gets in Hsrc.
    destruct (_ecSources st !! t) as [outs|] eqn:Ho; [discriminate|].
    injection Hsrc as <-. exists t. split; [by left|]. split; [done|]. split; [|done].
    intros Hd%Hkeys. rewrite Ho in Hd. by destruct Hd.
Qed.

Lemma wireWatcher_thrown_cases sched options ts i w st e st' :
  wiringInv options ts st → w ∈ watchers options → i < length ts →
  wireWatcher sched (i, w) st = (Thrown e, st') →
  (∃ t, Some t ∈ sources w ∧ t ≠ EmptyString ∧ ¬ declared options t ∧
        e = Err_unknown_source t) ∨
  e = Err_received_element_twice ∨
  (e = Err_blank ∧ ∃ ec, ec ∈ atSubscribe sched i ∧ ¬ rooted ec) ∨
  (∃ call, e = Err_raised_by call ∧ raisedAtSubscribe sched i = Some call).
Proof.
  intros (Hto & Hts & Hkeys) Hw Hi. unfold wireWatcher. msimpl.
  assert (Hdw : declared options (wtag w)) by (right; by exists w).
  pose proof Hdw as Hdw'.
  apply (proj1 (collectTags_spec options)) in Hdw as [tagOptions Hdw].
  rewrite Hto, Hdw.
  pose proof (mapM_resolveSource_state (sources w) st) as Hs.
  destruct (mapM resolveSource (sources w) st) as [[srcs|e'] st1] eqn:Hsrc;
    simpl in Hs; subst st1.
  2: { intros [= <- <-]. left. by eapply mapM_resolveSource_thrown_inv. }
  rewrite Hts. destruct (lookup_lt_is_Some_2 ts i Hi) as [t ->]. simpl.
  match goal with |- context [forEach ?f ?l ?s] =>
    pose proof (forEach_invariant sameWiring f l sameWiring_refl sameWiring_trans
                  (λ ec st1, placeCallback_sameWiring i (wtag w) (ownedBySet tagOptions) ec st1)
                  s) as Hp;
    pose proof (forEach_thrown (λ _, True) f l (λ _ _ _, I) s) as Hthrown;
    set (r := forEach f l s) in * end.
  destruct r as [[[]|e'] st2]; simpl in Hp; destruct Hp as (_ & _ & P3 & _ & _); simpl in *.
  - destruct (raisedAtSubscribe sched i) as [call|]; simpl.
    + intros [= <- <-]. do 3 right. by exists call.
    + apply Hkeys in Hdw' as [outputs Ho]. rewrite P3, Ho. discriminate.
  - intros [= <- <-]. right.
    destruct (Hthrown e' st2 I eq_refl) as (ec & sa & sb & Hec & _ & Hf).
    apply placeCallback_thrown in Hf as [->|[-> Hr]]; [by left|].
    right. left. split; [done|]. by exists ec.
Qed.

Lemma pullChanges_thrown sched options sub st e st' :
  tracked st → pullChanges sched options sub st = (Thrown e, st') →
  e = Err_received_element_twice ∨ e = Err_removal_of_unseen_element ∨
  (e = Err_blank ∧ ∃ ec, delivers sched ec ∧ ¬ rooted ec) ∨
  (∃ call, e = Err_raised_by call ∧ raises sched call).
Proof.
  intros Ht. unfold pullChanges.
  destruct (watchers options !! subWatcher sub) as [w|]; [|discriminate].
  unfold mbind, M_bind, gets.
  match goal with |- context [forEach ?f ?l ?s] =>
    pose proof (forEach_thrown tracked f l
                  (λ d st1, tracked_runDelivery (subWatcher sub) (wtag w) _ d st1) s) as Hthrown;
    set (r := forEach f l s) in * end.
  destruct r as [[[]|e'] st2].
  - destruct (raisedAtPullChanges sched (subWatcher sub)) as [call|] eqn:Hcall; simpl;
      [|discriminate].
    intros [= <- <-]. do 3 right. exists call. split; [done|].
    exists (subWatcher sub). by right.
  - intros [= <- <-].
    destruct (Hthrown e' st2 Ht eq_refl) as (d & st1 & sb & Hd & Ht1 & Hrun).
    destruct (runDelivery_thrown _ _ _ _ _ _ _ Ht1 Hrun) as [->|[->|(-> & ec & -> & Hr)]];
      [by left|by right; left|].
    right. right. left. split; [done|]. exists ec. split; [|done].
    exists (subWatcher sub). by right.
Qed.

(** X18. Leaving aside what the tag-tree and live-set libraries may raise
    of their own, the exceptions that leave the constructor are: 'missing
    documentElement'; the two errors of the embedded compiler; 'Unknown
    source: t' for a non-empty source [t] of some watcher that is not a known
    tag; 'received element twice'; 'Should not happen: received removal of
    unseen element'; the bare [Error] of [findParentNode], only when live-set
    hands the map callback a context whose [parents] do not start with the
    root pair; and an exception raised by the code of a pipeline
    ([matchesSelector] on an item string, a [$filter] or [$map] function)
    while live-set evaluates it during a subscription or a flush. The other
    three bare [throw new Error()] of the loop over the watchers (no tag
    options, no transformer, no source set for the destination) are never
    reached. *)
Theorem X18_errors_of_the_constructor
    (sched : LiveSetSchedule) (root : Root) (options : PageParserTreeOptions)
    (e : Error) (st : PageParserTree) :
  newPageParserTree sched root options = (Thrown e, st) →
  constructorError sched options e ∧
  e ≠ Err_call_stack_exceeded ∧
  ((∀ ec, delivers sched ec → rooted ec) → e ≠ Err_blank).
Proof.
  intros Hnew.
  assert (Hce : constructorError sched options e).
  { destruct (hasElement root) as [rootEl|] eqn:Hroot.
    2: { rewrite construct_no_root in Hnew by done. injection Hnew as <- _. by left. }
    destruct (compileWatchers options) as [ts|e'] eqn:Hts.
    2: { rewrite (construct_compile_error sched root options rootEl e' Hroot Hts) in Hnew.
         injection Hnew as <- _. right. left. by eapply compileWatchers_error. }
    assert (Hlen : length ts = length (watchers options)).
    { unfold compileWatchers in Hts. apply mapO_returned_Forall2 in Hts.
      symmetry. by eapply Forall2_length. }
    destruct (construct_setup sched root options rootEl ts Hroot Hts) as [Hinv Heq].
    rewrite Heq in Hnew. unfold mbind at 1, M_bind at 1 in Hnew.
    assert (Ht0 : tracked (setupState rootEl options ts))
      by (by apply tracked_start; [apply wfTree_new|]).
    pose proof (forEach_preserves tracked (wireWatcher sched) (indexed (watchers options))
                  (λ iw st1, tracked_wireWatcher sched iw st1) _ Ht0) as Ht1.
    destruct (forEach (wireWatcher sched) (indexed (watchers options))
                (setupState rootEl options ts)) as [[[]|e'] st1] eqn:Hwire; simpl in Ht1.
    - unfold mbind, M_bind, gets in Hnew.
      destruct (forEach_thrown tracked (pullChanges sched options) (_subscriptions st1)
                  (λ sub st2, tracked_pullChanges sched options sub st2) st1 e st Ht1 Hnew)
        as (sub & sa & sb & _ & Hsa & Hpull).
      destruct (pullChanges_thrown _ _ _ _ _ _ Hsa Hpull) as [->|[->|[Hb|Hc]]];
        unfold constructorError; tauto.
    - injection Hnew as <- <-.
      destruct (forEach_thrown (wiringInv options ts) (wireWatcher sched)
                  (indexed (watchers options))
                  (λ iw st2, match iw with (i, w) => wireWatcher_inv sched options ts i w st2 end)
                  _ e' st1 Hinv Hwire)
        as ([i w] & sa & sb & Hiw%elem_of_indexed & Hsa & Hw).
      assert (Hin : w ∈ watchers options) by (by eapply list_elem_of_lookup_2).
      assert (Hi : i < length ts) by (rewrite Hlen; by eapply lookup_lt_Some).
      destruct (wireWatcher_thrown_cases sched options ts i w sa e' sb Hsa Hin Hi Hw)
        as [(t & Ht & Hne & Hd & ->)|[->|[(-> & ec & Hec & Hr)|(call & -> & Hcall)]]].
      + right. right. left. by exists w, t.
      + unfold constructorError. tauto.
      + do 5 right. left. split; [done|]. exists ec. split; [|done]. exists i. by left.
      + do 6 right. exists call. split; [done|]. exists i. by left. }
  split; [exact Hce|]. split.
  - intros ->.
    destruct Hce as [?|[[?|?]|[(w & t & _ & _ & _ & _ & ?)|[?|[?|[[? _]|(c & ? & _)]]]]]];
      discriminate.
  - intros Hall ->.
    destruct Hce
      as [?|[[?|?]|[(w & t & _ & _ & _ & _ & ?)|[?|[?|[[_ (ec & Hd & Hr)]|(c & ? & _)]]]]]];
      try discriminate.
    by apply Hr, Hall.
Qed.

Lemma X18_witness :
  constructorError quietSchedule demoWatchOptions Err_TODO ∧
  Err_TODO ≠ Err_call_stack_exceeded ∧
  ((∀ ec, delivers quietSchedule ec → rooted ec) → Err_TODO ≠ Err_blank).
Proof.
  eapply (X18_errors_of_the_constructor quietSchedule (RootElement 0) demoWatchOptions).
  apply (construct_compile_error quietSchedule (RootElement 0) demoWatchOptions 0);
    reflexivity.
Defined.

(** ** A batch of new elements *)

Lemma findParentNode_parentOf ownedBy ec :
  rooted ec → findParentNode ownedBy (items (parents ec)) = Returned (parentOf ownedBy ec).
Proof.
  intros Hr. destruct (findParentNode_rooted ownedBy ec Hr) as [p Hp].
  rewrite findParentNode_nearest in Hp |- *. unfold parentOf.
  by destruct (nearestQualifying ownedBy (items (parents ec))).
Qed.

Lemma placeCallback_new w tg ownedBy ec st :
  e2n st w !! el ec = None → rooted ec →
  ∃ st1,
    (placeElement w tg ownedBy ec ≫= λ _, mret ()) st = (Returned (), st1) ∧
    controllerCalls (theTree st1)
      = controllerCalls (theTree st) ++ [AddTaggedValue (parentOf ownedBy ec) tg (el ec)] ∧
    nextNodeId (theTree st1) = S (nextNodeId (theTree st)) ∧
    e2n st1 w = <[el ec := nextNodeId (theTree st)]> (e2n st w) ∧
    (∀ w', w' ≠ w → e2n st1 w' = e2n st w').
Proof.
  intros He Hr. unfold mbind, M_bind.
  rewrite (placeElement_found _ _ _ _ _ _ (findParentNode_parentOf ownedBy ec Hr)).
  rewrite bool_decide_false by (rewrite He; by intros [? ?]).
  eexists. split; [reflexivity|]. split; [done|]. split; [done|]. split.
  - unfold e2n at 1. simpl. by rewrite lookup_insert_eq.
  - intros w' Hw. unfold e2n at 1. simpl. by rewrite lookup_insert_ne.
Qed.

(** X19. A batch of new elements. When live-set hands the map callback of
    a watcher a sequence of contexts whose [parents] start with the root
    pair, for pairwise different elements that the watcher does not track
    yet, every call succeeds: the controller receives one [addTaggedValue]
    per context, in that order, each under the parent that [findParentNode]
    finds for it; the watcher's map gains exactly these elements, each with
    the node created for it; and the maps of the other watchers are left
    alone. *)
Theorem X19_batch_of_new_elements
    (w : nat) (tg : string) (ownedBy : gset string) (ecs : list ElementContext) :
  ∀ st,
    NoDup (el <$> ecs) →
    Forall (λ ec, e2n st w !! el ec = None ∧ rooted ec) ecs →
    ∃ st',
      forEach (runDelivery w tg ownedBy) (MapCall <$> ecs) st = (Returned (), st') ∧
      controllerCalls (theTree st')
        = controllerCalls (theTree st)
            ++ ((λ ec, AddTaggedValue (parentOf ownedBy ec) tg (el ec)) <$> ecs) ∧
      nextNodeId (theTree st') = nextNodeId (theTree st) + length ecs ∧
      (∀ i ec, ecs !! i = Some ec →
               e2n st' w !! el ec = Some (nextNodeId (theTree st) + i)) ∧
      (∀ e, e ∉ el <$> ecs → e2n st' w !! e = e2n st w !! e) ∧
      (∀ w', w' ≠ w → e2n st' w' = e2n st w').
Proof.
  induction ecs as [|ec ecs IH]; intros st Hnd Hall.
  { exists st. split; [done|]. split; [by rewrite app_nil_r|]. split; [simpl; lia|].
    split; [intros i ec; by rewrite lookup_nil|]. by split. }
  rewrite fmap_cons in Hnd. apply NoDup_cons in Hnd as [Hec Hnd].
  apply Forall_cons in Hall as [[He Hr] Hall].
  destruct (placeCallback_new w tg ownedBy ec st He Hr)
    as (st1 & Hst1 & Hcalls1 & Hnext1 & Hmap1 & Hother1).
  destruct (IH st1 Hnd) as (st' & Hst' & Hcalls & Hnext & Hnew & Hold & Hother).
  { apply Forall_forall. intros x Hx. rewrite Forall_forall in Hall.
    destruct (Hall x Hx) as [Hnone Hrx]. split; [|done].
    rewrite Hmap1, lookup_insert_ne; [done|]. intros Heq. apply Hec. rewrite Heq.
    by apply list_elem_of_fmap_2. }
  exists st'. rewrite fmap_cons, forEach_cons. unfold mbind at 1, M_bind at 1.
  change (runDelivery w tg ownedBy (MapCall ec) st)
    with ((placeElement w tg ownedBy ec ≫= λ _, mret ()) st).
  rewrite Hst1. split; [exact Hst'|].
  split; [by rewrite Hcalls, Hcalls1, fmap_cons, <- app_assoc|].
  split; [rewrite Hnext, Hnext1; simpl; lia|]. split; [|split].
  - intros [|i] x Hx; simpl in Hx.
    + injection Hx as ->. rewrite (Hold _ Hec), Hmap1, lookup_insert_eq. f_equal. lia.
    + rewrite (Hnew i x Hx), Hnext1. f_equal. lia.
  - intros e Hne. rewrite fmap_cons in Hne. apply not_elem_of_cons in Hne as [Hne1 Hne2].
    by rewrite (Hold e Hne2), Hmap1, lookup_insert_ne.
  - intros w' Hw. by rewrite (Hother w' Hw), (Hother1 w' Hw).
Qed.

Lemma X19_witness :
  ∃ st',
    forEach (runDelivery 0 "a" ∅)
      (MapCall <$> [mkEc 1 (parents (rootContext 0)); mkEc 2 (parents (rootContext 0))])
      demoState0 = (Returned (), st') ∧
    controllerCalls (theTree st') = [AddTaggedValue 0 "a" 1; AddTaggedValue 0 "a" 2] ∧
    e2n st' 0 !! 2 = Some 2.
Proof.
  destruct (X19_batch_of_new_elements 0 "a" ∅
              [mkEc 1 (parents (rootContext 0)); mkEc 2 (parents (rootContext 0))] demoState0)
    as (st' & Hst' & Hcalls & _ & Hnew & _).
  - apply NoDup_cons. split; [|apply NoDup_singleton].
    simpl. intros Hin%list_elem_of_singleton. discriminate.
  - constructor; [split; [reflexivity|by exists []]|].
    constructor; [split; [reflexivity|by exists []]|constructor].
  - exists st'. split; [exact Hst'|]. split; [exact Hcalls|].
    apply (Hnew 1 (mkEc 2 (parents (rootContext 0)))). reflexivity.
Defined.

(** * The claims on derived contexts *)

(** ** The [parents] of a derived context *)

Lemma contextwise_elem (t : LiveSetTransformer) page input out :
  contextwise t → out ∈ t page input ↔ ∃ ec, ec ∈ input ∧ out ∈ t page [ec].
Proof.
  intros Ht. rewrite (Ht page input), list_elem_of_In, in_flat_map. split.
  - intros (ec & Hec & Hout). exists ec. by rewrite !list_elem_of_In.
  - intros (ec & Hec & Hout). exists ec. by rewrite <- !list_elem_of_In.
Qed.

Lemma sharesParents_singleton (t : LiveSetTransformer) page ec out :
  sharesParents t → out ∈ t page [ec] →
  parents out = parents ec ∧ arrayId (parents out) = arrayId (parents ec).
Proof.
  intros Ht Hout. destruct (Ht page [ec] out Hout) as (ec' & ->%list_elem_of_singleton & Hp).
  by rewrite Hp.
Qed.

(** C7. A stage that adds no tagged ancestor hands on the [parents] array of
    the context it works on, the same array and not a copy. The string stage
    puts out, for every input context and every child of its element that
    matches, the child with the [parents] of that very context, and nothing
    else; the [$map] stage puts out the image of the element with the
    [parents] of the context it maps. A pipeline of the embedded compiler
    (string, [$filter], [$map], [$log] and [$or] stages), or one without
    [$watch] of the standalone compiler, puts out exactly what it puts out
    for each input context alone, and what it puts out for a context carries
    the [parents] of that context. The snapshot and every notification of
    the filter engine carry the [parents] of its root context. *)
Theorem C7_parents_shared_by_identity :
  (∀ itemString t page input out,
     Embedded.makeLiveSetTransformer [SelString itemString] = Returned t ∨
     Standalone.makeLiveSetTransformerFromSelectors [SelString itemString] = Returned t →
     out ∈ t page input ↔
     ∃ ec child, ec ∈ input ∧ child ∈ children page (el ec) ∧
                 matchesSelector page child itemString = true ∧
                 out = mkEc child (parents ec)) ∧
  (∀ fn t page input out,
     Embedded.makeLiveSetTransformer [SelMap fn] = Returned t ∨
     Standalone.makeLiveSetTransformerFromSelectors [SelMap fn] = Returned t →
     out ∈ t page input ↔
     ∃ ec e, ec ∈ input ∧ fn (el ec) = Some e ∧ out = mkEc e (parents ec)) ∧
  (∀ selectors t page input,
     Embedded.makeLiveSetTransformer selectors = Returned t ∨
     (hasWatch selectors = false ∧
      Standalone.makeLiveSetTransformerFromSelectors selectors = Returned t) →
     (∀ out, out ∈ t page input ↔ ∃ ec, ec ∈ input ∧ out ∈ t page [ec]) ∧
     (∀ ec out, out ∈ t page [ec] →
                parents out = parents ec ∧
                arrayId (parents out) = arrayId (parents ec))) ∧
  (∀ describe cond rootEc e,
     WatchFilteredChildren.run describe cond rootEc e →
     (∀ ec, ec ∈ WatchFilteredChildren.values e → parents ec = parents rootEc) ∧
     (∀ batch ch, batch ∈ WatchFilteredChildren.calls e → ch ∈ batch →
                  parents (changeValue ch) = parents rootEc)).
Proof.
  split; [|split; [|split]].
  - intros itemString t page input out Ht.
    assert (Heq : t page input =
              List.flat_map (λ ec, List.map (λ e, mkEc e (parents ec))
                (List.filter (λ e, matchesSelector page e itemString)
                   (children page (el ec)))) input).
    { by destruct Ht as [Ht|Ht]; injection Ht as <-. }
    rewrite Heq, list_elem_of_In, in_flat_map. split.
    + intros (ec & Hec & (child & <- & [Hc Hm]%filter_In)%in_map_iff).
      exists ec, child. by rewrite !list_elem_of_In.
    + intros (ec & child & Hec & Hc & Hm & ->). exists ec.
      split; [by apply list_elem_of_In|]. apply in_map_iff. exists child. split; [done|].
      apply filter_In. split; [by apply list_elem_of_In|done].
  - intros fn t page input out Ht.
    assert (Heq : t page input = mapTransducer fn input).
    { by destruct Ht as [Ht|Ht]; injection Ht as <-. }
    rewrite Heq. unfold mapTransducer, t_compose, t_map, t_filter.
    rewrite list_elem_of_omap. split.
    + intros (m & [(ec & <- & Hec)%in_map_iff _]%list_elem_of_In%filter_In & Hout).
      simpl in Hout. destruct (fn (el ec)) as [e|] eqn:He; [|done]. injection Hout as <-.
      exists ec, e. by rewrite list_elem_of_In.
    + intros (ec & e & Hec & He & ->). exists (mkMapped (fn (el ec)) (parents ec)).
      split; [|simpl; by rewrite He]. apply list_elem_of_In, filter_In.
      split; [apply in_map_iff; exists ec; by rewrite <- list_elem_of_In|].
      simpl. rewrite He. by apply bool_decide_eq_true.
  - intros selectors t page input [Ht|[Hw Ht]].
    + split.
      * intros out. apply contextwise_elem.
        by apply (makeWith_contextwise Embedded.compileItem
                    Embedded_compileItem_contextwise selectors).
      * intros ec out. apply sharesParents_singleton.
        by eapply Embedded_makeLiveSetTransformer_sharesParents.
    + split.
      * intros out. apply contextwise_elem.
        by apply (makeWith_contextwise Standalone.compileItem
                    Standalone_compileItem_contextwise selectors).
      * intros ec out. apply sharesParents_singleton.
        by eapply Standalone_makeLiveSetTransformer_sharesParents.
  - intros describe cond rootEc e Hrun.
    destruct (EngineRuns.run_callsShare _ _ _ _ Hrun) as [Hr Hc]. split.
    + intros ec Hec. unfold WatchFilteredChildren.values in Hec.
      apply list_elem_of_fmap in Hec as (n & -> & _). simpl. by rewrite Hr.
    + intros batch ch Hb Hch. rewrite Forall_forall in Hc. specialize (Hc batch Hb).
      rewrite Forall_forall in Hc. by apply Hc.
Qed.

Lemma C7_witness :
  ∃ t,
    Embedded.makeLiveSetTransformer [SelString "div"; SelFilter (λ e, e =? 1)] = Returned t ∧
    mkEc 1 (parents (rootContext 0)) ∈ t demoPage [rootContext 0] ∧
    parents (mkEc 1 (parents (rootContext 0))) = parents (rootContext 0) ∧
    arrayId (parents (mkEc 1 (parents (rootContext 0)))) = arrayId (parents (rootContext 0)).
Proof.
  eexists. split; [reflexivity|].
  match goal with |- ?G ∧ _ => assert (Hin : G) by (vm_compute; left) end.
  split; [exact Hin|].
  apply (proj2 (proj1 (proj2 (proj2 C7_parents_shared_by_identity))
                  [SelString "div"; SelFilter (λ e, e =? 1)] _ demoPage [rootContext 0]
                  (or_introl eq_refl))
           (rootContext 0) _ Hin).
Defined.

(** ** The reorder scenario of the filter engine *)

Section Reorder.
Import WatchFilteredChildren.
Variable describe : nat → DomNode.
Variable cond : nat → bool.

Lemma processAdded_new e w n :
  matched describe cond n = true → n ∉ w.1 →
  processAdded describe cond e w n = (w.1 ++ [n], w.2 ++ [ChangeAdd (wrap e n)]).
Proof.
  intros Hm Hn. unfold processAdded, contains. fold (matched describe cond n).
  by rewrite Hm, bool_decide_false.
Qed.

Lemma processAdded_member e w n : n ∈ w.1 → processAdded describe cond e w n = w.
Proof.
  intros Hn. unfold processAdded, contains. rewrite (bool_decide_true (n ∈ w.1)) by done.
  by rewrite andb_false_r.
Qed.

Lemma processRemoved_stale e w n : n ∈ childNodes e → processRemoved e w n = w.
Proof.
  intros Hn. unfold processRemoved, contains.
  rewrite (bool_decide_true (n ∈ childNodes e)) by done. by destruct (bool_decide _).
Qed.

Lemma processRemoved_gone e w n :
  n ∈ w.1 → n ∉ childNodes e →
  processRemoved e w n
  = (List.filter (λ x, negb (x =? n)) w.1, w.2 ++ [ChangeRemove (wrap e n)]).
Proof.
  intros Hm Hn. unfold processRemoved, contains.
  by rewrite bool_decide_true, bool_decide_false.
Qed.

Lemma stale_removals e removed w :
  (∀ n, n ∈ removed → n ∈ childNodes e) → fold_left (processRemoved e) removed w = w.
Proof.
  revert w. induction removed as [|n l IH]; intros w Hl; simpl; [done|].
  rewrite processRemoved_stale by (apply Hl; by left). apply IH.
  intros m Hm. apply Hl. by right.
Qed.

Lemma filter_neq_absent (l : list nat) (n : nat) :
  n ∉ l → List.filter (λ x, negb (x =? n)) l = l.
Proof.
  induction l as [|c l IH]; simpl; intros Hn; [done|].
  apply not_elem_of_cons in Hn as [Hc Hn].
  assert (c ≠ n) as Hcn by done. apply Nat.eqb_neq in Hcn. rewrite Hcn. simpl.
  by rewrite IH.
Qed.

Lemma reorderRun_eval rootEc actual A B C :
  A ∈ actual → matched describe cond A = true →
  matched describe cond B = true → matched describe cond C = true →
  B ∉ actual → C ∉ actual → B ≠ C →
  let seed := List.filter (matched describe cond) actual in
  let ctx n := mkEc n (parents rootEc) in
  reorderRun describe cond rootEc actual A B C
  = mkEngine rootEc (actual ++ [B]) (seed ++ [B]) []
      [[ChangeAdd (ctx B); ChangeAdd (ctx C); ChangeRemove (ctx C)]].
Proof.
  intros HA HmA HmB HmC HB HC HBC seed ctx.
  assert (HAs : A ∈ seed).
  { apply list_elem_of_In, filter_In. by rewrite <- list_elem_of_In. }
  assert (HBs : B ∉ seed).
  { intros [Hin _]%list_elem_of_In%filter_In. by apply HB, list_elem_of_In. }
  assert (HCs : C ∉ seed).
  { intros [Hin _]%list_elem_of_In%filter_In. by apply HC, list_elem_of_In. }
  unfold reorderRun, subscribe, appendChild, emitMutation. simpl.
  rewrite (filter_neq_absent actual B HB).
  fold (matched describe cond) in *. fold seed.
  set (e4 := mkEngine rootEc (actual ++ [B]) seed _ []).
  assert (Hattached : ∀ n, n ∈ [A; B] → n ∈ childNodes e4).
  { intros n [->|[->|[]%elem_of_nil]%elem_of_cons]%elem_of_cons; simpl;
      apply elem_of_app; [by left|right; by left]. }
  assert (HCgone : C ∉ childNodes e4).
  { simpl. intros [?|?%list_elem_of_singleton]%elem_of_app; [done|]. by apply HBC. }
  assert (HCsB : C ∉ seed ++ [B]).
  { intros [?|?%list_elem_of_singleton]%elem_of_app; [done|]. by apply HBC. }
  unfold deliver. simpl. unfold processRecord. simpl.
  rewrite (processAdded_new e4 (seed, []) B HmB HBs). simpl.
  rewrite (processAdded_new e4 (seed ++ [B], _) C HmC HCsB). simpl.
  rewrite (processRemoved_stale e4 _ A) by (apply Hattached; by left).
  rewrite (processRemoved_stale e4 _ B) by (apply Hattached; right; by left).
  rewrite (processRemoved_gone e4 ((seed ++ [B]) ++ [C], _) C);
    [|simpl; apply elem_of_app; right; by left|done].
  simpl.
  rewrite !List.filter_app, (filter_neq_absent seed C HCs). simpl.
  rewrite Nat.eqb_refl. simpl.
  assert (HBneC : (B =? C) = false) by (by apply Nat.eqb_neq).
  rewrite HBneC. simpl. rewrite app_nil_r.
  rewrite (processAdded_member e4 (seed ++ [B], _) A) by (simpl; apply elem_of_app; by left).
  rewrite (processAdded_member e4 (seed ++ [B], _) B)
    by (simpl; apply elem_of_app; right; by left).
  done.
Qed.
End Reorder.

(** C2. In the filter engine, for every page, predicate, root context and
    nodes A, B, C that are different elements satisfying the predicate: when
    A is among the children of the root at subscription and B, C are not,
    then after B is appended for real and the records added [B, C], removed
    [A, B, C] and added [A, B] are injected in that order, the delivery makes
    exactly one call of the subscriber, with the batch add B, add C,
    remove C; the matched set is then the one of the subscription followed by
    B (A, B when A was the only child); nothing is pending and no
    notification concerns A. In general, a record that reports as removed
    only nodes that are still children of the root when it is processed
    changes nothing: no member is dropped and the subscriber is not
    called. *)
Theorem C2_reorder_scenario_single_batch :
  (∀ describe cond rootEc actual A B C,
     A ∈ actual → matched describe cond A = true →
     matched describe cond B = true → matched describe cond C = true →
     B ∉ actual → C ∉ actual → B ≠ C →
     let e := reorderRun describe cond rootEc actual A B C in
     let ctx n := mkEc n (parents rootEc) in
     WatchFilteredChildren.calls e
       = [[ChangeAdd (ctx B); ChangeAdd (ctx C); ChangeRemove (ctx C)]] ∧
     WatchFilteredChildren.values e
       = (ctx <$> List.filter (matched describe cond) actual) ++ [ctx B] ∧
     (actual = [A] → WatchFilteredChildren.values e = [ctx A; ctx B]) ∧
     WatchFilteredChildren.pending e = [] ∧
     (∀ batch ch, batch ∈ WatchFilteredChildren.calls e → ch ∈ batch →
                  el (changeValue ch) ≠ A)) ∧
  (∀ describe cond e removed,
     WatchFilteredChildren.pending e = [] →
     (∀ n, n ∈ removed → n ∈ WatchFilteredChildren.childNodes e) →
     let e' := WatchFilteredChildren.deliver describe cond
                 (WatchFilteredChildren.emitMutation
                    (WatchFilteredChildren.mkRecord [] removed) e) in
     WatchFilteredChildren.members e' = WatchFilteredChildren.members e ∧
     WatchFilteredChildren.calls e' = WatchFilteredChildren.calls e ∧
     WatchFilteredChildren.pending e' = []).
Proof.
  split.
  - intros describe cond rootEc actual A B C HA HmA HmB HmC HB HC HBC e ctx.
    assert (HAB : A ≠ B) by (by intros ->).
    assert (HAC : A ≠ C) by (by intros ->).
    unfold e. rewrite (reorderRun_eval describe cond rootEc actual A B C) by done.
    unfold WatchFilteredChildren.values, WatchFilteredChildren.wrap. simpl.
    split; [done|]. split; [by rewrite fmap_app|]. split.
    { intros ->. simpl. by rewrite HmA. }
    split; [done|].
    intros batch ch ->%list_elem_of_singleton Hch.
    repeat (apply elem_of_cons in Hch as [->|Hch]; [simpl; congruence|]).
    by apply elem_of_nil in Hch.
  - intros describe cond e removed Hp Hl e'. unfold e'.
    unfold WatchFilteredChildren.deliver, WatchFilteredChildren.emitMutation. simpl.
    rewrite Hp. simpl. unfold WatchFilteredChildren.processRecord. simpl.
    by rewrite stale_removals.
Qed.

Lemma C2_witness :
  let e := WatchFilteredChildren.reorderScenario in
  let ctx n := mkEc n WatchFilteredChildren.testParents in
  WatchFilteredChildren.calls e = [[ChangeAdd (ctx 2); ChangeAdd (ctx 3); ChangeRemove (ctx 3)]] ∧
  WatchFilteredChildren.values e = [ctx 1; ctx 2] ∧
  WatchFilteredChildren.pending e = [] ∧
  (∀ batch ch, batch ∈ WatchFilteredChildren.calls e → ch ∈ batch → el (changeValue ch) ≠ 1).
Proof.
  destruct (proj1 C2_reorder_scenario_single_batch
              WatchFilteredChildren.testPage
              (WatchFilteredChildren.divNotIgnore WatchFilteredChildren.testPage)
              (mkEc 0 WatchFilteredChildren.testParents) [1] 1 2 3)
    as (Hcalls & _ & Hvalues & Hpending & HA).
  - by left.
  - reflexivity.
  - reflexivity.
  - reflexivity.
  - intros ?%list_elem_of_singleton. discriminate.
  - intros ?%list_elem_of_singleton. discriminate.
  - discriminate.
  - split; [exact Hcalls|]. split; [exact (Hvalues eq_refl)|]. split; [exact Hpending|exact HA].
Defined.

(** * Exceptions of the code of a pipeline *)

Example matcher_exception_at_subscribe_reaches_the_caller :
  let r := newPageParserTree raisingAtSubscribe (RootElement 0) demoBadCssOptions in
  r.1 = Thrown (Err_raised_by (CallMatchesSelector "[")) ∧
  _subscriptions r.2 = [].
Proof. vm_compute. split; reflexivity. Qed.

Example matcher_exception_at_pullChanges_reaches_the_caller :
  let r := newPageParserTree raisingAtPullChanges (RootElement 0) demoBadCssOptions in
  r.1 = Thrown (Err_raised_by (CallMatchesSelector "[")) ∧
  subWatcher <$> _subscriptions r.2 = [0].
Proof. vm_compute. split; reflexivity. Qed.

(** * [$or] on context objects *)

(** ** Sets of objects *)

Lemma newSet_subseteq l o : o ∈ newSet l → o ∈ l.
Proof.
  induction l as [|a l IH]; simpl; [done|].
  intros [->|Hin]%elem_of_cons; [by left|]. right. apply IH.
  apply list_elem_of_In, filter_In in Hin as [Hin _]. by apply list_elem_of_In.
Qed.

Lemma isSet_filter (f : ContextObject → bool) l : isSet l → isSet (List.filter f l).
Proof.
  unfold isSet. induction l as [|a l IH]; simpl; [done|].
  rewrite NoDup_cons. intros [Ha Hl]. destruct (f a); simpl; [|by apply IH].
  apply NoDup_cons. split; [|by apply IH].
  intros (o & Ho & Hin)%list_elem_of_fmap. apply Ha, list_elem_of_fmap. exists o.
  split; [done|]. apply list_elem_of_In, filter_In in Hin as [Hin _]. by apply list_elem_of_In.
Qed.

Lemma newSet_isSet l : isSet (newSet l).
Proof.
  induction l as [|a l IH]; simpl; [constructor|].
  unfold isSet. simpl. apply NoDup_cons. split; [|by apply isSet_filter].
  intros (o & Ho & Hin)%list_elem_of_fmap.
  apply list_elem_of_In, filter_In in Hin as [_ Hin].
  apply negb_true_iff, Nat.eqb_neq in Hin. congruence.
Qed.

Lemma newSet_ids l o : o ∈ l → ∃ o', o' ∈ newSet l ∧ objectId o' = objectId o.
Proof.
  induction l as [|a l IH]; simpl; [by intros ?%elem_of_nil|].
  intros [->|Hin]%elem_of_cons; [exists a; split; [by left|done]|].
  destruct (IH Hin) as (o' & Ho' & Hid).
  destruct (decide (objectId o' = objectId a)) as [Heq|Hne].
  - exists a. split; [by left|congruence].
  - exists o'. split; [|done]. right. apply list_elem_of_In, filter_In.
    split; [by apply list_elem_of_In|]. by apply negb_true_iff, Nat.eqb_neq.
Qed.

Lemma newSet_elem l o : oneById l → o ∈ newSet l ↔ o ∈ l.
Proof.
  intros Hl. split; [apply newSet_subseteq|]. intros Hin.
  destruct (newSet_ids l o Hin) as (o' & Ho' & Hid).
  by rewrite <- (Hl o' o (newSet_subseteq _ _ Ho') Hin Hid).
Qed.

Lemma isSet_oneById l : isSet l → oneById l.
Proof.
  unfold isSet. induction l as [|a l IH]; simpl; [by intros _ ? ? ?%elem_of_nil|].
  rewrite NoDup_cons. intros [Ha Hl] o1 o2 [->|H1]%elem_of_cons [->|H2]%elem_of_cons Hid.
  - done.
  - exfalso. apply Ha, list_elem_of_fmap. by exists o2.
  - exfalso. apply Ha, list_elem_of_fmap. by exists o1.
  - by apply IH.
Qed.

Lemma newSet_of_set l : isSet l → newSet l = l.
Proof.
  unfold isSet. induction l as [|a l IH]; simpl; [done|].
  rewrite NoDup_cons. intros [Ha Hl]. rewrite (IH Hl). f_equal.
  clear IH Hl. induction l as [|b l IH]; simpl; [done|].
  destruct (Nat.eqb_spec (objectId b) (objectId a)) as [Heq|Hne]; simpl.
  - exfalso. apply Ha. simpl. rewrite Heq. by left.
  - f_equal. apply IH. intros Hin. apply Ha. simpl. by right.
Qed.

Lemma isSet_app l1 l2 :
  isSet l1 → isSet l2 →
  (∀ o1 o2, o1 ∈ l1 → o2 ∈ l2 → objectId o1 ≠ objectId o2) →
  isSet (l1 ++ l2).
Proof.
  unfold isSet. intros H1 H2 Hd. rewrite fmap_app. apply NoDup_app.
  split; [done|]. split; [|done].
  intros i (o1 & -> & Ho1)%list_elem_of_fmap (o2 & Heq & Ho2)%list_elem_of_fmap.
  by apply (Hd o1 o2).
Qed.

(** ** Allocation *)

Lemma mapA_cons {A B} (f : A → Alloc B) x l n :
  mapA f (x :: l) n = ((f x n).1 :: (mapA f l (f x n).2).1, (mapA f l (f x n).2).2).
Proof. simpl. destruct (f x n) as [y n1]. simpl. by destruct (mapA f l n1). Qed.

Lemma mapA_Forall2 {A B} (f : A → Alloc B) l n :
  Forall2 (λ x y, ∃ m, y = (f x m).1) l (mapA f l n).1.
Proof.
  revert n. induction l as [|x l IH]; intros n; [constructor|].
  rewrite mapA_cons. simpl. constructor; [by exists n|apply IH].
Qed.

Lemma mapA_newObject {A} (g : A → ElementContext) l n :
  let r := mapA (λ x, newObject (g x)) l n in
  r.2 = n + length l ∧ context <$> r.1 = g <$> l ∧ objectId <$> r.1 = seq n (length l).
Proof.
  revert n. induction l as [|x l IH]; intros n; [simpl; split; [lia|done]|].
  rewrite mapA_cons. destruct (IH (S n)) as (H1 & H2 & H3).
  change (newObject (g x) n) with (mkObject n (g x), S n).
  cbn [fst snd]. rewrite !fmap_cons, H1, H2, H3. simpl. split; [lia|done].
Qed.

Lemma mapObjects_cons fn o l n :
  mapObjects fn (o :: l) n =
  (match fn (el (context o)) with
   | Some e => [mkObject n (mkEc e (parents (context o)))]
   | None => []
   end ++ (mapObjects fn l (S n)).1, (mapObjects fn l (S n)).2).
Proof.
  unfold mapObjects. rewrite mapA_cons. simpl.
  destruct (mapA _ l (S n)) as [made n1]. simpl. unfold t_filter. simpl.
  by destruct (fn (el (context o))).
Qed.

Lemma mapObjects_nil fn n : mapObjects fn [] n = ([], n).
Proof. done. Qed.

(** ** The stages *)

Lemma realises_ext (T T' : ObjectTransformer) (t t' : LiveSetTransformer) :
  (∀ page l n, T' page l n = T page l n) → (∀ page l, t' page l = t page l) →
  realises T t → realises T' t'.
Proof.
  intros HT Ht [Hc H]. split.
  - intros page input. rewrite Ht. rewrite (Hc page input).
    apply flat_map_perm_ext. intros ec. by rewrite Ht.
  - intros page l n Hs Hm. rewrite HT. simpl.
    destruct (H page l n Hs Hm) as (H1 & H2 & H3 & H4 & H5).
    split; [done|]. split; [done|]. split; [done|]. split; [done|].
    intros c. by rewrite Ht.
Qed.

Lemma fmap_filter_context (p : ElementContext → bool) (l : list ContextObject) :
  context <$> List.filter (λ o, p (context o)) l = List.filter p (context <$> l).
Proof.
  induction l as [|a l IH]; simpl; [done|].
  destruct (p (context a)); simpl; [f_equal|]; exact IH.
Qed.

Lemma realises_filter (p : ElementContext → bool) :
  realises (λ page liveSet next, (liveSetFilter liveSet (λ o, p (context o)), next))
           (λ page liveSet, liveSetFilter liveSet p).
Proof.
  split; [apply contextwise_filter|].
  intros page l n Hs Hm. simpl. unfold liveSetFilter.
  split; [done|]. split; [by apply isSet_filter|].
  assert (Hsub : ∀ o, o ∈ List.filter (λ o, p (context o)) l → o ∈ l).
  { intros o Hin. apply list_elem_of_In, filter_In in Hin as [Hin _].
    by apply list_elem_of_In. }
  split; [intros o Ho; by apply Hm, Hsub|].
  split; [intros o Ho; left; by apply Hsub|].
  intros c. by rewrite fmap_filter_context.
Qed.

Lemma flatMap_objects F f page l n :
  realisesEach F f → isSet l → madeBefore n l →
  let r := mapA (F page) l n in
  n ≤ r.2 ∧ isSet (List.concat r.1) ∧
  (∀ o, o ∈ List.concat r.1 → (o ∈ l ∨ n ≤ objectId o) ∧ objectId o < r.2) ∧
  context <$> List.concat r.1 = List.flat_map (f page) (context <$> l).
Proof.
  intros HF. revert n. induction l as [|a l IH]; intros n Hs Hm.
  { simpl. split; [done|]. split; [constructor|]. split; [|done].
    by intros o ?%elem_of_nil. }
  rewrite mapA_cons. simpl.
  destruct (HF page a n) as (Hn & Hs1 & Ho1 & Hc1).
  set (r1 := F page a n) in *.
  assert (Hsl : isSet l) by (unfold isSet in *; simpl in Hs; by apply NoDup_cons in Hs as []).
  assert (Hml : madeBefore r1.2 l).
  { intros o Ho. specialize (Hm o (list_elem_of_further _ _ _ Ho)). lia. }
  destruct (IH r1.2 Hsl Hml) as (Hn2 & Hs2 & Ho2 & Hc2).
  set (r2 := mapA (F page) l r1.2) in *.
  split; [lia|]. split.
  { apply isSet_app; [done|done|]. intros o1 o2 H1 H2 Heq.
    destruct (Ho2 o2 H2) as [[Hin|Hge] _]; destruct (Ho1 o1 H1) as [->|Hnew].
    - unfold isSet in Hs. simpl in Hs. apply NoDup_cons in Hs as [Ha _].
      apply Ha, list_elem_of_fmap. by exists o2.
    - specialize (Hm o2 (list_elem_of_further _ _ _ Hin)). lia.
    - specialize (Hm a (list_elem_of_here _ _)). lia.
    - lia. }
  split.
  { intros o [H1|H2]%elem_of_app.
    - destruct (Ho1 o H1) as [->|Hnew].
      + split; [left; by left|]. specialize (Hm a (list_elem_of_here _ _)). lia.
      + split; [right|]; lia.
    - destruct (Ho2 o H2) as [[Hin|Hge] Hlt]; (split; [|done]).
      + left. by right.
      + right. lia. }
  by rewrite fmap_app, Hc1, Hc2.
Qed.

Lemma realises_flatMap F f :
  realisesEach F f →
  realises (λ page liveSet, liveSetFlatMapObjects liveSet (F page))
           (λ page liveSet, liveSetFlatMap liveSet (f page)).
Proof.
  intros HF. split; [apply contextwise_flatMap|].
  intros page l n Hs Hm. unfold liveSetFlatMapObjects, liveSetFlatMap.
  destruct (flatMap_objects F f page l n HF Hs Hm) as (H1 & H2 & H3 & H4).
  destruct (mapA (F page) l n) as [sets n1]. simpl in *.
  rewrite (newSet_of_set _ H2).
  split; [done|]. split; [done|]. split; [intros o Ho; by apply H3|].
  split; [intros o Ho; by apply H3|]. intros c. by rewrite H4.
Qed.

Lemma realisesEach_children (g : Page → Element → list Element) (p : Page → Element → bool)
    (f : Page → ElementContext → list ElementContext) :
  (∀ page ec,
     f page ec = (λ e, mkEc e (parents ec)) <$> List.filter (p page) (g page (el ec))) →
  realisesEach
    (λ page o, mapA (λ e, newObject (mkEc e (parents (context o))))
                    (List.filter (p page) (g page (el (context o)))))
    f.
Proof.
  intros Hf page o n. simpl.
  destruct (mapA_newObject (λ e, mkEc e (parents (context o)))
              (List.filter (p page) (g page (el (context o)))) n) as (H1 & H2 & H3).
  simpl in *. split; [lia|]. split; [unfold isSet; rewrite H3; apply NoDup_seq|].
  split; [|by rewrite Hf].
  intros o' Ho'. right.
  assert (Hin : objectId o' ∈ seq n (length (List.filter (p page) (g page (el (context o)))))).
  { rewrite <- H3. apply list_elem_of_fmap. by exists o'. }
  apply elem_of_seq in Hin. lia.
Qed.

Lemma realisesEach_watch attributeFilter cond :
  realisesEach (λ page o, makeMutationObserverLiveSetObjects page o attributeFilter cond)
               (λ page ec, makeMutationObserverLiveSet page ec attributeFilter cond).
Proof.
  intros page o n. unfold makeMutationObserverLiveSetObjects, makeMutationObserverLiveSet.
  simpl. split; [done|]. destruct (evalCond page cond (el (context o))); simpl.
  - split; [unfold isSet; simpl; apply NoDup_singleton|]. split; [|done].
    intros o' ->%list_elem_of_singleton. by left.
  - split; [constructor|]. split; [|done]. by intros o' ?%elem_of_nil.
Qed.

Lemma mapObjects_spec fn l n :
  let r := mapObjects fn l n in
  r.2 = n + length l ∧ isSet r.1 ∧
  (∀ o, o ∈ r.1 → n ≤ objectId o < r.2) ∧
  context <$> r.1 = liveSetTransduce (context <$> l) (mapTransducer fn).
Proof.
  revert n. induction l as [|a l IH]; intros n.
  { rewrite mapObjects_nil. simpl. split; [lia|]. split; [constructor|].
    split; [|done]. by intros o ?%elem_of_nil. }
  rewrite mapObjects_cons. cbn [fst snd]. destruct (IH (S n)) as (H1 & H2 & H3 & H4).
  split; [simpl; lia|]. split; [|split].
  - apply isSet_app; [|done|].
    + unfold isSet. destruct (fn (el (context a))); [apply NoDup_singleton|constructor].
    + intros o1 o2 Ho1 Ho2. specialize (H3 o2 Ho2).
      destruct (fn (el (context a)));
        [apply list_elem_of_singleton in Ho1 as ->; simpl; lia|by apply elem_of_nil in Ho1].
  - intros o [Ho|Ho]%elem_of_app; [|specialize (H3 o Ho); lia].
    destruct (fn (el (context a)));
      [apply list_elem_of_singleton in Ho as ->; simpl; lia|by apply elem_of_nil in Ho].
  - rewrite fmap_app, H4.
    unfold liveSetTransduce, mapTransducer, t_compose, t_map, t_filter. simpl.
    by destruct (fn (el (context a))).
Qed.

Lemma realises_map fn :
  realises (λ page liveSet, mapObjects fn liveSet)
           (λ page liveSet, liveSetTransduce liveSet (mapTransducer fn)).
Proof.
  split; [apply contextwise_map|].
  intros page l n Hs Hm. destruct (mapObjects_spec fn l n) as (H1 & H2 & H3 & H4).
  simpl in *. split; [lia|]. split; [done|].
  split; [intros o Ho; by apply H3|]. split; [intros o Ho; right; by apply H3|].
  intros c. by rewrite H4.
Qed.

(** ** Composition *)

Lemma realises_id : realises (λ _ x next, (x, next)) (λ _ x, x).
Proof.
  split.
  - intros page input. induction input as [|x l IH]; simpl; [done|]. by constructor.
  - intros page l n Hs Hm. simpl. split; [done|]. split; [done|]. split; [done|].
    split; [by left|done].
Qed.

Lemma realises_compose (T1 T2 : ObjectTransformer) (t1 t2 : LiveSetTransformer) :
  realises T1 t1 → realises T2 t2 →
  realises (λ page liveSet next, let '(mid, n1) := T1 page liveSet next in T2 page mid n1)
           (λ page liveSet, t2 page (t1 page liveSet)).
Proof.
  intros [Hc1 H1] [Hc2 H2]. split.
  - intros page input. by apply compose_contextwise.
  - intros page l n Hs Hm. destruct (H1 page l n Hs Hm) as (A1 & A2 & A3 & A4 & A5).
    destruct (T1 page l n) as [mid n1]. simpl in *.
    destruct (H2 page mid n1 A2 A3) as (B1 & B2 & B3 & B4 & B5).
    split; [lia|]. split; [done|]. split; [done|]. split.
    + intros o Ho. destruct (B4 o Ho) as [Hin|Hge]; [|right; lia].
      destruct (A4 o Hin) as [?|?]; [by left|by right].
    + intros c. rewrite B5, !(contextwise_elem t2 page _ c Hc2).
      split; intros (ec & Hec & Hout); exists ec; (split; [|done]); by apply A5.
Qed.

Lemma reduceObjectTransformers_fold (Ts : list ObjectTransformer)
    (init1 init2 : ObjectTransformer) page input1 input2 next1 next2 :
  init1 page input1 next1 = init2 page input2 next2 →
  fold_left (λ (combined transformer : ObjectTransformer),
               λ page liveSet next,
                 let '(mid, n1) := combined page liveSet next in transformer page mid n1)
            Ts init1 page input1 next1
  = fold_left (λ (combined transformer : ObjectTransformer),
               λ page liveSet next,
                 let '(mid, n1) := combined page liveSet next in transformer page mid n1)
            Ts init2 page input2 next2.
Proof.
  revert init1 init2 input1 input2 next1 next2.
  induction Ts as [|T Ts IH]; intros init1 init2 input1 input2 next1 next2 Hinit; simpl;
    [done|].
  apply IH. by rewrite Hinit.
Qed.

Lemma reduceObjectTransformers_cons T Ts page liveSet next :
  reduceObjectTransformers (T :: Ts) page liveSet next
  = reduceObjectTransformers Ts page (T page liveSet next).1 (T page liveSet next).2.
Proof.
  unfold reduceObjectTransformers. simpl. apply reduceObjectTransformers_fold.
  by destruct (T page liveSet next).
Qed.

Lemma reduceObjectTransformers_app Ts1 Ts2 page liveSet next :
  reduceObjectTransformers (Ts1 ++ Ts2) page liveSet next
  = let '(mid, n1) := reduceObjectTransformers Ts1 page liveSet next in
    reduceObjectTransformers Ts2 page mid n1.
Proof.
  revert liveSet next. induction Ts1 as [|T Ts1 IH]; intros liveSet next; [done|].
  simpl. rewrite !reduceObjectTransformers_cons. apply IH.
Qed.

Lemma realises_reduce Ts ts :
  Forall2 realises Ts ts → realises (reduceObjectTransformers Ts) (reduceTransformers ts).
Proof.
  induction 1 as [|T t Ts ts HT _ IH]; [apply realises_id|].
  eapply realises_ext; [| |exact (realises_compose _ _ _ _ HT IH)].
  - intros page l n. rewrite reduceObjectTransformers_cons. by destruct (T page l n).
  - intros page l. apply reduceTransformers_cons.
Qed.

(** ** The branches of an [$or] *)

Lemma branches_objects (Ts : list ObjectTransformer) (ts : list LiveSetTransformer) page l n :
  Forall2 realises Ts ts → isSet l → madeBefore n l →
  let r := mapA (λ T : ObjectTransformer, T page l) Ts n in
  n ≤ r.2 ∧
  Forall2 (λ (t : LiveSetTransformer) out,
             isSet out ∧ ∀ c, c ∈ context <$> out ↔ c ∈ t page (context <$> l)) ts r.1 ∧
  (∀ o, o ∈ List.concat r.1 → (o ∈ l ∨ n ≤ objectId o) ∧ objectId o < r.2) ∧
  (∀ i j out_i out_j o1 o2,
     i < j → r.1 !! i = Some out_i → r.1 !! j = Some out_j →
     o1 ∈ out_i → o2 ∈ out_j → objectId o1 = objectId o2 → o1 = o2 ∧ o1 ∈ l).
Proof.
  intros HTs Hs. revert n. induction HTs as [|T t Ts ts HT _ IH]; intros n Hm.
  { simpl. split; [done|]. split; [constructor|]. split; [by intros o ?%elem_of_nil|].
    intros i j ? ? ? ? _ Hi. by rewrite lookup_nil in Hi. }
  rewrite mapA_cons. simpl.
  destruct HT as [Hc HT]. destruct (HT page l n Hs Hm) as (A1 & A2 & A3 & A4 & A5).
  set (r1 := T page l n) in *.
  assert (Hm1 : madeBefore r1.2 l) by (intros o Ho; specialize (Hm o Ho); lia).
  destruct (IH r1.2 Hm1) as (B1 & B2 & B3 & B4).
  set (r2 := mapA (λ T : ObjectTransformer, T page l) Ts r1.2) in *.
  split; [lia|]. split; [by constructor|]. split.
  { intros o [H1|H2]%elem_of_app.
    - split; [by apply A4|]. specialize (A3 o H1). lia.
    - destruct (B3 o H2) as [[?|?] ?]; (split; [|done]); [by left|right; lia]. }
  intros i j out_i out_j o1 o2 Hij Hi Hj H1 H2 Heq.
  destruct j as [|j]; [lia|]. simpl in Hj. destruct i as [|i]; simpl in Hi.
  - injection Hi as <-.
    assert (Hin2 : o2 ∈ List.concat r2.1).
    { apply list_elem_of_In, in_concat. exists out_j.
      split; apply list_elem_of_In; [by eapply list_elem_of_lookup_2|done]. }
    destruct (B3 o2 Hin2) as [[Hl2|Hge] _]; [|specialize (A3 o1 H1); lia].
    destruct (A4 o1 H1) as [Hl1|Hge]; [|specialize (Hm o2 Hl2); lia].
    split; [|done]. by apply (isSet_oneById l Hs).
  - apply (B4 i j out_i out_j o1 o2); [lia|done..].
Qed.

Lemma branches_oneById (Ts : list ObjectTransformer) (ts : list LiveSetTransformer) page l n :
  Forall2 realises Ts ts → isSet l → madeBefore n l →
  oneById (List.concat (mapA (λ T : ObjectTransformer, T page l) Ts n).1).
Proof.
  intros HTs Hs Hm.
  destruct (branches_objects Ts ts page l n HTs Hs Hm) as (_ & H2 & _ & H4).
  set (outs := (mapA (λ T : ObjectTransformer, T page l) Ts n).1) in *.
  intros o1 o2 Hin1 Hin2 Heq.
  apply list_elem_of_In, in_concat in Hin1 as (out1 & Hout1 & Ho1).
  apply list_elem_of_In, in_concat in Hin2 as (out2 & Hout2 & Ho2).
  apply list_elem_of_In, list_elem_of_lookup in Hout1 as [i Hi].
  apply list_elem_of_In, list_elem_of_lookup in Hout2 as [j Hj].
  apply list_elem_of_In in Ho1, Ho2.
  destruct (Nat.lt_total i j) as [Hlt|[->|Hgt]].
  - by destruct (H4 i j out1 out2 o1 o2 Hlt Hi Hj Ho1 Ho2 Heq).
  - assert (out1 = out2) as -> by congruence.
    destruct (Forall2_lookup_r _ _ _ _ _ H2 Hj) as (t & _ & Hset & _).
    by apply (isSet_oneById out2 Hset).
  - symmetry. by destruct (H4 j i out2 out1 o2 o1 Hgt Hj Hi Ho2 Ho1 (eq_sym Heq)).
Qed.

Lemma realises_or Ts ts :
  Forall2 realises Ts ts →
  realises (orObjects Ts)
           (λ page liveSet,
              liveSetMerge (List.map (λ transformer : LiveSetTransformer,
                                        transformer page liveSet) ts)).
Proof.
  intros HTs. split.
  { apply contextwise_merge. induction HTs as [|T t Ts ts [Hc _] _ IH]; by constructor. }
  intros page l n Hs Hm. unfold orObjects, liveSetMergeObjects, liveSetMerge.
  pose proof (branches_oneById Ts ts page l n HTs Hs Hm) as Hone.
  destruct (branches_objects Ts ts page l n HTs Hs Hm) as (H1 & H2 & H3 & _).
  destruct (mapA (λ T : ObjectTransformer, T page l) Ts n) as [outs n1]. simpl in *.
  split; [done|]. split; [apply newSet_isSet|].
  split; [intros o Ho%newSet_subseteq; by apply H3|].
  split; [intros o Ho%newSet_subseteq; by apply H3|].
  intros c. rewrite list_elem_of_fmap.
  setoid_rewrite (newSet_elem _ _ Hone).
  clear H3 Hone HTs H1. induction H2 as [|t out ts' outs' [_ Ht] _ IH]; simpl.
  - split; [by intros (o & _ & ?%elem_of_nil)|by intros ?%elem_of_nil].
  - rewrite elem_of_app, <- Ht, <- IH, list_elem_of_fmap.
    split.
    + intros (o & -> & [Hin|Hin]%elem_of_app); [left|right]; by exists o.
    + intros [(o & -> & Hin)|(o & -> & Hin)]; exists o; (split; [done|]); apply elem_of_app;
        [by left|by right].
Qed.

(** ** The compilers on objects and on contexts *)

Lemma mapO_together {A B C} (R : B → C → Prop) (f : A → Outcome B) (g : A → Outcome C) l :
  Forall (λ x, together R (f x) (g x)) l → together (Forall2 R) (mapO f l) (mapO g l).
Proof.
  induction 1 as [|x l Hx _ IH]; simpl; [constructor|].
  destruct (f x) as [y|e], (g x) as [z|e']; simpl in *; try done.
  destruct (mapO f l) as [ys|e], (mapO g l) as [zs|e']; simpl in *; try done.
  by constructor.
Qed.

Lemma make_together (C : Selector → Outcome ObjectTransformer)
    (c : Selector → Outcome LiveSetTransformer) l :
  Forall (λ item, together realises (C item) (c item)) l →
  together realises (makeObjectsWith C l) (makeWith c l).
Proof.
  intros Hl. apply mapO_together in Hl. unfold makeObjectsWith, makeWith.
  destruct (mapO C l) as [Ts|e], (mapO c l) as [ts|e']; simpl in *; try done.
  by apply realises_reduce.
Qed.

Lemma branches_together (C : Selector → Outcome ObjectTransformer)
    (c : Selector → Outcome LiveSetTransformer) (branches : list (list Selector)) :
  Forall (Forall (λ item, together realises (C item) (c item))) branches →
  together realises
    (obind (mapO (makeObjectsWith C) branches)
       (λ transformers, Returned (orObjects transformers)))
    (obind (mapO (makeWith c) branches)
       (λ transformers,
          Returned (λ page liveSet,
             liveSetMerge (List.map (λ transformer : LiveSetTransformer,
                                       transformer page liveSet) transformers)))).
Proof.
  intros Hb.
  assert (Hm : Forall (λ branch, together realises (makeObjectsWith C branch)
                                   (makeWith c branch)) branches).
  { eapply Forall_impl; [exact Hb|]. intros branch. apply make_together. }
  apply mapO_together in Hm.
  destruct (mapO (makeObjectsWith C) branches) as [Ts|e],
           (mapO (makeWith c) branches) as [ts|e']; simpl in *; try done.
  by apply realises_or.
Qed.

Lemma Embedded_compileItem_together item :
  together realises (EmbeddedObjects.compileItem item) (Embedded.compileItem item).
Proof.
  induction item as [s|f|f|a c|branches IH|s|] using Selector_ind; simpl; try done.
  - apply (realises_flatMap
             (λ page o, childObjects page s o)
             (λ page ec, liveSetTransduce (makeElementChildLiveSet page (el ec))
                           (t_compose (t_filter (λ e, matchesSelector page e s))
                                      (t_map (λ e, mkEc e (parents ec)))))).
    apply (realisesEach_children makeElementChildLiveSet (λ page e, matchesSelector page e s)).
    done.
  - apply (realises_filter (λ ec, f (el ec))).
  - apply realises_map.
  - by apply branches_together.
  - case_bool_decide; [done|]. apply (realises_filter (λ _, true)).
Qed.

Lemma Standalone_compileItem_together item :
  together realises (StandaloneObjects.compileItem item) (Standalone.compileItem item).
Proof.
  induction item as [s|f|f|a c|branches IH|s|] using Selector_ind; simpl; try done.
  - apply (realises_flatMap
             (λ page o, makeFilteredEcChildLiveSetObjects page o s)
             (λ page ec, makeFilteredEcChildLiveSet page ec s)).
    apply (realisesEach_children children (λ page e, matchesSelector page e s)). done.
  - apply (realises_filter (λ ec, f (el ec))).
  - apply realises_map.
  - apply (realises_flatMap
             (λ page o, makeMutationObserverLiveSetObjects page o a c)
             (λ page ec, makeMutationObserverLiveSet page ec a c)).
    apply realisesEach_watch.
  - by apply branches_together.
  - case_bool_decide; [done|]. apply (realises_filter (λ _, true)).
Qed.

(** ** The stage of an [$or] item *)

Section OrSplitObjects.
Variable compileItem : Selector → Outcome ObjectTransformer.
Variable compileContexts : Selector → Outcome LiveSetTransformer.

Hypothesis compileItem_or : ∀ branches,
  compileItem (SelOr branches) =
  obind (mapO (makeObjectsWith compileItem) branches)
    (λ transformers, Returned (orObjects transformers)).

Hypothesis compile_together : ∀ item,
  together realises (compileItem item) (compileContexts item).

Lemma make_objects_nil :
  ∃ T, makeObjectsWith compileItem [] = Returned T ∧
       ∀ page input n, T page input n = (input, n).
Proof. by eexists. Qed.

Lemma or_split_objects pre branches post T :
  makeObjectsWith compileItem (pre ++ SelOr branches :: post) = Returned T →
  ∃ Tpre Tbranches Tpost,
    makeObjectsWith compileItem pre = Returned Tpre ∧
    Forall2 (λ branch Tb, makeObjectsWith compileItem branch = Returned Tb)
            branches Tbranches ∧
    makeObjectsWith compileItem post = Returned Tpost ∧
    ∀ page input n,
      let upstream := Tpre page input n in
      let outputs :=
        mapA (λ Tb : ObjectTransformer, Tb page upstream.1) Tbranches upstream.2 in
      T page input n = Tpost page (liveSetMergeObjects outputs.1) outputs.2.
Proof using compileItem_or.
  unfold makeObjectsWith at 1.
  destruct (mapO compileItem (pre ++ SelOr branches :: post)) as [Ts|] eqn:HTs;
    simpl; [|discriminate].
  intros [= <-].
  apply mapO_app_inv in HTs as (Ts1 & Ts2 & Hpre & Hrest & ->).
  simpl in Hrest. rewrite compileItem_or in Hrest.
  destruct (mapO (makeObjectsWith compileItem) branches) as [Tbs|] eqn:Hbs;
    simpl in Hrest; [|discriminate].
  destruct (mapO compileItem post) as [Ts3|] eqn:Hpost; simpl in Hrest; [|discriminate].
  injection Hrest as <-.
  exists (reduceObjectTransformers Ts1), Tbs, (reduceObjectTransformers Ts3).
  split; [unfold makeObjectsWith; by rewrite Hpre|].
  split; [by apply mapO_returned_Forall2|].
  split; [unfold makeObjectsWith; by rewrite Hpost|].
  intros page input n. simpl.
  rewrite reduceObjectTransformers_app.
  destruct (reduceObjectTransformers Ts1 page input n) as [up n1]. simpl.
  rewrite reduceObjectTransformers_cons. unfold orObjects.
  by destruct (mapA (λ Tb : ObjectTransformer, Tb page up) Tbs n1).
Qed.

Lemma make_realises selectors T :
  makeObjectsWith compileItem selectors = Returned T →
  ∃ t, makeWith compileContexts selectors = Returned t ∧ realises T t.
Proof using compile_together.
  intros HT.
  pose proof (make_together compileItem compileContexts selectors) as H.
  rewrite HT in H.
  destruct (makeWith compileContexts selectors) as [t|e] eqn:Ht; simpl in H.
  - exists t. split; [done|]. apply H. apply Forall_forall. intros item _.
    apply compile_together.
  - exfalso. apply H. apply Forall_forall. intros item _. apply compile_together.
Qed.

Lemma branches_realise branches Tbranches :
  Forall2 (λ branch Tb, makeObjectsWith compileItem branch = Returned Tb)
          branches Tbranches →
  ∃ tbranches, Forall2 realises Tbranches tbranches.
Proof using compile_together.
  induction 1 as [|branch Tb branches Tbranches Hb _ [tbs IH]]; [by exists []|].
  destruct (make_realises branch Tb Hb) as (t & _ & Ht). exists (t :: tbs). by constructor.
Qed.

Lemma merged_branches branches Tbranches page upstream n :
  Forall2 (λ branch Tb, makeObjectsWith compileItem branch = Returned Tb)
          branches Tbranches →
  isSet upstream → madeBefore n upstream →
  let outputs := (mapA (λ Tb : ObjectTransformer, Tb page upstream) Tbranches n).1 in
  let merged := liveSetMergeObjects outputs in
  Forall2 (λ (Tb : ObjectTransformer) out, ∃ m, out = (Tb page upstream m).1)
          Tbranches outputs ∧
  (∀ o, o ∈ merged ↔ ∃ out, out ∈ outputs ∧ o ∈ out) ∧
  isSet merged ∧
  (∀ i j out_i out_j o1 o2,
     i ≠ j → outputs !! i = Some out_i → outputs !! j = Some out_j →
     o1 ∈ out_i → o2 ∈ out_j → objectId o1 = objectId o2 →
     o1 = o2 ∧ o1 ∈ upstream).
Proof using compile_together.
  intros Hb Hs Hm outputs merged.
  destruct (branches_realise branches Tbranches Hb) as [tbs Htbs].
  pose proof (branches_oneById Tbranches tbs page upstream n Htbs Hs Hm) as Hone.
  destruct (branches_objects Tbranches tbs page upstream n Htbs Hs Hm) as (_ & _ & _ & H4).
  fold outputs in Hone, H4.
  split; [apply mapA_Forall2|]. split; [|split; [apply newSet_isSet|]].
  - intros o. unfold merged, liveSetMergeObjects. rewrite (newSet_elem _ _ Hone).
    rewrite list_elem_of_In, in_concat. split.
    + intros (out & H1 & H2). exists out. by rewrite !list_elem_of_In.
    + intros (out & H1 & H2). exists out. by rewrite <- !list_elem_of_In.
  - intros i j out_i out_j o1 o2 Hij Hi Hj H1 H2 Heq.
    destruct (Nat.lt_total i j) as [Hlt|[->|Hgt]]; [|done|].
    + by apply (H4 i j out_i out_j o1 o2).
    + destruct (H4 j i out_j out_i o2 o1 Hgt Hj Hi H2 H1 (eq_sym Heq)) as [-> ?]. done.
Qed.
End OrSplitObjects.




Example or_branches_build_separate_objects :
  match EmbeddedObjects.makeLiveSetTransformer demoChildrenTwice with
  | Returned T =>
      (λ o, (objectId o, el (context o))) <$> (T demoPage [mkObject 0 (rootContext 0)] 1).1
      = [(1, 1); (2, 2); (3, 1); (4, 2)]
  | Thrown _ => False
  end.
Proof. reflexivity. Qed.
